(** * The MIDI scheduling core of openal-soft: [Alc/midi/base.c]

    A shallow embedding of the event queue, the synth clock and the
    soundfont selection of [Alc/midi/base.c], with the properties its
    specification states about them.

    Conventions of the embedding:
    - C integers are [Z]; wrap-around is written out where the code can
      reach it ([ALsizei_wrap], [ALuint64_wrap]).
    - The [events] array is a list with one element per allocated slot
      (its length is [maxsize]); indices are C indices.
    - [malloc]ed system-exclusive payloads live in a heap, a finite map
      from addresses to byte blocks; [NULL] is address 0.  The reference
      counts of the soundfont objects live in a map from addresses to
      counts.
    - The outcome of an allocation is an argument of the function that
      allocates.
    - [ALdouble] and [ALfloat] arithmetic is an interface with two
      instances, IEEE 754 binary floating point and exact rationals.

    The definitions come first, then the lemmas and the theorems. *)

From Stdlib Require Import ZArith QArith Qround Lia.
From Stdlib Require Import Floats.SpecFloat.
From Equations Require Import Equations.
From stdpp Require Import base option list sorting gmap.

Open Scope Z_scope.

(** ** Machine integers and constants *)

(** [ALsizei] is a signed 32-bit integer, [ALuint64] an unsigned 64-bit
    integer. *)
Definition ALsizei_wrap (z : Z) : Z := (z + 2 ^ 31) mod 2 ^ 32 - 2 ^ 31.

Definition ALsizei_MAX : Z := 2 ^ 31 - 1.

Definition UINT64_MAX : Z := 2 ^ 64 - 1.

Definition ALuint64_wrap (z : Z) : Z := z mod 2 ^ 64.

(** Modelled from the spec: the error codes and source states of
    [AL/al.h], which is not among the sources; the values are those of
    the OpenAL 1.1 header. *)
Definition AL_NO_ERROR : Z := 0.
Definition AL_INVALID_VALUE : Z := 0xA003.
Definition AL_INVALID_OPERATION : Z := 0xA004.
Definition AL_OUT_OF_MEMORY : Z := 0xA005.

Definition AL_INITIAL : Z := 0x1011.
Definition AL_PLAYING : Z := 0x1012.
Definition AL_PAUSED : Z := 0x1013.
Definition AL_STOPPED : Z := 0x1014.

(** Microsecond resolution. *)
Definition TICKS_PER_SECOND : Z := 1000000.

(** MIDI events. *)
Definition SYSEX_EVENT : Z := 0xF0.

(** ** The heap of system-exclusive payloads *)

Definition NULL : Z := 0.

(** [free(p)]: releases the block at [p]; [free(NULL)] does nothing, as
    no block lives at address 0. *)
Definition free (h : gmap Z (list Z)) (p : Z) : gmap Z (list Z) := delete p h.

(** ** Events and the event queue *)

(** Modelled from the spec: [MidiEvent] and [EvtQueue] are declared in
    [evtqueue.h], which is not among the sources.  An event is a time, an
    event code and a payload that is either the two values of a control
    event or the buffer of a system-exclusive event. *)
Inductive MidiParam :=
| param_val (val0 val1 : Z)
| param_sysex (data : Z) (len : Z).

(** The members of the payload share their storage.  The code selects the
    [sysex] member by the event code alone; on a [val] payload that
    access lands on the first value. *)
Definition sysex_data (p : MidiParam) : Z :=
  match p with
  | param_sysex d _ => d
  | param_val v0 _ => v0
  end.

Definition set_sysex_data (p : MidiParam) (d : Z) : MidiParam :=
  match p with
  | param_sysex _ n => param_sysex d n
  | param_val _ v1 => param_val d v1
  end.

Record MidiEvent := {
  time : Z;
  event : Z;
  param : MidiParam
}.

Record EvtQueue := {
  events : list MidiEvent;
  maxsize : Z;
  size : Z;
  pos : Z
}.

(** The content of a slot that was allocated and never written. *)
#[export] Instance MidiEvent_inhabited : Inhabited MidiEvent :=
  populate {| time := 0; event := 0; param := param_val 0 0 |}.

(** [events[i]] *)
Definition at_index (evs : list MidiEvent) (i : Z) : MidiEvent :=
  evs !!! Z.to_nat i.

(** [memmove(&events[dst], &events[src], n*sizeof(events[0]))]: the [n]
    elements from [src] on are read first, then written from [dst] on. *)
Definition memmove (evs : list MidiEvent) (dst src n : Z) : list MidiEvent :=
  let chunk := take (Z.to_nat n) (drop (Z.to_nat src) evs) in
  take (Z.to_nat dst) evs ++ chunk ++ drop (Z.to_nat (dst + n)) evs.

Definition InitEvtQueue : EvtQueue :=
  {| events := []; maxsize := 0; size := 0; pos := 0 |}.

(** The loop that releases payloads, over the slots [i], [i+1], ...
    ([n] of them): used by [ResetEvtQueue] and by the compaction of
    [InsertEvtQueue]. *)
Fixpoint free_payloads (n : nat) (i : Z) (h : gmap Z (list Z))
    (evs : list MidiEvent) : gmap Z (list Z) * list MidiEvent :=
  match n with
  | O => (h, evs)
  | S n' =>
      let e := at_index evs i in
      if event e =? SYSEX_EVENT then
        free_payloads n' (i + 1) (free h (sysex_data (param e)))
          (<[Z.to_nat i := {| time := time e; event := event e;
                              param := set_sysex_data (param e) NULL |}]> evs)
      else free_payloads n' (i + 1) h evs
  end.

Definition ResetEvtQueue (h : gmap Z (list Z)) (queue : EvtQueue)
  : gmap Z (list Z) * EvtQueue :=
  let '(h', _) := free_payloads (Z.to_nat (size queue)) 0 h (events queue) in
  (h', {| events := []; maxsize := 0; size := 0; pos := 0 |}).

(** The bisection of [InsertEvtQueue]:
    [while(pos < high) { mid = pos + (high-pos)/2; ... }] *)
Equations? bisect (evs : list MidiEvent) (t : Z) (p high : Z) : Z
  by wf (Z.to_nat (high - p)) lt :=
  bisect evs t p high with Z_lt_dec p high => {
    | left _ =>
        let mid := p + Z.quot (high - p) 2 in
        if time (at_index evs mid) <? t
        then bisect evs t (mid + 1) high
        else bisect evs t p mid
    | right _ => p }.
Proof.
  all: pose proof (Z.quot_div_nonneg (high - p) 2);
    pose proof (Z.div_lt_upper_bound (high - p) 2 (high - p));
    pose proof (Z.div_pos (high - p) 2); lia.
Qed.

(** The linear scan of [InsertEvtQueue]:
    [while(pos < queue->size && queue->events[pos].time <= evt->time) pos++;] *)
Equations? scan_equal (evs : list MidiEvent) (sz t : Z) (p : Z) : Z
  by wf (Z.to_nat (sz - p)) lt :=
  scan_equal evs sz t p with Z_lt_dec p sz => {
    | left _ =>
        if time (at_index evs p) <=? t
        then scan_equal evs sz t (p + 1)
        else p
    | right _ => p }.
Proof. lia. Qed.

(** The first half of [InsertEvtQueue], lines 57-91: make room when the
    queue is full.  [None] is the [return AL_OUT_OF_MEMORY]. *)
Definition make_room (realloc_ok : bool) (h : gmap Z (list Z))
    (queue : EvtQueue) : option (gmap Z (list Z) * EvtQueue) :=
  if maxsize queue =? size queue then
    if 0 <? pos queue then
      (* Queue has some stale entries, remove them to make space for more
         events. *)
      let '(h', evs) :=
        free_payloads (Z.to_nat (pos queue)) 0 h (events queue) in
      let evs := memmove evs 0 (pos queue) (size queue - pos queue) in
      Some (h', {| events := evs; maxsize := maxsize queue;
                   size := size queue - pos queue; pos := 0 |})
    else
      (* Queue is full, double the allocated space. *)
      let newsize :=
        if maxsize queue =? 0 then 16
        else ALsizei_wrap (Z.shiftl (maxsize queue) 1) in
      let temp := if maxsize queue <? newsize then realloc_ok else false in
      if negb temp then None
      else
        Some (h, {| events := events queue
                      ++ replicate (Z.to_nat (newsize - maxsize queue)) inhabitant;
                    maxsize := newsize;
                    size := size queue; pos := pos queue |})
  else Some (h, queue).

(** The second half of [InsertEvtQueue], lines 93-116: find the place of
    the event in the live range, shift the entries after it, store it. *)
Definition place_event (queue : EvtQueue) (evt : MidiEvent) : EvtQueue :=
  let p := pos queue in
  let '(p, evs) :=
    if 0 <? size queue then
      let high := size queue - 1 in
      let p := bisect (events queue) (time evt) p high in
      let p := scan_equal (events queue) (size queue) (time evt) p in
      (p, if p <? size queue
          then memmove (events queue) (p + 1) p (size queue - p)
          else events queue)
    else (p, events queue) in
  {| events := <[Z.to_nat p := evt]> evs;
     maxsize := maxsize queue;
     size := size queue + 1;
     pos := pos queue |}.

Definition InsertEvtQueue (realloc_ok : bool) (h : gmap Z (list Z))
    (queue : EvtQueue) (evt : MidiEvent) : Z * (gmap Z (list Z) * EvtQueue) :=
  match make_room realloc_ok h queue with
  | None => (AL_OUT_OF_MEMORY, (h, queue))
  | Some (h', queue') => (AL_NO_ERROR, (h', place_event queue' evt))
  end.

(** The live range [events[pos..size)]. *)
Definition live (queue : EvtQueue) : list MidiEvent :=
  take (Z.to_nat (size queue - pos queue)) (drop (Z.to_nat (pos queue)) (events queue)).

(** ** The arithmetic of [ALdouble] and [ALfloat]

    The clock is written over an interface of floating-point arithmetic,
    with two instances: IEEE 754 binary64 and binary32, which the C code
    runs on, and exact rationals. *)
Class ALarith := {
  ALdouble : Type;
  ALfloat : Type;
  (** the literal [1.0f] *)
  float_one : ALfloat;
  (** conversion of an integer to [ALdouble]; [double_of_Z 0] is [0.0] *)
  double_of_Z : Z -> ALdouble;
  double_add : ALdouble -> ALdouble -> ALdouble;
  double_sub : ALdouble -> ALdouble -> ALdouble;
  double_mul : ALdouble -> ALdouble -> ALdouble;
  double_div : ALdouble -> ALdouble -> ALdouble;
  (** conversion to [ALuint64], which drops the fractional part; [None]
      where C leaves the conversion undefined: the integral part does not
      fit, or the value is not a number *)
  ALuint64_of_double : ALdouble -> option Z
}.

(** The integer [m * 2^e] rounded toward zero, for [m >= 0]. *)
Definition truncate_binary (m e : Z) : Z :=
  if 0 <=? e then m * 2 ^ e else m / 2 ^ (- e).

Definition ALuint64_of_binary64 (x : spec_float) : option Z :=
  match x with
  | S754_zero _ => Some 0
  | S754_finite s m e =>
      let z := truncate_binary (Zpos m) e in
      if s then (if z =? 0 then Some 0 else None)
      else if z <=? UINT64_MAX then Some z else None
  | S754_infinity _ => None
  | S754_nan => None
  end.

(** IEEE 754 arithmetic, round to nearest even: [ALdouble] is binary64,
    [ALfloat] is binary32. *)
Definition binary64 : ALarith := {|
  ALdouble := spec_float;
  ALfloat := spec_float;
  float_one := binary_normalize 24 128 1 0 false;
  double_of_Z := fun z => binary_normalize 53 1024 z 0 false;
  double_add := SFadd 53 1024;
  double_sub := SFsub 53 1024;
  double_mul := SFmul 53 1024;
  double_div := SFdiv 53 1024;
  ALuint64_of_double := ALuint64_of_binary64
|}.

(** The rational [q] rounded toward zero. *)
Definition Qtruncate (q : Q) : Z :=
  if Qle_bool 0 q then Qfloor q else Qceiling q.

Definition ALuint64_of_Q (q : Q) : option Z :=
  let z := Qtruncate q in
  if (0 <=? z) && (z <=? UINT64_MAX) then Some z else None.

(** Exact rational arithmetic. *)
Definition exact : ALarith := {|
  ALdouble := Q;
  ALfloat := Q;
  float_one := 1%Q;
  double_of_Z := inject_Z;
  double_add := Qplus;
  double_sub := Qminus;
  double_mul := Qmult;
  double_div := Qdiv;
  ALuint64_of_double := ALuint64_of_Q
|}.

(** ** The device and its soundfonts *)

(** Modelled from the spec: [ALCdevice], [ALCcontext] and the registry of
    soundfonts are declared in [alMain.h] and [alMidi.h], which are not
    among the sources.  A device has a sample rate, a registry that maps
    the ids of its soundfonts to their addresses, and a default
    soundfont. *)
Record ALCdevice := {
  Frequency : Z;
  SfontMap : gmap Z Z;
  DefaultSfont : Z
}.

Record ALCcontext := {
  Device : ALCdevice
}.

(** Modelled from the spec: [LookupSfont] looks an id up in the registry
    of the device and returns [NULL] when it is not found. *)
Definition LookupSfont (device : ALCdevice) (id : Z) : Z :=
  default NULL (SfontMap device !! id).

(** Modelled from the spec: id 0 resolves to the default soundfont. *)
Definition ALsoundfont_getDefSoundfont (context : ALCcontext) : Z :=
  DefaultSfont (Device context).

(** Modelled from the spec: the reference counts of the soundfont
    objects, by address; [IncrementRef] and [DecrementRef] add and
    subtract one. *)
Definition IncrementRef (refs : gmap Z Z) (sfont : Z) : gmap Z Z :=
  alter Z.succ sfont refs.

Definition DecrementRef (refs : gmap Z Z) (sfont : Z) : gmap Z Z :=
  alter Z.pred sfont refs.

(** [for(i = 0;i < count;i++) op(&sfonts[i]->ref);] from index [i] on,
    [n] times. *)
Fixpoint ref_loop (op : gmap Z Z -> Z -> gmap Z Z) (n : nat) (i : Z)
    (sfonts : list Z) (refs : gmap Z Z) : gmap Z Z :=
  match n with
  | O => refs
  | S n' => ref_loop op n' (i + 1) sfonts (op refs (sfonts !!! Z.to_nat i))
  end.

(** The resolution loop of [MidiSynth_selectSoundfonts], from index [i]
    on, [n] times; [None] is the [free(sfonts); return AL_INVALID_VALUE]. *)
Fixpoint resolve_sfonts (context : ALCcontext) (ids : list Z) (n : nat) (i : Z)
    (sfonts : list Z) : option (list Z) :=
  match n with
  | O => Some sfonts
  | S n' =>
      let device := Device context in
      if ids !!! Z.to_nat i =? 0 then
        resolve_sfonts context ids n' (i + 1)
          (<[Z.to_nat i := ALsoundfont_getDefSoundfont context]> sfonts)
      else
        let sfont := LookupSfont device (ids !!! Z.to_nat i) in
        if sfont =? NULL then None
        else resolve_sfonts context ids n' (i + 1) (<[Z.to_nat i := sfont]> sfonts)
  end.

(** Modelled from the spec: [clampu64] of [alu.h], which is not among the
    sources: [val] clamped into [[min, max]]. *)
Definition clampu64 (val min max : Z) : Z := Z.min max (Z.max min val).

(** ** The synth *)

Section synth.
Context {A : ALarith}.

(** Modelled from the spec: [MidiSynth] is declared in [midi/base.h],
    which is not among the sources; the fields are those that
    [midi/base.c] uses.  [Soundfonts] holds the array the pointer refers
    to, [None] for [NULL]. *)
Record MidiSynth := {
  EventQueue : EvtQueue;
  Soundfonts : option (list Z);
  NumSoundfonts : Z;
  Gain : ALfloat;
  State : Z;
  LastEvtTime : Z;
  NextEvtTime : Z;
  SamplesSinceLast : ALdouble;
  SamplesToNext : ALdouble;
  SamplesPerTick : ALdouble
}.

Definition MidiSynth_Construct (self : MidiSynth) (device : ALCdevice) : MidiSynth :=
  {| EventQueue := InitEvtQueue;
     Soundfonts := None;
     NumSoundfonts := 0;
     Gain := float_one;
     State := AL_INITIAL;
     LastEvtTime := 0;
     NextEvtTime := UINT64_MAX;
     SamplesSinceLast := double_of_Z 0;
     SamplesToNext := double_of_Z 0;
     SamplesPerTick :=
       double_div (double_of_Z (Frequency device)) (double_of_Z TICKS_PER_SECOND) |}.

Definition set_EventQueue (self : MidiSynth) (queue : EvtQueue) : MidiSynth :=
  {| EventQueue := queue;
     Soundfonts := Soundfonts self; NumSoundfonts := NumSoundfonts self;
     Gain := Gain self; State := State self;
     LastEvtTime := LastEvtTime self; NextEvtTime := NextEvtTime self;
     SamplesSinceLast := SamplesSinceLast self;
     SamplesToNext := SamplesToNext self;
     SamplesPerTick := SamplesPerTick self |}.

(** [ExchangePtr((XchgPtr* )&self->Soundfonts, sfonts)]: stores the new
    pointer and returns the old one. *)
Definition Exchange_Soundfonts (self : MidiSynth) (sfonts : option (list Z))
  : option (list Z) * MidiSynth :=
  (Soundfonts self,
   {| EventQueue := EventQueue self;
      Soundfonts := sfonts; NumSoundfonts := NumSoundfonts self;
      Gain := Gain self; State := State self;
      LastEvtTime := LastEvtTime self; NextEvtTime := NextEvtTime self;
      SamplesSinceLast := SamplesSinceLast self;
      SamplesToNext := SamplesToNext self;
      SamplesPerTick := SamplesPerTick self |}).

(** [ExchangeInt(&self->NumSoundfonts, count)]: stores the new count and
    returns the old one. *)
Definition Exchange_NumSoundfonts (self : MidiSynth) (count : Z) : Z * MidiSynth :=
  (NumSoundfonts self,
   {| EventQueue := EventQueue self;
      Soundfonts := Soundfonts self; NumSoundfonts := count;
      Gain := Gain self; State := State self;
      LastEvtTime := LastEvtTime self; NextEvtTime := NextEvtTime self;
      SamplesSinceLast := SamplesSinceLast self;
      SamplesToNext := SamplesToNext self;
      SamplesPerTick := SamplesPerTick self |}).

(** The array behind a pointer to soundfonts. *)
Definition sfont_array (sfonts : option (list Z)) : list Z := default [] sfonts.

(** The commit of [MidiSynth_selectSoundfonts], lines 177-184, as the
    sequence of its steps; each step is one atomic operation, and the
    states between the steps are the ones another thread can see. *)
Definition commit_step1 (refs : gmap Z Z) (count : Z) (sfonts : list Z) : gmap Z Z :=
  ref_loop IncrementRef (Z.to_nat count) 0 sfonts refs.

Definition commit_step2 (self : MidiSynth) (sfonts : list Z)
  : option (list Z) * MidiSynth :=
  Exchange_Soundfonts self (Some sfonts).

Definition commit_step3 (self : MidiSynth) (count : Z) : Z * MidiSynth :=
  Exchange_NumSoundfonts self count.

Definition commit_step4 (refs : gmap Z Z) (count : Z) (sfonts : option (list Z))
  : gmap Z Z :=
  ref_loop DecrementRef (Z.to_nat count) 0 (sfont_array sfonts) refs.

Definition MidiSynth_selectSoundfonts (calloc_ok : bool) (refs : gmap Z Z)
    (self : MidiSynth) (context : ALCcontext) (count : Z) (ids : list Z)
  : Z * (gmap Z Z * MidiSynth) :=
  if negb (State self =? AL_INITIAL) && negb (State self =? AL_STOPPED) then
    (AL_INVALID_OPERATION, (refs, self))
  else if negb calloc_ok then (AL_OUT_OF_MEMORY, (refs, self))
  else
    let sfonts := replicate (Z.to_nat count) NULL in
    match resolve_sfonts context ids (Z.to_nat count) 0 sfonts with
    | None => (AL_INVALID_VALUE, (refs, self))
    | Some sfonts =>
        let refs := commit_step1 refs count sfonts in
        let '(sfonts, self) := commit_step2 self sfonts in
        let '(count, self) := commit_step3 self count in
        let refs := commit_step4 refs count sfonts in
        (AL_NO_ERROR, (refs, self))
    end.

(** The states of the synth that another thread can see while a call of
    [MidiSynth_selectSoundfonts] runs: the state before the call and the
    state after each exchange. *)
Definition selectSoundfonts_visible (calloc_ok : bool) (self : MidiSynth)
    (context : ALCcontext) (count : Z) (ids : list Z) : list MidiSynth :=
  if negb (State self =? AL_INITIAL) && negb (State self =? AL_STOPPED) then [self]
  else if negb calloc_ok then [self]
  else
    let sfonts := replicate (Z.to_nat count) NULL in
    match resolve_sfonts context ids (Z.to_nat count) 0 sfonts with
    | None => [self]
    | Some sfonts =>
        let self1 := snd (commit_step2 self sfonts) in
        let self2 := snd (commit_step3 self1 count) in
        [self; self1; self2]
    end.

Definition MidiSynth_stop (h : gmap Z (list Z)) (self : MidiSynth)
  : gmap Z (list Z) * MidiSynth :=
  let '(h', queue) := ResetEvtQueue h (EventQueue self) in
  (h', {| EventQueue := queue;
          Soundfonts := Soundfonts self; NumSoundfonts := NumSoundfonts self;
          Gain := Gain self; State := State self;
          LastEvtTime := 0; NextEvtTime := UINT64_MAX;
          SamplesSinceLast := double_of_Z 0;
          SamplesToNext := double_of_Z 0;
          SamplesPerTick := SamplesPerTick self |}).

Definition MidiSynth_getTime (self : MidiSynth) : option Z :=
  match ALuint64_of_double
          (double_add (double_of_Z (LastEvtTime self))
             (double_div (SamplesSinceLast self) (SamplesPerTick self))) with
  | Some time => Some (clampu64 time (LastEvtTime self) (NextEvtTime self))
  | None => None
  end.

Definition MidiSynth_setSampleRate (self : MidiSynth) (srate : ALdouble) : MidiSynth :=
  let sampletickrate := double_div srate (double_of_Z TICKS_PER_SECOND) in
  {| EventQueue := EventQueue self;
     Soundfonts := Soundfonts self; NumSoundfonts := NumSoundfonts self;
     Gain := Gain self; State := State self;
     LastEvtTime := LastEvtTime self; NextEvtTime := NextEvtTime self;
     SamplesSinceLast :=
       double_div (double_mul (SamplesSinceLast self) sampletickrate)
         (SamplesPerTick self);
     SamplesToNext :=
       double_div (double_mul (SamplesToNext self) sampletickrate)
         (SamplesPerTick self);
     SamplesPerTick := sampletickrate |}.

(** The update of the clock that ends both insertion functions,
    lines 238-244 and 269-275. *)
Definition schedule (self : MidiSynth) (entry_time : Z) : MidiSynth :=
  if entry_time <? NextEvtTime self then
    let next := entry_time in
    {| EventQueue := EventQueue self;
       Soundfonts := Soundfonts self; NumSoundfonts := NumSoundfonts self;
       Gain := Gain self; State := State self;
       LastEvtTime := LastEvtTime self; NextEvtTime := next;
       SamplesSinceLast := SamplesSinceLast self;
       SamplesToNext :=
         double_sub
           (double_mul (double_of_Z (ALuint64_wrap (next - LastEvtTime self)))
              (SamplesPerTick self))
           (SamplesSinceLast self);
       SamplesPerTick := SamplesPerTick self |}
  else self.

Definition MidiSynth_insertEvent (realloc_ok : bool) (h : gmap Z (list Z))
    (self : MidiSynth) (time event param1 param2 : Z)
  : Z * (gmap Z (list Z) * MidiSynth) :=
  let entry := {| time := time; event := event; param := param_val param1 param2 |} in
  let '(err, (h, queue)) := InsertEvtQueue realloc_ok h (EventQueue self) entry in
  let self := set_EventQueue self queue in
  if negb (err =? AL_NO_ERROR) then (err, (h, self))
  else (AL_NO_ERROR, (h, schedule self time)).

(** [malloc_result] is what [malloc(size)] returns: [NULL], or the
    address of a new block.  [data] is the memory at the argument [data];
    [memcpy] copies its first [size] bytes. *)
Definition MidiSynth_insertSysExEvent (malloc_result : Z) (realloc_ok : bool)
    (h : gmap Z (list Z)) (self : MidiSynth) (time : Z) (data : list Z) (size : Z)
  : Z * (gmap Z (list Z) * MidiSynth) :=
  if malloc_result =? NULL then (AL_OUT_OF_MEMORY, (h, self))
  else
    let h := <[malloc_result := take (Z.to_nat size) data]> h in
    let entry := {| time := time; event := SYSEX_EVENT;
                    param := param_sysex malloc_result size |} in
    let '(err, (h, queue)) := InsertEvtQueue realloc_ok h (EventQueue self) entry in
    let self := set_EventQueue self queue in
    if negb (err =? AL_NO_ERROR) then (err, (free h malloc_result, self))
    else (AL_NO_ERROR, (h, schedule self time)).

(** What the insertion functions do to the clock of [self], for an event
    at time [t], giving [self']. *)
Definition clock_updated (self : MidiSynth) (t : Z) (self' : MidiSynth) : Prop :=
  (t < NextEvtTime self ->
     NextEvtTime self' = t /\
     SamplesToNext self' =
       double_sub
         (double_mul
            (double_of_Z (ALuint64_wrap (NextEvtTime self' - LastEvtTime self')))
            (SamplesPerTick self'))
         (SamplesSinceLast self') /\
     LastEvtTime self' = LastEvtTime self /\
     SamplesSinceLast self' = SamplesSinceLast self /\
     SamplesPerTick self' = SamplesPerTick self) /\
  (NextEvtTime self <= t ->
     LastEvtTime self' = LastEvtTime self /\
     NextEvtTime self' = NextEvtTime self /\
     SamplesSinceLast self' = SamplesSinceLast self /\
     SamplesToNext self' = SamplesToNext self /\
     SamplesPerTick self' = SamplesPerTick self).

(** The soundfont pointer and the count of a state agree. *)
Definition consistent_set (self : MidiSynth) : Prop :=
  Z.of_nat (length (sfont_array (Soundfonts self))) = NumSoundfonts self.

End synth.

(** ** Predicates of the specification *)

(** The cursor and the size are inside the allocated array. *)
Record wf_queue (queue : EvtQueue) : Prop := {
  wf_pos : 0 <= pos queue <= size queue;
  wf_size : size queue <= maxsize queue;
  wf_alloc : Z.of_nat (length (events queue)) = maxsize queue;
  wf_max : maxsize queue <= ALsizei_MAX
}.

Definition time_le (a b : MidiEvent) : Prop := time a <= time b.

(** Ascending by time: every entry is no later than all entries after it. *)
Definition sorted_by_time (l : list MidiEvent) : Prop := StronglySorted time_le l.

(** [after] is [before] with [evt] put in: right after the entries that
    are no later than [evt], and right before the entries that are
    strictly later. *)
Definition inserted_after_equals (evt : MidiEvent) (before after : list MidiEvent) : Prop :=
  exists l1 l2,
    before = l1 ++ l2 /\ after = l1 ++ evt :: l2 /\
    Forall (fun e => time e <= time evt) l1 /\
    Forall (fun e => time evt < time e) l2.

(** The index at which [place_event] stores the event. *)
Definition insertion_point (queue : EvtQueue) (evt : MidiEvent) : Z :=
  if 0 <? size queue then
    scan_equal (events queue) (size queue) (time evt)
      (bisect (events queue) (time evt) (pos queue) (size queue - 1))
  else pos queue.

(** The test [event == SYSEX_EVENT]. *)
Definition is_sysex (e : MidiEvent) : bool := event e =? SYSEX_EVENT.

(** The payload addresses held by the system-exclusive entries of [l]. *)
Definition payload_pointers (l : list MidiEvent) : list Z :=
  map (fun e => sysex_data (param e)) (filter (fun e => is_sysex e = true) l).

(** Modelled from the spec: the owner of the queue consumes matured
    events by advancing the cursor over the live range; that code is not
    among the sources. *)
Definition advance_cursor (queue : EvtQueue) (n : Z) : EvtQueue :=
  {| events := events queue; maxsize := maxsize queue;
     size := size queue; pos := pos queue + n |}.

(** The queues that insertions, consumption and resets produce from the
    empty queue. *)
Inductive reachable : EvtQueue -> Prop :=
| reach_init : reachable InitEvtQueue
| reach_insert realloc_ok h queue evt err h' queue' :
    reachable queue ->
    InsertEvtQueue realloc_ok h queue evt = (err, (h', queue')) ->
    reachable queue'
| reach_consume queue n :
    reachable queue -> 0 <= n <= size queue - pos queue ->
    reachable (advance_cursor queue n)
| reach_reset h queue :
    reachable queue -> reachable (snd (ResetEvtQueue h queue)).

(** The quantities that a change of the sample rate keeps: the event
    times and the two sample counts measured in ticks. *)
Definition same_ticks (s1 s2 : @MidiSynth exact) : Prop :=
  LastEvtTime s1 = LastEvtTime s2 /\
  NextEvtTime s1 = NextEvtTime s2 /\
  (SamplesSinceLast s1 / SamplesPerTick s1 == SamplesSinceLast s2 / SamplesPerTick s2)%Q /\
  (SamplesToNext s1 / SamplesPerTick s1 == SamplesToNext s2 / SamplesPerTick s2)%Q.

(** The value of a finite binary floating-point number. *)
Definition binary_value (x : spec_float) : option Q :=
  match x with
  | S754_zero _ => Some 0%Q
  | S754_finite s m e =>
      Some (Qred ((if s then - inject_Z (Zpos m) else inject_Z (Zpos m)) * (2 # 1) ^ e))
  | S754_infinity _ => None
  | S754_nan => None
  end.

(** ** Concrete queues, devices and synths *)

(** Insertions in a row, every allocation succeeding. *)
Definition insert_all (queue : EvtQueue) (l : list MidiEvent) : EvtQueue :=
  foldl (fun q e => snd (snd (InsertEvtQueue true ∅ q e))) queue l.

(** A control event at time [t]; [tag] tells apart events of equal time. *)
Definition note_at (t tag : Z) : MidiEvent :=
  {| time := t; event := 0x90; param := param_val tag 0 |}.

(** A full queue of 2^30 entries: its doubled capacity is 2^31, which
    wraps to -2^31. *)
Definition largest_queue : EvtQueue :=
  {| events := replicate (Z.to_nat (2 ^ 30)) inhabitant;
     maxsize := 2 ^ 30; size := 2 ^ 30; pos := 0 |}.

(** A device at 48000 Hz without soundfonts, and a synth constructed on
    it, in IEEE arithmetic. *)
Definition device_48k : ALCdevice :=
  {| Frequency := 48000; SfontMap := ∅; DefaultSfont := 1 |}.

Definition synth_48k : @MidiSynth binary64 :=
  MidiSynth_Construct
    (@Build_MidiSynth binary64 InitEvtQueue None 0 (S754_zero false) 0 0 0
       (S754_zero false) (S754_zero false) (S754_zero false))
    device_48k.

(** A synth whose last matured event was at tick 100 (the render path,
    which is not among the sources, sets [LastEvtTime]). *)
Definition synth_at_100 : @MidiSynth binary64 :=
  @Build_MidiSynth binary64 InitEvtQueue None 0 float_one AL_PLAYING
    100 UINT64_MAX (double_of_Z 0) (double_of_Z 0) (SamplesPerTick synth_48k).

(** The same synth after it received an event for tick 50. *)
Definition synth_late_event : @MidiSynth binary64 :=
  snd (snd (MidiSynth_insertEvent true ∅ synth_at_100 50 0x90 60 100)).

(** A clock in exact arithmetic, 12000.5 samples after an event at
    tick 7, at 48000 Hz. *)
Definition synth_exact : @MidiSynth exact :=
  @Build_MidiSynth exact InitEvtQueue None 0 1%Q AL_PLAYING 7 1000000
    (24001 # 2)%Q (71999 # 2)%Q (48000 # 1000000)%Q.

(** A clock in exact arithmetic at 48000 Hz whose last event was at
    tick 100, and the same synth after it received an event for
    tick 50. *)
Definition synth_exact_at_100 : @MidiSynth exact :=
  @Build_MidiSynth exact InitEvtQueue None 0 1%Q AL_PLAYING
    100 UINT64_MAX 0%Q 0%Q (48000 # 1000000)%Q.

Definition synth_exact_late_event : @MidiSynth exact :=
  snd (snd (MidiSynth_insertEvent true ∅ synth_exact_at_100 50 0x90 60 100)).

(** A device at 44100 Hz with three soundfonts, their reference counts,
    and a stopped synth that holds the first two. *)
Definition device_fonts : ALCdevice :=
  {| Frequency := 44100;
     SfontMap := <[1 := 0x1000]> (<[2 := 0x2000]> (<[3 := 0x3000]> ∅));
     DefaultSfont := 0x500 |}.

Definition context_fonts : ALCcontext := {| Device := device_fonts |}.

Definition refs_fonts : gmap Z Z :=
  <[0x500 := 1]> (<[0x1000 := 2]> (<[0x2000 := 2]> (<[0x3000 := 1]> ∅))).

Definition synth_fonts : @MidiSynth binary64 :=
  @Build_MidiSynth binary64 InitEvtQueue (Some [0x1000; 0x2000]) 2 float_one
    AL_STOPPED 0 UINT64_MAX (double_of_Z 0) (double_of_Z 0)
    (double_div (double_of_Z 44100) (double_of_Z TICKS_PER_SECOND)).

(** ** Further predicates: capacities and the ownership of payloads *)

(** The capacities that doubling from 16 reaches without overflow. *)
Definition capacity_ok (m : Z) : Prop :=
  m = 0 \/ exists k, 0 <= k <= 26 /\ m = 16 * 2 ^ k.

(** The entries [events[0..size)]: the stale ones and the live ones. *)
Definition stored (queue : EvtQueue) : list MidiEvent :=
  take (Z.to_nat (size queue)) (events queue).

(** The heap [h] holds exactly the payloads of the system-exclusive
    entries in [l], one block for each. *)
Definition owns_payloads (h : gmap Z (list Z)) (l : list MidiEvent) : Prop :=
  NoDup (payload_pointers l) /\
  forall a, is_Some (h !! a) <-> a ∈ payload_pointers l.

(** ** The synth, continued: destruction and the runs of a synth *)

Section synth_runs.
Context {A : ALarith}.

Definition MidiSynth_Destruct (refs : gmap Z Z) (h : gmap Z (list Z))
    (self : MidiSynth) : gmap Z Z * (gmap Z (list Z) * MidiSynth) :=
  let refs :=
    ref_loop DecrementRef (Z.to_nat (NumSoundfonts self)) 0
      (sfont_array (Soundfonts self)) refs in
  let '(h, queue) := ResetEvtQueue h (EventQueue self) in
  (refs, (h, {| EventQueue := queue;
                Soundfonts := None; NumSoundfonts := 0;
                Gain := Gain self; State := State self;
                LastEvtTime := LastEvtTime self; NextEvtTime := NextEvtTime self;
                SamplesSinceLast := SamplesSinceLast self;
                SamplesToNext := SamplesToNext self;
                SamplesPerTick := SamplesPerTick self |})).

(** The queue of the synth is well formed, its live range is sorted, and
    the heap holds exactly the payloads of its stored entries. *)
Definition synth_owns (h : gmap Z (list Z)) (self : MidiSynth) : Prop :=
  wf_queue (EventQueue self) /\
  sorted_by_time (live (EventQueue self)) /\
  owns_payloads h (stored (EventQueue self)).

(** The heaps and synths that the functions of [midi/base.c] produce from
    a constructed synth and an empty heap.  Control events come with an
    event code other than [SYSEX_EVENT]; [malloc] returns [NULL] or the
    address of a block that is not allocated.  Modelled from the spec:
    the render path, which is not among the sources, advances the cursor
    of the queue over matured events and updates the clock. *)
Inductive synth_run : gmap Z (list Z) -> MidiSynth -> Prop :=
| run_construct self device :
    synth_run ∅ (MidiSynth_Construct self device)
| run_insertEvent h self realloc_ok t event param1 param2 err h' self' :
    synth_run h self -> event <> SYSEX_EVENT ->
    MidiSynth_insertEvent realloc_ok h self t event param1 param2
      = (err, (h', self')) ->
    synth_run h' self'
| run_insertSysExEvent h self malloc_result realloc_ok t data len err h' self' :
    synth_run h self ->
    malloc_result = NULL \/ h !! malloc_result = None ->
    MidiSynth_insertSysExEvent malloc_result realloc_ok h self t data len
      = (err, (h', self')) ->
    synth_run h' self'
| run_render h self n self' :
    synth_run h self ->
    0 <= n <= size (EventQueue self) - pos (EventQueue self) ->
    EventQueue self' = advance_cursor (EventQueue self) n ->
    synth_run h self'
| run_setSampleRate h self srate :
    synth_run h self -> synth_run h (MidiSynth_setSampleRate self srate)
| run_selectSoundfonts h self calloc_ok refs context count ids :
    synth_run h self ->
    synth_run h
      (snd (snd (MidiSynth_selectSoundfonts calloc_ok refs self context count ids)))
| run_stop h self :
    synth_run h self ->
    synth_run (fst (MidiSynth_stop h self)) (snd (MidiSynth_stop h self)).

End synth_runs.

(** ** Further predicates: resolved soundfonts and reference counts *)

(** The soundfont an id resolves to: the default soundfont for 0, the
    registry entry otherwise ([NULL] when there is none). *)
Definition resolve_id (context : ALCcontext) (id : Z) : Z :=
  if id =? 0 then ALsoundfont_getDefSoundfont context
  else LookupSfont (Device context) id.

(** The id resolves: it is 0 or the registry of the device has it. *)
Definition resolvable (context : ALCcontext) (id : Z) : Prop :=
  id = 0 \/ LookupSfont (Device context) id <> NULL.

(** The number of slots of [sfonts] that hold the soundfont [p]. *)
Definition slots_of (p : Z) (sfonts : list Z) : Z :=
  Z.of_nat (length (filter (fun x => x = p) sfonts)).

(** A run with one system-exclusive event: the heap and the synth after
    [MidiSynth_insertSysExEvent] on a constructed synth, [malloc] having
    returned the address 4096. *)
Definition heap_sysex : gmap Z (list Z) :=
  fst (snd (MidiSynth_insertSysExEvent 4096 true ∅ synth_48k 10 [0x7E; 0x7F; 0x09] 3)).

Definition synth_sysex : @MidiSynth binary64 :=
  snd (snd (MidiSynth_insertSysExEvent 4096 true ∅ synth_48k 10 [0x7E; 0x7F; 0x09] 3)).

(** ** Further predicates: the clock *)

(** In exact arithmetic: the samples to the next event and the samples
    since the last one add up to the distance between the two events in
    samples. *)
Definition clock_identity (s : @MidiSynth exact) : Prop :=
  (SamplesToNext s + SamplesSinceLast s
   == inject_Z (NextEvtTime s - LastEvtTime s) * SamplesPerTick s)%Q.

(** The synth whose clock is that of a constructed or stopped synth. *)
Definition clock_at_rest {A : ALarith} (self : @MidiSynth A) : Prop :=
  LastEvtTime self = 0 /\ NextEvtTime self = UINT64_MAX /\
  SamplesSinceLast self = double_of_Z 0.

(** The result of [MidiSynth_getTime] in IEEE arithmetic on a clock at
    rest, by the value of [SamplesPerTick]: the quotient [0.0 /
    SamplesPerTick] is not a number when [SamplesPerTick] is zero or not a
    number, and zero otherwise. *)
Definition time_at_rest (spt : spec_float) : option Z :=
  match spt with
  | S754_zero _ => None
  | S754_nan => None
  | S754_infinity _ => Some 0
  | S754_finite _ _ _ => Some 0
  end.

(** ** The OpenSL backend: the buffer ring of [Alc/backends/opensl.c] *)

(** [ALuint] is an unsigned 32-bit integer. *)
Definition ALuint_wrap (z : Z) : Z := z mod 2 ^ 32.

(** [osl_data]: the handles of the OpenSL objects, the memory of the
    buffers (an address, [NULL] when there is none), the size of one
    buffer in bytes, the index of the current buffer and the size of a
    frame. *)
Record osl_data := {
  engineObject : Z;
  engine : Z;
  outputMix : Z;
  bufferQueueObject : Z;
  buffer : Z;
  bufferSize : Z;
  curBuffer : Z;
  frameSize : Z
}.

(** What [opensl_callback] hands to the mixer and to the buffer queue:
    the address [buf], the number of frames for [aluMixData] and the
    number of bytes for [Enqueue]. *)
Record osl_chunk := {
  buf : Z;
  frames : Z;
  bytes : Z
}.

(** [opensl_callback], for a device with [NumUpdates] buffers.  The calls
    of [aluMixData] and [Enqueue] are outside the sources; their
    arguments are the result. *)
Definition opensl_callback (NumUpdates : Z) (data : osl_data)
  : option osl_chunk * osl_data :=
  if negb (buffer data =? NULL) then
    let b := buffer data + ALuint_wrap (curBuffer data * bufferSize data) in
    (Some {| buf := b;
             frames := bufferSize data / frameSize data;
             bytes := bufferSize data |},
     {| engineObject := engineObject data; engine := engine data;
        outputMix := outputMix data;
        bufferQueueObject := bufferQueueObject data;
        buffer := buffer data; bufferSize := bufferSize data;
        curBuffer := Z.rem (ALuint_wrap (curBuffer data + 1)) NumUpdates;
        frameSize := frameSize data |})
  else (None, data).

(** The data after [n] callbacks. *)
Definition callbacks (NumUpdates : Z) (n : nat) (data : osl_data) : osl_data :=
  Nat.iter n (fun d => snd (opensl_callback NumUpdates d)) data.

(** The ring is in order: there is memory for [NumUpdates] buffers, the
    number of buffers and the size of the memory fit [ALuint], and the
    current index is one of the buffers. *)
Definition ring_ok (NumUpdates : Z) (data : osl_data) : Prop :=
  buffer data <> NULL /\ 0 < NumUpdates < 2 ^ 32 /\
  0 <= bufferSize data /\ NumUpdates * bufferSize data < 2 ^ 32 /\
  0 <= curBuffer data < NumUpdates.

(** ** The soundfont selection, operation by operation *)

Section selection_steps.
Context {A : ALarith}.

(** [for(i = 0;i < count;i++) op(&sfonts[i]->ref);] from index [i] on,
    [n] times: the counts at the end of the loop and, in the order of the
    iterations, the counts after each one. *)
Fixpoint ref_loop_steps (op : gmap Z Z -> Z -> gmap Z Z) (n : nat) (i : Z)
    (sfonts : list Z) (refs : gmap Z Z) : gmap Z Z * list (gmap Z Z) :=
  match n with
  | O => (refs, [])
  | S n' =>
      let refs := op refs (sfonts !!! Z.to_nat i) in
      let '(refs', log) := ref_loop_steps op n' (i + 1) sfonts refs in
      (refs', refs :: log)
  end.

(** [MidiSynth_selectSoundfonts] with every write to shared memory
    recorded: the result of the call and, in the order of the code, the
    reference counts and the synth after each [IncrementRef] (line 178),
    after [ExchangePtr] (line 179), after [ExchangeInt] (line 180) and
    after each [DecrementRef] (line 183).  The early returns write
    nothing. *)
Definition MidiSynth_selectSoundfonts_steps (calloc_ok : bool) (refs : gmap Z Z)
    (self : MidiSynth) (context : ALCcontext) (count : Z) (ids : list Z)
  : Z * (gmap Z Z * MidiSynth) * list (gmap Z Z * MidiSynth) :=
  if negb (State self =? AL_INITIAL) && negb (State self =? AL_STOPPED) then
    (AL_INVALID_OPERATION, (refs, self), [])
  else if negb calloc_ok then (AL_OUT_OF_MEMORY, (refs, self), [])
  else
    let sfonts := replicate (Z.to_nat count) NULL in
    match resolve_sfonts context ids (Z.to_nat count) 0 sfonts with
    | None => (AL_INVALID_VALUE, (refs, self), [])
    | Some sfonts =>
        let '(refs, log1) :=
          ref_loop_steps IncrementRef (Z.to_nat count) 0 sfonts refs in
        let log1 := map (fun r => (r, self)) log1 in
        let '(sfonts, self) := Exchange_Soundfonts self (Some sfonts) in
        let log2 := [(refs, self)] in
        let '(count, self) := Exchange_NumSoundfonts self count in
        let log3 := [(refs, self)] in
        let '(refs, log4) :=
          ref_loop_steps DecrementRef (Z.to_nat count) 0 (sfont_array sfonts) refs in
        let log4 := map (fun r => (r, self)) log4 in
        (AL_NO_ERROR, (refs, self), log1 ++ log2 ++ log3 ++ log4)
    end.

End selection_steps.

(** ** Facts about the array operations *)

Section array_facts.
Implicit Types evs P C D : list MidiEvent.

Lemma memmove_length evs dst src n :
  0 <= dst -> 0 <= src -> 0 <= n ->
  src + n <= Z.of_nat (length evs) -> dst + n <= Z.of_nat (length evs) ->
  length (memmove evs dst src n) = length evs.
Proof.
  intros. unfold memmove.
  rewrite !length_app, !length_take, !length_drop. lia.
Qed.

(** Shifting the entries from [p] on up by one slot and storing at [p]. *)
Lemma shift_store P C d D evt :
  let evs := P ++ C ++ d :: D in
  let p := Z.of_nat (length P) in
  let sz := p + Z.of_nat (length C) in
  <[Z.to_nat p := evt]>
    (if p <? sz then memmove evs (p + 1) p (sz - p) else evs)
  = P ++ evt :: C ++ D.
Proof.
  intros evs p sz. subst p sz evs.
  rewrite Nat2Z.id.
  destruct C as [|c C].
  - rewrite Z.add_0_r, Z.ltb_irrefl. simpl.
    rewrite (insert_app_r_alt P) by lia.
    rewrite Nat.sub_diag. reflexivity.
  - replace (_ <? _) with true by (symmetry; apply Z.ltb_lt; simpl length; lia).
    unfold memmove.
    replace (Z.to_nat (Z.of_nat (length P) + 1)) with (length P + 1)%nat by lia.
    replace (Z.to_nat (Z.of_nat (length P))) with (length P) by lia.
    replace (Z.to_nat (_ + _ - _)) with (length (c :: C)) by lia.
    replace (Z.to_nat (_ + 1 + _)) with (length P + S (length (c :: C)))%nat by lia.
    rewrite take_app_add, drop_app_length, take_app_length.
    rewrite drop_app_add.
    replace (S (length (c :: C))) with (length (c :: C) + 1)%nat by lia.
    rewrite drop_app_add. simpl take at 1. simpl drop.
    rewrite drop_0.
    rewrite <- app_assoc.
    rewrite (insert_app_r_alt P) by lia.
    rewrite Nat.sub_diag. reflexivity.
Qed.

(** Every array splits at two indices [p <= sz]. *)
Lemma split_at evs p sz :
  (p <= sz)%nat ->
  evs = take p evs ++ take (sz - p) (drop p evs) ++ drop sz evs.
Proof.
  intros. rewrite app_assoc, take_take_drop.
  replace (p + (sz - p))%nat with sz by lia.
  symmetry. apply take_drop.
Qed.
End array_facts.

(** ** The search for the insertion point *)

Section search.
Variable evs : list MidiEvent.
Variable t : Z.

(** The bisection stays inside its interval, and every entry it
    leaves behind is strictly earlier than [t], provided the entries
    between the first index [lo] and [high] are in order. *)
Lemma bisect_spec lo p high :
  (forall i j, lo <= i -> i <= j -> j <= high ->
     time (at_index evs i) <= time (at_index evs j)) ->
  lo <= p ->
  (forall i, lo <= i < p -> time (at_index evs i) < t) ->
  let r := bisect evs t p high in
  p <= r /\ r <= Z.max p high /\
  (forall i, lo <= i < r -> time (at_index evs i) < t).
Proof.
  funelim (bisect evs t p high); intros Hord Hlo Hlt; cbn zeta.
  - clear Heqcall.
    pose proof (Z.quot_div_nonneg (high - p) 2).
    pose proof (Z.div_lt_upper_bound (high - p) 2 (high - p)).
    pose proof (Z.div_pos (high - p) 2).
    set (mid := p + Z.quot (high - p) 2) in *.
    assert (p <= mid < high) by (subst mid; lia).
    destruct (Z.ltb_spec (time (at_index evs mid)) t) as [Hm|Hm].
    + destruct (H lo) as (? & ? & ?); try lia; auto.
      { intros i Hi. destruct (Z_lt_dec i p); [apply Hlt; lia|].
        specialize (Hord i mid). lia. }
      repeat split; try lia; auto.
    + destruct (H0 lo) as (? & ? & ?); try lia; auto.
      { intros i j ? ? ?. apply Hord; lia. }
      repeat split; try lia; auto.
  - repeat split; try lia; auto.
Qed.

(** The scan stops at the first entry later than [t], or at [sz]. *)
Lemma scan_equal_spec sz p :
  p <= sz ->
  let r := scan_equal evs sz t p in
  p <= r /\ r <= sz /\
  (forall i, p <= i < r -> time (at_index evs i) <= t) /\
  (r < sz -> t < time (at_index evs r)).
Proof.
  funelim (scan_equal evs sz t p); intros Hp; cbn zeta.
  - clear Heqcall.
    destruct (Z.leb_spec (time (at_index evs p)) t) as [Hm|Hm].
    + destruct H as (? & ? & Hle & ?); try lia.
      repeat split; try lia; auto.
      intros i Hi. destruct (Z.eq_dec i p) as [->|]; [lia|].
      apply Hle. lia.
    + repeat split; try lia.
  - repeat split; try lia.
Qed.
End search.

(** ** Well-formed queues and the order of the live range *)

Lemma sorted_by_time_lookup l i j x y :
  sorted_by_time l -> l !! i = Some x -> l !! j = Some y -> (i <= j)%nat ->
  time x <= time y.
Proof.
  intros Hs. revert i j x y.
  induction Hs as [|a l Hs IH Hall]; intros i j x y Hi Hj Hij.
  - rewrite lookup_nil in Hi. discriminate.
  - destruct i as [|i], j as [|j]; simpl in *; try lia.
    + injection Hi as <-. injection Hj as <-. lia.
    + injection Hi as <-. rewrite Forall_forall in Hall.
      apply Hall. eapply list_elem_of_lookup_2; eauto.
    + eapply IH; eauto. lia.
Qed.

Lemma inserted_after_equals_sorted evt before after :
  sorted_by_time before -> inserted_after_equals evt before after ->
  sorted_by_time after.
Proof.
  intros Hs (l1 & l2 & -> & -> & H1 & H2).
  unfold sorted_by_time in *.
  apply StronglySorted_app in Hs as (H12 & Hs1 & Hs2).
  apply StronglySorted_app_2; auto.
  - intros x1 x2 Hx1 Hx2. unfold time_le.
    rewrite Forall_forall in H1, H2.
    apply elem_of_cons in Hx2 as [->|Hx2].
    + by apply H1.
    + specialize (H1 _ Hx1). specialize (H2 _ Hx2). simpl in *. lia.
  - apply StronglySorted_cons. split; auto.
    eapply Forall_impl; [exact H2|]. unfold time_le. simpl. intros; lia.
Qed.

Lemma live_lookup queue i :
  wf_queue queue -> pos queue <= i < size queue ->
  live queue !! Z.to_nat (i - pos queue) = Some (at_index (events queue) i).
Proof.
  intros [] Hi. unfold live, at_index.
  rewrite lookup_take_lt by lia. rewrite lookup_drop.
  replace (Z.to_nat (pos queue) + Z.to_nat (i - pos queue))%nat with (Z.to_nat i) by lia.
  apply list_lookup_lookup_total_lt. lia.
Qed.

Lemma place_event_unfold queue evt :
  0 <= pos queue ->
  place_event queue evt =
  let p := insertion_point queue evt in
  {| events := <[Z.to_nat p := evt]>
                 (if p <? size queue
                  then memmove (events queue) (p + 1) p (size queue - p)
                  else events queue);
     maxsize := maxsize queue;
     size := size queue + 1;
     pos := pos queue |}.
Proof.
  intros Hpos. unfold place_event, insertion_point.
  destruct (Z.ltb_spec 0 (size queue)); [reflexivity|].
  cbn zeta. destruct (Z.ltb_spec (pos queue) (size queue)); [lia|reflexivity].
Qed.

Lemma insertion_point_spec queue evt :
  wf_queue queue -> sorted_by_time (live queue) ->
  let p := insertion_point queue evt in
  pos queue <= p <= size queue /\
  (forall i, pos queue <= i < p -> time (at_index (events queue) i) <= time evt) /\
  (forall i, p <= i < size queue -> time evt < time (at_index (events queue) i)).
Proof.
  intros Hwf Hs. pose proof Hwf as [Hpos Hsz Hal Hmx].
  assert (Hord : forall i j, pos queue <= i -> i <= j -> j < size queue ->
            time (at_index (events queue) i) <= time (at_index (events queue) j)).
  { intros i j ? ? ?.
    eapply (sorted_by_time_lookup _ (Z.to_nat (i - pos queue)) (Z.to_nat (j - pos queue)));
      [exact Hs| apply live_lookup; auto; lia | apply live_lookup; auto; lia | lia]. }
  unfold insertion_point. destruct (Z.ltb_spec 0 (size queue)) as [Hpos0|Hz]; cbn zeta.
  - pose proof (bisect_spec (events queue) (time evt) (pos queue) (pos queue) (size queue - 1))
      as Hb. cbn zeta in Hb.
    destruct Hb as (Hb1 & Hb2 & Hb3).
    { intros; apply Hord; lia. }
    { lia. }
    { intros; lia. }
    set (b := bisect _ _ _ _) in *.
    pose proof (scan_equal_spec (events queue) (time evt) (size queue) b) as Hc.
    cbn zeta in Hc. destruct Hc as (Hc1 & Hc2 & Hc3 & Hc4); [lia|].
    set (r := scan_equal _ _ _ _) in *.
    split; [lia|]. split.
    + intros i Hi. destruct (Z_lt_dec i b).
      * specialize (Hb3 i). lia.
      * apply Hc3. lia.
    + intros i Hi. specialize (Hord r i). lia.
  - split; [lia|]. split; intros; lia.
Qed.

(** Storing an event in a queue with a free slot: the event lands in the
    live range after the entries that are no later than it. *)
Lemma place_event_live queue evt :
  wf_queue queue -> size queue < maxsize queue ->
  sorted_by_time (live queue) ->
  inserted_after_equals evt (live queue) (live (place_event queue evt)) /\
  wf_queue (place_event queue evt).
Proof.
  intros Hwf Hfree Hs. pose proof Hwf as [Hpos Hsz Hal Hmx].
  destruct (insertion_point_spec queue evt Hwf Hs) as (Hp & Hle & Hgt).
  rewrite place_event_unfold by lia. cbn zeta.
  set (p := insertion_point queue evt) in *.
  set (evs := events queue) in *.
  set (P := take (Z.to_nat p) evs).
  set (C := take (Z.to_nat (size queue - p)) (drop (Z.to_nat p) evs)).
  assert (HP : length P = Z.to_nat p) by (subst P; rewrite length_take; lia).
  assert (HC : length C = Z.to_nat (size queue - p))
    by (subst C; rewrite length_take, length_drop; lia).
  destruct (drop (Z.to_nat (size queue)) evs) as [|d D] eqn:HD.
  { apply (f_equal length) in HD. rewrite length_drop in HD. simpl in HD. lia. }
  assert (Hevs : evs = P ++ C ++ d :: D).
  { rewrite <- HD. subst P C.
    replace (Z.to_nat (size queue - p)) with (Z.to_nat (size queue) - Z.to_nat p)%nat by lia.
    apply split_at. lia. }
  pose proof (shift_store P C d D evt) as Hst. cbn zeta in Hst.
  rewrite <- Hevs in Hst.
  replace (Z.of_nat (length P)) with p in Hst by lia.
  replace (p + Z.of_nat (length C)) with (size queue) in Hst by lia.
  rewrite Hst.
  assert (Hlive : live queue = drop (Z.to_nat (pos queue)) P ++ C).
  { unfold live. fold evs. rewrite Hevs at 1.
    rewrite drop_app_le by lia.
    rewrite take_app_ge by (rewrite length_drop; lia).
    f_equal. rewrite length_drop.
    rewrite take_app_length'; [reflexivity|lia]. }
  split.
  - exists (drop (Z.to_nat (pos queue)) P), C. split; [exact Hlive|]. split.
    + unfold live. cbn [events size pos].
      rewrite drop_app_le by lia.
      rewrite take_app_ge by (rewrite length_drop; lia).
      f_equal. rewrite length_drop.
      replace (Z.to_nat (size queue + 1 - pos queue) - (length P - Z.to_nat (pos queue)))%nat
        with (S (length C)) by lia.
      simpl. f_equal. apply take_app_length.
    + split; apply Forall_lookup; intros k x Hk.
      * subst P. rewrite lookup_drop, lookup_take_Some in Hk. destruct Hk as [Hk Hlt].
        specialize (Hle (Z.of_nat (Z.to_nat (pos queue) + k))).
        unfold at_index in Hle. rewrite Nat2Z.id in Hle.
        apply list_lookup_total_correct in Hk. rewrite Hk in Hle. apply Hle. lia.
      * subst C. rewrite lookup_take_Some, lookup_drop in Hk. destruct Hk as [Hk Hlt].
        specialize (Hgt (Z.of_nat (Z.to_nat p + k))).
        unfold at_index in Hgt. rewrite Nat2Z.id in Hgt.
        apply list_lookup_total_correct in Hk. rewrite Hk in Hgt. apply Hgt. lia.
  - split; cbn [events size pos maxsize]; try lia.
    rewrite length_app, length_cons, length_app.
    fold evs in Hal. rewrite Hevs, !length_app, length_cons in Hal. lia.
Qed.

(** ** Releasing payloads *)

Lemma payload_pointers_cons e l :
  payload_pointers (e :: l) =
  if is_sysex e then sysex_data (param e) :: payload_pointers l
  else payload_pointers l.
Proof.
  unfold payload_pointers. rewrite filter_cons.
  case_decide as Hs.
  - rewrite Hs. reflexivity.
  - apply not_true_is_false in Hs. rewrite Hs. reflexivity.
Qed.

Lemma free_payloads_length n i h evs :
  length (snd (free_payloads n i h evs)) = length evs.
Proof.
  revert i h evs. induction n as [|n IH]; intros i h evs; simpl; [reflexivity|].
  destruct (_ =? _); rewrite IH; [apply length_insert | reflexivity].
Qed.

(** The loop leaves the slots after the ones it visits as they were. *)
Lemma free_payloads_drop n i h evs :
  0 <= i ->
  drop (Z.to_nat i + n) (snd (free_payloads n i h evs)) = drop (Z.to_nat i + n) evs.
Proof.
  revert i h evs. induction n as [|n IH]; intros i h evs Hi; simpl; [reflexivity|].
  replace (Z.to_nat i + S n)%nat with (Z.to_nat (i + 1) + n)%nat by lia.
  destruct (_ =? _); rewrite IH by lia; [|reflexivity].
  apply drop_insert_lt. lia.
Qed.

(** The loop frees exactly the payloads of the system-exclusive entries
    it visits. *)
Lemma free_payloads_heap n i h evs :
  0 <= i -> (Z.to_nat i + n <= length evs)%nat ->
  fst (free_payloads n i h evs) =
  foldl free h (payload_pointers (take n (drop (Z.to_nat i) evs))).
Proof.
  revert i h evs. induction n as [|n IH]; intros i h evs Hi Hlen; simpl.
  { reflexivity. }
  destruct (drop (Z.to_nat i) evs) as [|e rest] eqn:Hd.
  { apply (f_equal length) in Hd. rewrite length_drop in Hd. simpl in Hd. lia. }
  assert (He : at_index evs i = e).
  { unfold at_index. apply list_lookup_total_correct.
    rewrite <- (Nat.add_0_r (Z.to_nat i)), <- lookup_drop, Hd. reflexivity. }
  assert (Hrest : drop (Z.to_nat (i + 1)) evs = rest).
  { replace (Z.to_nat (i + 1)) with (Z.to_nat i + 1)%nat by lia.
    rewrite <- drop_drop, Hd. reflexivity. }
  rewrite He. simpl take. rewrite payload_pointers_cons. unfold is_sysex.
  destruct (event e =? SYSEX_EVENT).
  - rewrite IH by (rewrite ?length_insert; lia).
    rewrite drop_insert_lt by lia. rewrite Hrest. reflexivity.
  - rewrite IH by lia. rewrite Hrest. reflexivity.
Qed.

(** ** Making room *)

Lemma ALsizei_wrap_range z : - 2 ^ 31 <= ALsizei_wrap z <= ALsizei_MAX.
Proof.
  unfold ALsizei_wrap, ALsizei_MAX.
  pose proof (Z.mod_pos_bound (z + 2 ^ 31) (2 ^ 32)). lia.
Qed.

(** The doubled capacity, when it is accepted, is twice the old one. *)
Lemma doubled_capacity m :
  0 < m -> m < ALsizei_wrap (Z.shiftl m 1) -> ALsizei_wrap (Z.shiftl m 1) = 2 * m.
Proof.
  rewrite Z.shiftl_mul_pow2 by lia. unfold ALsizei_wrap. intros Hm Hlt.
  change (2 ^ 1) with 2 in *.
  assert (m * 2 + 2 ^ 31 < 2 ^ 32 \/ 2 ^ 32 <= m * 2 + 2 ^ 31) as [Hs|Hb] by lia.
  - rewrite Z.mod_small by lia. lia.
  - exfalso.
    pose proof (Z.mod_pos_bound (m * 2 + 2 ^ 31) (2 ^ 32)).
    pose proof (Z.div_mod (m * 2 + 2 ^ 31) (2 ^ 32)).
    assert (1 <= (m * 2 + 2 ^ 31) / 2 ^ 32) by (apply Z.div_le_lower_bound; lia).
    nia.
Qed.

(** The three outcomes of [make_room]. *)
Lemma make_room_cases realloc_ok h queue :
  let newsize := if maxsize queue =? 0 then 16
                 else ALsizei_wrap (Z.shiftl (maxsize queue) 1) in
  make_room realloc_ok h queue =
  if maxsize queue =? size queue then
    if 0 <? pos queue then
      Some (fst (free_payloads (Z.to_nat (pos queue)) 0 h (events queue)),
            {| events := memmove (snd (free_payloads (Z.to_nat (pos queue)) 0 h
                                         (events queue)))
                           0 (pos queue) (size queue - pos queue);
               maxsize := maxsize queue;
               size := size queue - pos queue; pos := 0 |})
    else if (maxsize queue <? newsize) && realloc_ok then
      Some (h, {| events := events queue
                    ++ replicate (Z.to_nat (newsize - maxsize queue)) inhabitant;
                  maxsize := newsize; size := size queue; pos := pos queue |})
    else None
  else Some (h, queue).
Proof.
  unfold make_room. cbn zeta.
  destruct (_ =? size queue); [|reflexivity].
  destruct (0 <? pos queue).
  - destruct (free_payloads _ _ _ _); reflexivity.
  - destruct (maxsize queue <? _), realloc_ok; reflexivity.
Qed.

Lemma make_room_spec realloc_ok h queue h' queue' :
  wf_queue queue ->
  make_room realloc_ok h queue = Some (h', queue') ->
  wf_queue queue' /\ size queue' < maxsize queue' /\ live queue' = live queue.
Proof.
  intros Hwf. pose proof Hwf as [Hpos Hsz Hal Hmx].
  rewrite make_room_cases. cbn zeta.
  destruct (Z.eqb_spec (maxsize queue) (size queue)) as [Hfull|Hnf].
  - destruct (Z.ltb_spec 0 (pos queue)) as [Hstale|Hnone].
    + intros [= <- <-].
      pose proof (free_payloads_length (Z.to_nat (pos queue)) 0 h (events queue)) as Hlen.
      pose proof (free_payloads_drop (Z.to_nat (pos queue)) 0 h (events queue)) as Hdrop.
      set (evs := snd (free_payloads _ _ _ _)) in *.
      simpl in Hdrop. specialize (Hdrop ltac:(lia)).
      split; [|split].
      * split; cbn [events size pos maxsize]; try lia.
        rewrite memmove_length; lia.
      * cbn [size maxsize]. lia.
      * unfold live, memmove. cbn [events size pos].
        rewrite Hdrop. change (Z.to_nat 0) with 0%nat. rewrite Z.sub_0_r.
        rewrite take_0, drop_0, app_nil_l.
        rewrite take_app_length'; [reflexivity|].
        rewrite length_take, length_drop. lia.
    + destruct (Z.ltb_spec (maxsize queue) (if maxsize queue =? 0 then 16
                  else ALsizei_wrap (Z.shiftl (maxsize queue) 1))) as [Hgrow|];
        [|discriminate].
      destruct realloc_ok; [|discriminate]. simpl.
      intros [= <- <-].
      set (newsize := if _ =? _ then _ else _) in *.
      assert (newsize <= ALsizei_MAX).
      { subst newsize. destruct (_ =? 0); [unfold ALsizei_MAX; lia|].
        apply ALsizei_wrap_range. }
      split; [|split].
      * split; cbn [events size pos maxsize]; try lia.
        rewrite length_app, length_replicate. lia.
      * cbn [size maxsize]. lia.
      * unfold live. cbn [events size pos].
        rewrite drop_app_le by lia. rewrite take_app_le; [reflexivity|].
        rewrite length_drop. lia.
  - intros [= <- <-]. split; [assumption|]. split; [lia|reflexivity].
Qed.

(** ** [InsertEvtQueue] as a whole *)

(** A failed insertion is an out-of-memory report that changed nothing. *)
Lemma InsertEvtQueue_failure realloc_ok h queue evt err h' queue' :
  InsertEvtQueue realloc_ok h queue evt = (err, (h', queue')) ->
  err <> AL_NO_ERROR ->
  err = AL_OUT_OF_MEMORY /\ h' = h /\ queue' = queue.
Proof.
  unfold InsertEvtQueue. destruct (make_room _ _ _) as [[h1 q1]|].
  - intros [= <- <- <-] Hne. congruence.
  - intros [= <- <- <-] _. auto.
Qed.

Lemma InsertEvtQueue_success realloc_ok h queue evt h' queue' :
  wf_queue queue -> sorted_by_time (live queue) ->
  InsertEvtQueue realloc_ok h queue evt = (AL_NO_ERROR, (h', queue')) ->
  wf_queue queue' /\ inserted_after_equals evt (live queue) (live queue').
Proof.
  intros Hwf Hs. unfold InsertEvtQueue.
  destruct (make_room _ _ _) as [[h1 q1]|] eqn:Hroom; [|discriminate].
  intros [= <- <-].
  destruct (make_room_spec _ _ _ _ _ Hwf Hroom) as (Hwf1 & Hfree & Hlive).
  rewrite <- Hlive in Hs |- *.
  destruct (place_event_live q1 evt Hwf1 Hfree Hs). auto.
Qed.

(** ** The states of a queue *)

Lemma wf_InitEvtQueue : wf_queue InitEvtQueue.
Proof. split; simpl; unfold ALsizei_MAX; lia. Qed.

Lemma live_advance_cursor queue n :
  0 <= pos queue -> 0 <= n <= size queue - pos queue ->
  live (advance_cursor queue n) = drop (Z.to_nat n) (live queue).
Proof.
  intros. unfold live, advance_cursor. cbn [events size pos].
  replace (Z.to_nat (pos queue + n)) with (Z.to_nat (pos queue) + Z.to_nat n)%nat by lia.
  rewrite <- drop_drop, take_drop_commute. f_equal. f_equal. lia.
Qed.

Lemma sorted_by_time_drop n l : sorted_by_time l -> sorted_by_time (drop n l).
Proof.
  intros Hs. rewrite <- (take_drop n l) in Hs.
  eapply StronglySorted_app_1_r; eauto.
Qed.

Lemma reachable_invariant queue :
  reachable queue -> wf_queue queue /\ sorted_by_time (live queue).
Proof.
  induction 1 as [|ok h queue evt err h' queue' _ [Hwf Hs] Hins
                  |queue n _ [Hwf Hs] Hn|h queue _ [Hwf Hs]].
  - split; [apply wf_InitEvtQueue | constructor].
  - destruct (Z.eq_dec err AL_NO_ERROR) as [->|Hne].
    + destruct (InsertEvtQueue_success _ _ _ _ _ _ Hwf Hs Hins) as [Hwf' Hins'].
      split; [assumption|]. eapply inserted_after_equals_sorted; eauto.
    + destruct (InsertEvtQueue_failure _ _ _ _ _ _ _ Hins Hne) as (_ & _ & ->). auto.
  - pose proof Hwf as [Hpos Hsz Hal Hmx]. split.
    + split; cbn [advance_cursor events size pos maxsize]; lia.
    + rewrite live_advance_cursor by lia. by apply sorted_by_time_drop.
  - unfold ResetEvtQueue. destruct (free_payloads _ _ _ _). simpl.
    split; [apply wf_InitEvtQueue | constructor].
Qed.

(** ** The order of the live range *)

(** C1.  After any sequence of insertions (with consumption and resets
    in between), the live range [events[pos..size)] is sorted ascending
    by time; and a further successful [InsertEvtQueue] places its event
    in the live range after all entries whose time is less than or equal
    to its own and before all later ones, which keeps the live range
    sorted and keeps events of equal time in the order of insertion. *)
Theorem InsertEvtQueue_sorted_stable queue :
  reachable queue ->
  sorted_by_time (live queue) /\
  forall realloc_ok h evt h' queue',
    InsertEvtQueue realloc_ok h queue evt = (AL_NO_ERROR, (h', queue')) ->
    sorted_by_time (live queue') /\
    inserted_after_equals evt (live queue) (live queue').
Proof.
  intros Hreach. destruct (reachable_invariant _ Hreach) as [Hwf Hs].
  split; [assumption|]. intros ok h evt h' queue' Hins.
  destruct (InsertEvtQueue_success _ _ _ _ _ _ Hwf Hs Hins) as [_ Hafter].
  split; [|assumption]. eapply inserted_after_equals_sorted; eauto.
Qed.

Lemma reachable_insert_all l queue :
  reachable queue -> reachable (insert_all queue l).
Proof.
  revert queue. induction l as [|e l IH]; intros queue Hq; simpl; [assumption|].
  apply IH.
  destruct (InsertEvtQueue true ∅ queue e) as [err [h' q']] eqn:Hins.
  eapply reach_insert; eauto.
Qed.

(** The scenario of the specification: events inserted at ticks 100, 50,
    50, 200 read back as 50 (first), 50 (second), 100, 200. *)
Example insert_100_50_50_200 :
  live (insert_all InitEvtQueue
          [note_at 100 1; note_at 50 2; note_at 50 3; note_at 200 4])
  = [note_at 50 2; note_at 50 3; note_at 100 1; note_at 200 4].
Proof. vm_compute. reflexivity. Qed.

Lemma InsertEvtQueue_sorted_stable_witness :
  let queue := insert_all InitEvtQueue [note_at 100 1; note_at 50 2; note_at 50 3] in
  sorted_by_time (live queue) /\
  forall realloc_ok h evt h' queue',
    InsertEvtQueue realloc_ok h queue evt = (AL_NO_ERROR, (h', queue')) ->
    sorted_by_time (live queue') /\
    inserted_after_equals evt (live queue) (live queue').
Proof.
  intros queue. apply (InsertEvtQueue_sorted_stable queue).
  apply reachable_insert_all, reach_init.
Defined.

(** ** Insertion into a full queue *)

(** Making room in a full queue that has stale entries. *)
Lemma make_room_stale realloc_ok h queue :
  wf_queue queue -> size queue = maxsize queue -> 0 < pos queue ->
  exists queue1,
    make_room realloc_ok h queue =
      Some (foldl free h
              (payload_pointers (take (Z.to_nat (pos queue)) (events queue))),
            queue1) /\
    pos queue1 = 0 /\ size queue1 = size queue - pos queue /\
    maxsize queue1 = maxsize queue.
Proof.
  intros [Hpos Hsz Hal Hmx] Hfull Hp.
  rewrite make_room_cases. cbn zeta.
  replace (maxsize queue =? size queue) with true by (symmetry; apply Z.eqb_eq; lia).
  replace (0 <? pos queue) with true by (symmetry; apply Z.ltb_lt; lia).
  eexists. split.
  - rewrite free_payloads_heap by (simpl; lia). reflexivity.
  - auto.
Qed.

(** C2.  An insertion into a full queue ([size == maxsize]).  With stale
    entries ([pos > 0]) it succeeds without growing: the payloads of the
    system-exclusive entries in [[0, pos)] are freed, the cursor is 0,
    the live range, now at the start of the array, is the old one with
    the event inserted, and the capacity and the array length are
    unchanged.  The capacity changes only when [pos == 0], to 16 from 0
    and to its double otherwise.  With capacity 16, 16 entries and the
    cursor at 8, the result has [size == 9], [pos == 0], capacity 16. *)
Theorem InsertEvtQueue_full realloc_ok h queue evt err h' queue' :
  wf_queue queue -> sorted_by_time (live queue) ->
  size queue = maxsize queue ->
  InsertEvtQueue realloc_ok h queue evt = (err, (h', queue')) ->
  (0 < pos queue ->
     err = AL_NO_ERROR /\
     h' = foldl free h
            (payload_pointers (take (Z.to_nat (pos queue)) (events queue))) /\
     pos queue' = 0 /\
     size queue' = size queue - pos queue + 1 /\
     inserted_after_equals evt (live queue) (live queue') /\
     maxsize queue' = maxsize queue /\
     length (events queue') = length (events queue)) /\
  (maxsize queue' <> maxsize queue ->
     pos queue = 0 /\ err = AL_NO_ERROR /\
     maxsize queue' = if maxsize queue =? 0 then 16 else 2 * maxsize queue) /\
  (maxsize queue = 16 -> pos queue = 8 ->
     err = AL_NO_ERROR /\ size queue' = 9 /\ pos queue' = 0 /\
     maxsize queue' = 16).
Proof.
  intros Hwf Hs Hfull Hins. pose proof Hwf as [Hpos Hsz Hal Hmx].
  assert (Hstale : 0 < pos queue ->
     err = AL_NO_ERROR /\
     h' = foldl free h
            (payload_pointers (take (Z.to_nat (pos queue)) (events queue))) /\
     pos queue' = 0 /\
     size queue' = size queue - pos queue + 1 /\
     inserted_after_equals evt (live queue) (live queue') /\
     maxsize queue' = maxsize queue /\
     length (events queue') = length (events queue)).
  { intros Hp. revert Hins. unfold InsertEvtQueue.
    destruct (make_room_stale realloc_ok h queue Hwf Hfull Hp)
      as (q1 & Hroom & Hp1 & Hs1 & Hm1).
    rewrite Hroom. intros [= <- <- <-].
    destruct (make_room_spec _ _ _ _ _ Hwf Hroom) as (Hwf1 & Hfree & Hlive).
    rewrite <- Hlive in Hs |- *.
    destruct (place_event_live q1 evt Hwf1 Hfree Hs) as [Hafter Hwf'].
    pose proof Hwf' as [_ _ Hal' _]. pose proof Hwf1 as [_ _ Hal1 _].
    rewrite place_event_unfold in Hal', Hafter |- * by lia.
    cbn zeta in *. cbn [events size pos maxsize] in *.
    repeat split; try lia; auto. }
  split; [exact Hstale|]. split.
  - intros Hne.
    destruct (Z_lt_dec 0 (pos queue)) as [Hp|Hp].
    { destruct (Hstale Hp) as (_ & _ & _ & _ & _ & Hm & _). contradiction. }
    split; [lia|]. revert Hins Hne. unfold InsertEvtQueue.
    rewrite make_room_cases. cbn zeta.
    replace (maxsize queue =? size queue) with true by (symmetry; apply Z.eqb_eq; lia).
    replace (0 <? pos queue) with false by (symmetry; apply Z.ltb_ge; lia).
    destruct (Z.ltb_spec (maxsize queue) (if maxsize queue =? 0 then 16
                else ALsizei_wrap (Z.shiftl (maxsize queue) 1))) as [Hgrow|Hno];
      [destruct realloc_ok|]; simpl.
    + intros [= <- <- <-] Hne. split; [reflexivity|].
      rewrite place_event_unfold by (cbn [pos]; lia). cbn zeta. cbn [maxsize].
      destruct (Z.eqb_spec (maxsize queue) 0); [reflexivity|].
      apply doubled_capacity; lia.
    + intros [= <- <- <-] Hne. contradiction.
    + intros [= <- <- <-] Hne. contradiction.
  - intros H16 H8. destruct Hstale as (-> & _ & Hp' & Hs' & _ & Hm' & _); [lia|].
    repeat split; lia.
Qed.

Lemma InsertEvtQueue_full_witness :
  let queue :=
    advance_cursor
      (insert_all InitEvtQueue (map (fun t => note_at t 0) (seqZ 1 16))) 8 in
  let '(err, (h', queue')) := InsertEvtQueue false ∅ queue (note_at 12 1) in
  err = AL_NO_ERROR /\ size queue' = 9 /\ pos queue' = 0 /\ maxsize queue' = 16.
Proof.
  intros queue.
  destruct (InsertEvtQueue false ∅ queue (note_at 12 1)) as [err [h' queue']] eqn:Hins.
  assert (Hreach : reachable queue).
  { apply reach_consume; [apply reachable_insert_all, reach_init|].
    vm_compute. split; discriminate. }
  destruct (reachable_invariant _ Hreach) as [Hwf Hs].
  apply (InsertEvtQueue_full false ∅ queue (note_at 12 1) err h' queue' Hwf Hs);
    [reflexivity | exact Hins | reflexivity | reflexivity].
Defined.

(** ** Overflow of the capacity *)

(** C10.  When the queue must grow ([size == maxsize], no stale entry)
    and the doubled capacity, computed in [ALsizei], is not greater than
    the old capacity, the insertion returns [AL_OUT_OF_MEMORY] and leaves
    the heap and the queue as they were, whatever a reallocation would
    have answered: none is attempted. *)
Theorem InsertEvtQueue_capacity_overflow realloc_ok h queue evt :
  size queue = maxsize queue -> pos queue <= 0 ->
  maxsize queue <> 0 ->
  ALsizei_wrap (Z.shiftl (maxsize queue) 1) <= maxsize queue ->
  InsertEvtQueue realloc_ok h queue evt = (AL_OUT_OF_MEMORY, (h, queue)).
Proof.
  intros Hfull Hpos Hnz Hov. unfold InsertEvtQueue.
  rewrite make_room_cases. cbn zeta.
  replace (maxsize queue =? size queue) with true by (symmetry; apply Z.eqb_eq; lia).
  replace (0 <? pos queue) with false by (symmetry; apply Z.ltb_ge; lia).
  replace (maxsize queue =? 0) with false by (symmetry; apply Z.eqb_neq; lia).
  replace (maxsize queue <? _) with false by (symmetry; apply Z.ltb_ge; lia).
  reflexivity.
Qed.

Lemma InsertEvtQueue_capacity_overflow_witness :
  ALsizei_wrap (Z.shiftl (maxsize largest_queue) 1) = - 2 ^ 31 /\
  InsertEvtQueue true ∅ largest_queue (note_at 0 0)
  = (AL_OUT_OF_MEMORY, (∅, largest_queue)).
Proof.
  split; [reflexivity|].
  apply (InsertEvtQueue_capacity_overflow true ∅ largest_queue (note_at 0 0)).
  - reflexivity.
  - cbn [pos largest_queue]. lia.
  - cbn [maxsize largest_queue]. lia.
  - cbn [maxsize largest_queue]. vm_compute. discriminate.
Defined.

(** ** The clock *)

Section clock.
Context {A : ALarith}.

Lemma schedule_EventQueue (self : MidiSynth) t :
  EventQueue (schedule self t) = EventQueue self.
Proof. unfold schedule. destruct (_ <? _); reflexivity. Qed.

Lemma schedule_clock_updated (self : MidiSynth) queue t :
  clock_updated self t (schedule (set_EventQueue self queue) t).
Proof.
  unfold clock_updated, schedule. cbn [set_EventQueue NextEvtTime].
  destruct (Z.ltb_spec t (NextEvtTime self)); split; intros; try lia;
    cbn; auto 10.
Qed.

(** C3, as amended.  A successful [MidiSynth_insertEvent] or
    [MidiSynth_insertSysExEvent] with an event time below [NextEvtTime]
    sets [NextEvtTime] to the event time and [SamplesToNext] to
    [d * SamplesPerTick - SamplesSinceLast], where [d] is the difference
    [NextEvtTime - LastEvtTime] taken in [ALuint64], and leaves the other
    clock fields.  For an event time of at least [LastEvtTime], [d] is
    the difference itself; for an event time before [LastEvtTime] it is
    the difference plus 2^64.  With an event time of at least
    [NextEvtTime] the call leaves all five clock fields.  After
    [MidiSynth_Construct], [NextEvtTime] is [UINT64_MAX], so every event
    time below it updates the clock. *)
Theorem insert_updates_clock (self self' : MidiSynth) realloc_ok h h' t
    event param1 param2 malloc_result data size :
  MidiSynth_insertEvent realloc_ok h self t event param1 param2
    = (AL_NO_ERROR, (h', self')) \/
  MidiSynth_insertSysExEvent malloc_result realloc_ok h self t data size
    = (AL_NO_ERROR, (h', self')) ->
  clock_updated self t self' /\
  (t < NextEvtTime self -> 0 <= t - LastEvtTime self <= UINT64_MAX ->
   SamplesToNext self' =
     double_sub
       (double_mul (double_of_Z (NextEvtTime self' - LastEvtTime self'))
          (SamplesPerTick self'))
       (SamplesSinceLast self')) /\
  (t < NextEvtTime self -> - UINT64_MAX <= t - LastEvtTime self < 0 ->
   SamplesToNext self' =
     double_sub
       (double_mul (double_of_Z (NextEvtTime self' - LastEvtTime self' + 2 ^ 64))
          (SamplesPerTick self'))
       (SamplesSinceLast self')) /\
  (forall self0 device,
     self = MidiSynth_Construct self0 device -> t < UINT64_MAX ->
     NextEvtTime self' = t).
Proof.
  intros Hins.
  assert (Hupd : clock_updated self t self').
  { destruct Hins as [Hins|Hins]; revert Hins.
    - unfold MidiSynth_insertEvent.
      destruct (InsertEvtQueue _ _ _ _) as [err [h1 queue]].
      destruct (negb (err =? AL_NO_ERROR)) eqn:Herr.
      + intros [= -> _ _]. discriminate.
      + intros [= _ <-]. apply schedule_clock_updated.
    - unfold MidiSynth_insertSysExEvent.
      destruct (malloc_result =? NULL); [intros [= ?]; discriminate|].
      destruct (InsertEvtQueue _ _ _ _) as [err [h1 queue]].
      destruct (negb (err =? AL_NO_ERROR)) eqn:Herr.
      + intros [= -> _ _]. discriminate.
      + intros [= _ <-]. apply schedule_clock_updated. }
  split; [exact Hupd|].
  destruct Hupd as [Hlt _].
  split; [|split].
  - intros Ht Hd. destruct (Hlt Ht) as (Hn & Hs & Hl & _).
    rewrite Hs. do 3 f_equal. unfold ALuint64_wrap, UINT64_MAX in *.
    apply Z.mod_small. lia.
  - intros Ht Hd. destruct (Hlt Ht) as (Hn & Hs & Hl & _).
    rewrite Hs. do 3 f_equal. unfold ALuint64_wrap, UINT64_MAX in *.
    symmetry. apply (Z.mod_unique _ _ (-1)); lia.
  - intros self0 device -> Ht. apply Hlt. exact Ht.
Qed.

(** C4, as amended.  Where the conversion of the estimate
    [LastEvtTime + SamplesSinceLast / SamplesPerTick] to [ALuint64] is
    defined, [MidiSynth_getTime] returns the estimate clamped by
    [clampu64]; the result is never greater than [NextEvtTime], and it is
    never less than [LastEvtTime] when [LastEvtTime <= NextEvtTime]. *)
Theorem getTime_clamped (self : MidiSynth) t :
  MidiSynth_getTime self = Some t ->
  (exists time,
     ALuint64_of_double
       (double_add (double_of_Z (LastEvtTime self))
          (double_div (SamplesSinceLast self) (SamplesPerTick self))) = Some time /\
     t = clampu64 time (LastEvtTime self) (NextEvtTime self)) /\
  t <= NextEvtTime self /\
  (LastEvtTime self <= NextEvtTime self -> LastEvtTime self <= t).
Proof.
  unfold MidiSynth_getTime.
  destruct (ALuint64_of_double _) as [time|]; [|discriminate].
  intros [= <-]. split; [eauto|]. unfold clampu64. lia.
Qed.

End clock.

Lemma insert_updates_clock_witness :
  let self' := snd (snd (MidiSynth_insertEvent true ∅ synth_at_100 50 0x90 60 100)) in
  clock_updated synth_at_100 50 self' /\
  (50 < NextEvtTime synth_at_100 -> 0 <= 50 - LastEvtTime synth_at_100 <= UINT64_MAX ->
   SamplesToNext self' =
     double_sub
       (double_mul (double_of_Z (NextEvtTime self' - LastEvtTime self'))
          (SamplesPerTick self'))
       (SamplesSinceLast self')) /\
  (50 < NextEvtTime synth_at_100 -> - UINT64_MAX <= 50 - LastEvtTime synth_at_100 < 0 ->
   SamplesToNext self' =
     double_sub
       (double_mul (double_of_Z (NextEvtTime self' - LastEvtTime self' + 2 ^ 64))
          (SamplesPerTick self'))
       (SamplesSinceLast self')) /\
  (forall self0 device,
     synth_at_100 = MidiSynth_Construct self0 device -> 50 < UINT64_MAX ->
     NextEvtTime self' = 50).
Proof.
  intros self'.
  apply (insert_updates_clock synth_at_100 self' true ∅ ∅ 50 0x90 60 100 0 [] 0).
  left. reflexivity.
Defined.

(** C3, as stated, fails: in exact arithmetic, an insertion for tick 50
    into a clock whose last event was at tick 100 succeeds with
    [50 < NextEvtTime], and [SamplesToNext] becomes
    [(2^64 - 50) * SamplesPerTick - SamplesSinceLast], not
    [(NextEvtTime - LastEvtTime) * SamplesPerTick - SamplesSinceLast],
    which is negative. *)
Lemma insert_before_LastEvtTime_wraps :
  let self' := synth_exact_late_event in
  MidiSynth_insertEvent true ∅ synth_exact_at_100 50 0x90 60 100
    = (AL_NO_ERROR, (∅, self')) /\
  50 < NextEvtTime synth_exact_at_100 /\
  NextEvtTime self' = 50 /\ LastEvtTime self' = 100 /\
  (SamplesToNext self'
   == inject_Z (2 ^ 64 - 50) * SamplesPerTick self' - SamplesSinceLast self')%Q /\
  ~ (SamplesToNext self'
     == inject_Z (NextEvtTime self' - LastEvtTime self') * SamplesPerTick self'
        - SamplesSinceLast self')%Q.
Proof.
  cbn zeta.
  split; [reflexivity|]. split; [reflexivity|].
  split; [reflexivity|]. split; [reflexivity|].
  split; [reflexivity|].
  intros H. vm_compute in H. discriminate.
Qed.

Lemma getTime_clamped_witness :
  (exists time,
     ALuint64_of_double
       (double_add (double_of_Z (LastEvtTime synth_48k))
          (double_div (SamplesSinceLast synth_48k) (SamplesPerTick synth_48k)))
       = Some time /\
     0 = clampu64 time (LastEvtTime synth_48k) (NextEvtTime synth_48k)) /\
  0 <= NextEvtTime synth_48k /\
  (LastEvtTime synth_48k <= NextEvtTime synth_48k -> LastEvtTime synth_48k <= 0).
Proof.
  apply (getTime_clamped synth_48k 0). reflexivity.
Defined.

(** C4, as stated, fails: after an event is inserted for a time before
    [LastEvtTime], [MidiSynth_getTime] returns a time less than
    [LastEvtTime]. *)
Lemma getTime_below_LastEvtTime :
  LastEvtTime synth_late_event = 100 /\
  NextEvtTime synth_late_event = 50 /\
  MidiSynth_getTime synth_late_event = Some 50 /\
  ~ (LastEvtTime synth_late_event <= 50 <= NextEvtTime synth_late_event).
Proof.
  split; [reflexivity|]. split; [reflexivity|]. split; [reflexivity|].
  change (LastEvtTime synth_late_event) with 100. lia.
Qed.

(** ** Changes of the sample rate, in exact arithmetic *)

Lemma Qtruncate_comp (p q : Q) : (p == q)%Q -> Qtruncate p = Qtruncate q.
Proof.
  intros Heq. unfold Qtruncate.
  assert (Hb : Qle_bool 0 p = Qle_bool 0 q).
  { destruct (Qle_bool 0 p) eqn:Hp, (Qle_bool 0 q) eqn:Hq; try reflexivity.
    - apply Qle_bool_iff in Hp. rewrite Heq in Hp.
      apply Qle_bool_iff in Hp. congruence.
    - apply Qle_bool_iff in Hq. rewrite <- Heq in Hq.
      apply Qle_bool_iff in Hq. congruence. }
  rewrite Hb. destruct (Qle_bool 0 q).
  - apply Qfloor_comp. exact Heq.
  - apply Qceiling_comp. exact Heq.
Qed.

Lemma ALuint64_of_Q_comp (p q : Q) : (p == q)%Q -> ALuint64_of_Q p = ALuint64_of_Q q.
Proof. intros Heq. unfold ALuint64_of_Q. rewrite (Qtruncate_comp p q Heq). reflexivity. Qed.

Lemma same_ticks_getTime (s1 s2 : @MidiSynth exact) :
  same_ticks s1 s2 -> MidiSynth_getTime s1 = MidiSynth_getTime s2.
Proof.
  intros (Hl & Hn & Hs & _). unfold MidiSynth_getTime.
  cbn [ALuint64_of_double double_add double_div double_of_Z exact].
  rewrite Hl, Hn.
  rewrite (ALuint64_of_Q_comp
             (inject_Z (LastEvtTime s2) + SamplesSinceLast s1 / SamplesPerTick s1)
             (inject_Z (LastEvtTime s2) + SamplesSinceLast s2 / SamplesPerTick s2)).
  - reflexivity.
  - rewrite Hs. reflexivity.
Qed.

Lemma setSampleRate_same_ticks (self : @MidiSynth exact) (srate : Q) :
  (0 < SamplesPerTick self)%Q -> (0 < srate)%Q ->
  same_ticks (MidiSynth_setSampleRate self srate) self /\
  (0 < SamplesPerTick (MidiSynth_setSampleRate self srate))%Q.
Proof.
  intros Hspt Hrate.
  unfold same_ticks, MidiSynth_setSampleRate.
  cbn [LastEvtTime NextEvtTime SamplesSinceLast SamplesToNext SamplesPerTick
       double_div double_mul double_of_Z exact].
  assert (Hr : ~ (srate == 0)%Q) by (intros E; rewrite E in Hrate; inversion Hrate).
  assert (Hp : ~ (SamplesPerTick self == 0)%Q)
    by (intros E; rewrite E in Hspt; inversion Hspt).
  assert (Ht : ~ (inject_Z TICKS_PER_SECOND == 0)%Q) by discriminate.
  repeat split.
  - field. auto.
  - field. auto.
  - apply Qlt_shift_div_l; [reflexivity|]. rewrite Qmult_0_l. exact Hrate.
Qed.

Lemma Qscale_refl (a b : Q) : ~ (b == 0)%Q -> (a == a * (b / b))%Q.
Proof. intros Hb. field. exact Hb. Qed.

Lemma Qscale_step (a r p q : Q) :
  ~ (r == 0)%Q -> ~ (p == 0)%Q -> (a * r / p * (q / r) == a * (q / p))%Q.
Proof. intros Hr Hp. field. auto. Qed.

Lemma Qpos_nonzero (q : Q) : (0 < q)%Q -> ~ (q == 0)%Q.
Proof. intros Hq E. rewrite E in Hq. inversion Hq. Qed.

(** What a sequence of rate changes does to the fields of the clock. *)
Lemma setSampleRate_rescales (rates : list Q) : forall self : @MidiSynth exact,
  (0 < SamplesPerTick self)%Q ->
  Forall (fun srate => (0 < srate)%Q) rates ->
  let self' := foldl MidiSynth_setSampleRate self rates in
  (0 < SamplesPerTick self')%Q /\
  (SamplesPerTick self'
   == match last rates with
      | Some srate => srate / inject_Z TICKS_PER_SECOND
      | None => SamplesPerTick self
      end)%Q /\
  (SamplesSinceLast self'
   == SamplesSinceLast self * (SamplesPerTick self' / SamplesPerTick self))%Q /\
  (SamplesToNext self'
   == SamplesToNext self * (SamplesPerTick self' / SamplesPerTick self))%Q.
Proof.
  induction rates as [|srate rates IH]; intros self Hspt Hrates; cbn zeta.
  - pose proof (Qpos_nonzero _ Hspt) as Hp. cbn [foldl last].
    split; [exact Hspt|]. split; [reflexivity|].
    split; apply Qscale_refl; exact Hp.
  - apply Forall_cons in Hrates as [Hr Hrates]. cbn [foldl].
    destruct (setSampleRate_same_ticks self srate Hspt Hr) as [_ Hpos].
    destruct (IH _ Hpos Hrates) as (H0 & H1 & H2 & H3).
    set (self' := foldl MidiSynth_setSampleRate (MidiSynth_setSampleRate self srate) rates)
      in *.
    pose proof (Qpos_nonzero _ Hspt) as Hp.
    pose proof (Qpos_nonzero _ Hpos) as Hq.
    split; [exact H0|]. split; [|split].
    + eapply Qeq_trans; [exact H1|].
      destruct rates as [|r rates']; [reflexivity|].
      rewrite last_cons_cons.
      destruct (last (r :: rates')) eqn:E; [reflexivity|].
      apply last_None in E. discriminate.
    + eapply Qeq_trans; [exact H2|].
      apply (Qscale_step (SamplesSinceLast self) _ (SamplesPerTick self)
               (SamplesPerTick self') Hq Hp).
    + eapply Qeq_trans; [exact H3|].
      apply (Qscale_step (SamplesToNext self) _ (SamplesPerTick self)
               (SamplesPerTick self') Hq Hp).
Qed.

(** C5.  In exact arithmetic, for a clock with [SamplesPerTick > 0], any
    sequence of [MidiSynth_setSampleRate] calls with positive rates
    leaves the result of [MidiSynth_getTime] unchanged: the event times
    are untouched and the sample counts measured in ticks,
    [SamplesSinceLast / SamplesPerTick] and
    [SamplesToNext / SamplesPerTick], stay the same.  One call sets
    [SamplesPerTick] to [srate / 1000000] and multiplies
    [SamplesSinceLast] and [SamplesToNext] by the new [SamplesPerTick]
    over the old one; after the sequence [SamplesPerTick] is the last
    rate over 1000000 and the two sample counts are the old ones times
    the last [SamplesPerTick] over the first. *)
Theorem setSampleRate_preserves_getTime (self : @MidiSynth exact) (rates : list Q) :
  (0 < SamplesPerTick self)%Q ->
  Forall (fun srate => (0 < srate)%Q) rates ->
  let self' := foldl MidiSynth_setSampleRate self rates in
  MidiSynth_getTime self' = MidiSynth_getTime self /\
  (SamplesSinceLast self' / SamplesPerTick self'
     == SamplesSinceLast self / SamplesPerTick self)%Q /\
  (SamplesToNext self' / SamplesPerTick self'
     == SamplesToNext self / SamplesPerTick self)%Q /\
  LastEvtTime self' = LastEvtTime self /\ NextEvtTime self' = NextEvtTime self /\
  (0 < SamplesPerTick self')%Q /\
  (SamplesPerTick self'
   == match last rates with
      | Some srate => srate / inject_Z TICKS_PER_SECOND
      | None => SamplesPerTick self
      end)%Q /\
  (SamplesSinceLast self'
   == SamplesSinceLast self * (SamplesPerTick self' / SamplesPerTick self))%Q /\
  (SamplesToNext self'
   == SamplesToNext self * (SamplesPerTick self' / SamplesPerTick self))%Q /\
  (forall srate, (0 < srate)%Q ->
     let self1 := MidiSynth_setSampleRate self srate in
     (SamplesPerTick self1 == srate / inject_Z TICKS_PER_SECOND)%Q /\
     (SamplesSinceLast self1
      == SamplesSinceLast self * (SamplesPerTick self1 / SamplesPerTick self))%Q /\
     (SamplesToNext self1
      == SamplesToNext self * (SamplesPerTick self1 / SamplesPerTick self))%Q).
Proof.
  intros Hspt Hrates. cbn zeta.
  assert (Hall : same_ticks (foldl MidiSynth_setSampleRate self rates) self).
  { clear - Hspt Hrates.
    revert self Hspt. induction Hrates as [|srate rates Hr _ IH]; intros self Hspt.
    - simpl. split; [reflexivity|]. split; [reflexivity|]. split; reflexivity.
    - simpl. destruct (setSampleRate_same_ticks self srate Hspt Hr) as [Hsame Hpos].
      specialize (IH _ Hpos).
      destruct IH as (H1 & H2 & H3 & H4), Hsame as (G1 & G2 & G3 & G4).
      split; [exact (eq_trans H1 G1)|]. split; [exact (eq_trans H2 G2)|]. split.
      + exact (Qeq_trans _ _ _ H3 G3).
      + exact (Qeq_trans _ _ _ H4 G4). }
  split; [apply same_ticks_getTime; exact Hall|].
  destruct Hall as (Hl & Hn & H3 & H4).
  split; [exact H3|]. split; [exact H4|]. split; [exact Hl|]. split; [exact Hn|].
  destruct (setSampleRate_rescales rates self Hspt Hrates) as (R0 & R1 & R2 & R3).
  split; [exact R0|]. split; [exact R1|]. split; [exact R2|]. split; [exact R3|].
  intros srate Hr.
  destruct (setSampleRate_rescales [srate] self Hspt) as (_ & S1 & S2 & S3).
  { constructor; [exact Hr|constructor]. }
  cbn zeta. split; [exact S1|]. split; [exact S2|exact S3].
Qed.

Lemma setSampleRate_preserves_getTime_witness :
  let rates := [inject_Z 44100; inject_Z 96000; inject_Z 22050] in
  let self' := foldl MidiSynth_setSampleRate synth_exact rates in
  MidiSynth_getTime synth_exact = Some 250017 /\
  MidiSynth_getTime self' = MidiSynth_getTime synth_exact /\
  (SamplesSinceLast self' / SamplesPerTick self'
     == SamplesSinceLast synth_exact / SamplesPerTick synth_exact)%Q /\
  (SamplesToNext self' / SamplesPerTick self'
     == SamplesToNext synth_exact / SamplesPerTick synth_exact)%Q /\
  LastEvtTime self' = LastEvtTime synth_exact /\
  NextEvtTime self' = NextEvtTime synth_exact /\
  (0 < SamplesPerTick self')%Q /\
  (SamplesPerTick self'
   == match last rates with
      | Some srate => srate / inject_Z TICKS_PER_SECOND
      | None => SamplesPerTick synth_exact
      end)%Q /\
  (SamplesSinceLast self'
   == SamplesSinceLast synth_exact
      * (SamplesPerTick self' / SamplesPerTick synth_exact))%Q /\
  (SamplesToNext self'
   == SamplesToNext synth_exact
      * (SamplesPerTick self' / SamplesPerTick synth_exact))%Q /\
  (forall srate, (0 < srate)%Q ->
     let self1 := MidiSynth_setSampleRate synth_exact srate in
     (SamplesPerTick self1 == srate / inject_Z TICKS_PER_SECOND)%Q /\
     (SamplesSinceLast self1
      == SamplesSinceLast synth_exact
         * (SamplesPerTick self1 / SamplesPerTick synth_exact))%Q /\
     (SamplesToNext self1
      == SamplesToNext synth_exact
         * (SamplesPerTick self1 / SamplesPerTick synth_exact))%Q).
Proof.
  intros rates self'. split; [reflexivity|].
  apply (setSampleRate_preserves_getTime synth_exact rates).
  - reflexivity.
  - repeat constructor.
Defined.

(** ** Failed insertions *)

Section failures.
Context {A : ALarith}.

Lemma set_EventQueue_same (self : MidiSynth) :
  set_EventQueue self (EventQueue self) = self.
Proof. destruct self. reflexivity. Qed.

(** C6.  A failed insertion changes nothing.  [InsertEvtQueue] fails only
    with [AL_OUT_OF_MEMORY], and leaves the heap and the queue as they
    were; it does so when the queue must grow and the reallocation fails.
    [MidiSynth_insertSysExEvent] fails only with [AL_OUT_OF_MEMORY], when
    the payload copy cannot be allocated or the queue insertion fails,
    and leaves the heap, the queue and the clock as they were: the
    payload copy it made is freed.  [malloc] returns [NULL] or the
    address of a block that was not allocated before. *)
Theorem failed_insertion_changes_nothing (self self1 self2 : MidiSynth)
    malloc_result realloc_ok h h1 h2 queue queue1 evt t data len err1 err2 :
  malloc_result = NULL \/ h !! malloc_result = None ->
  InsertEvtQueue realloc_ok h queue evt = (err1, (h1, queue1)) ->
  MidiSynth_insertSysExEvent malloc_result realloc_ok h self t data len
    = (err2, (h2, self2)) ->
  (err1 <> AL_NO_ERROR -> err1 = AL_OUT_OF_MEMORY /\ h1 = h /\ queue1 = queue) /\
  (size queue = maxsize queue -> pos queue <= 0 -> realloc_ok = false ->
     err1 = AL_OUT_OF_MEMORY) /\
  (err2 <> AL_NO_ERROR -> err2 = AL_OUT_OF_MEMORY /\ h2 = h /\ self2 = self) /\
  (malloc_result = NULL -> err2 = AL_OUT_OF_MEMORY) /\
  (forall err h' queue',
     InsertEvtQueue realloc_ok (<[malloc_result := take (Z.to_nat len) data]> h)
       (EventQueue self)
       {| time := t; event := SYSEX_EVENT;
          param := param_sysex malloc_result len |} = (err, (h', queue')) ->
     err <> AL_NO_ERROR -> err2 = err).
Proof.
  intros Hfresh Hq Hs. split; [|split; [|split; [|split]]].
  - intros Hne. eapply InsertEvtQueue_failure; eauto.
  - intros Hfull Hpos ->. revert Hq. unfold InsertEvtQueue.
    rewrite make_room_cases. cbn zeta.
    replace (maxsize queue =? size queue) with true by (symmetry; apply Z.eqb_eq; lia).
    replace (0 <? pos queue) with false by (symmetry; apply Z.ltb_ge; lia).
    rewrite andb_false_r. cbv iota. intros [= <- _ _]. reflexivity.
  - intros Hne. clear Hq. revert Hs. unfold MidiSynth_insertSysExEvent.
    destruct (Z.eqb_spec malloc_result NULL) as [->|Hnn].
    { intros [= <- <- <-]. auto. }
    destruct Hfresh as [?|Hfresh]; [contradiction|].
    destruct (InsertEvtQueue _ _ _ _) as [err [h' queue']] eqn:Hins.
    destruct (Z.eqb_spec err AL_NO_ERROR) as [->|Herr]; simpl.
    { intros [= <- _ _]. contradiction. }
    intros [= <- <- <-].
    destruct (InsertEvtQueue_failure _ _ _ _ _ _ _ Hins Herr) as (-> & -> & ->).
    split; [reflexivity|]. split.
    + unfold free. rewrite delete_insert_eq. apply delete_id. exact Hfresh.
    + apply set_EventQueue_same.
  - intros ->. revert Hs. unfold MidiSynth_insertSysExEvent.
    rewrite Z.eqb_refl. intros [= <- _ _]. reflexivity.
  - intros err h' queue' Hins Herr. revert Hs. unfold MidiSynth_insertSysExEvent.
    destruct (Z.eqb_spec malloc_result NULL) as [->|Hnn].
    { intros [= <- <- <-].
      destruct (InsertEvtQueue_failure _ _ _ _ _ _ _ Hins Herr) as (-> & _). reflexivity. }
    rewrite Hins.
    destruct (Z.eqb_spec err AL_NO_ERROR) as [->|_]; [contradiction|]. simpl.
    intros [= <- _ _]. reflexivity.
Qed.

End failures.

Lemma failed_insertion_changes_nothing_witness :
  let '(err1, (h1, queue1)) := InsertEvtQueue false ∅ InitEvtQueue (note_at 5 0) in
  let '(err2, (h2, self2)) :=
    MidiSynth_insertSysExEvent 4096 false ∅ synth_48k 5 [0x7E; 0x7F; 0x09; 0x01] 4 in
  (err1 = AL_OUT_OF_MEMORY /\ h1 = ∅ /\ queue1 = InitEvtQueue) /\
  (err2 = AL_OUT_OF_MEMORY /\ h2 = ∅ /\ self2 = synth_48k).
Proof.
  destruct (InsertEvtQueue false ∅ InitEvtQueue (note_at 5 0))
    as [err1 [h1 queue1]] eqn:Hq.
  destruct (MidiSynth_insertSysExEvent 4096 false ∅ synth_48k 5
              [0x7E; 0x7F; 0x09; 0x01] 4) as [err2 [h2 self2]] eqn:Hs.
  destruct (failed_insertion_changes_nothing synth_48k synth_48k self2 4096 false
              ∅ h1 h2 InitEvtQueue queue1 (note_at 5 0) 5
              [0x7E; 0x7F; 0x09; 0x01] 4 err1 err2
              (or_intror (lookup_empty _)) Hq Hs) as (H1 & _ & H2 & _).
  injection Hq as <- _ _. injection Hs as <- _ _.
  split; [apply H1 | apply H2]; discriminate.
Defined.

(** ** Soundfont selection *)

Lemma resolve_sfonts_unresolved context ids n i sfonts k id :
  0 <= i -> (Z.to_nat i <= k < Z.to_nat i + n)%nat ->
  ids !! k = Some id -> id <> 0 -> LookupSfont (Device context) id = NULL ->
  resolve_sfonts context ids n i sfonts = None.
Proof.
  revert i sfonts. induction n as [|n IH]; intros i sfonts Hi Hk Hid Hnz Hlook.
  { lia. }
  simpl. destruct (Nat.eq_dec k (Z.to_nat i)) as [->|Hne].
  - rewrite (list_lookup_total_correct _ _ _ Hid).
    replace (id =? 0) with false by (symmetry; apply Z.eqb_neq; exact Hnz).
    rewrite Hlook. reflexivity.
  - assert (Hrec : forall sfonts', resolve_sfonts context ids n (i + 1) sfonts' = None).
    { intros sfonts'. apply IH; auto; lia. }
    destruct (_ =? 0); [apply Hrec|].
    destruct (_ =? NULL); [reflexivity|apply Hrec].
Qed.

Section selection.
Context {A : ALarith}.

(** C7.  [MidiSynth_selectSoundfonts] returns [AL_INVALID_OPERATION] when
    the state is neither [AL_INITIAL] nor [AL_STOPPED]; in one of these
    states, and with the array allocated, it returns [AL_INVALID_VALUE]
    when one of the first [count] ids is not 0 and is not in the registry
    of the device; and whenever it fails, for these reasons or because
    the array cannot be allocated, the reference counts and the synth,
    with its soundfont pointer and count, are as they were. *)
Theorem selectSoundfonts_failure (self self' : MidiSynth) calloc_ok refs refs'
    context count ids err :
  MidiSynth_selectSoundfonts calloc_ok refs self context count ids
    = (err, (refs', self')) ->
  (State self <> AL_INITIAL -> State self <> AL_STOPPED ->
     err = AL_INVALID_OPERATION) /\
  (State self = AL_INITIAL \/ State self = AL_STOPPED -> calloc_ok = true ->
   (exists k id, 0 <= k < count /\ ids !! Z.to_nat k = Some id /\
                 id <> 0 /\ LookupSfont (Device context) id = NULL) ->
     err = AL_INVALID_VALUE) /\
  (State self = AL_INITIAL \/ State self = AL_STOPPED -> calloc_ok = false ->
     err = AL_OUT_OF_MEMORY) /\
  (err <> AL_NO_ERROR -> refs' = refs /\ self' = self).
Proof.
  unfold MidiSynth_selectSoundfonts.
  destruct (Z.eqb_spec (State self) AL_INITIAL) as [Hi|Hi];
    destruct (Z.eqb_spec (State self) AL_STOPPED) as [Hs|Hs]; cbn [negb andb].
  4: { intros [= <- <- <-]. repeat split; auto; intros [?|?]; contradiction. }
  all: destruct calloc_ok; cbn [negb].
  all: try (intros [= <- <- <-]; repeat split; auto; try discriminate;
            intros; contradiction).
  all: destruct (resolve_sfonts _ _ _ _ _) as [sfonts|] eqn:Hres.
  all: try (intros [= <- <- <-]; repeat split; auto; try discriminate;
            intros; contradiction).
  all: unfold commit_step2, commit_step3, Exchange_Soundfonts, Exchange_NumSoundfonts.
  all: intros [= <- <- <-]; split; [intros; contradiction|].
  all: split; [|split; [discriminate | intros; contradiction]].
  all: intros _ _ (k & id & Hk & Hid & Hnz & Hlook).
  all: rewrite (resolve_sfonts_unresolved context ids (Z.to_nat count) 0
                  (replicate (Z.to_nat count) NULL) (Z.to_nat k) id) in Hres;
         [discriminate | lia | lia | assumption..].
Qed.

(** The last of the states that another thread can see is the state the
    call returns. *)
Lemma selectSoundfonts_visible_last (self : MidiSynth) calloc_ok refs context count ids :
  last (selectSoundfonts_visible calloc_ok self context count ids)
  = Some (snd (snd (MidiSynth_selectSoundfonts calloc_ok refs self context count ids))).
Proof.
  unfold selectSoundfonts_visible, MidiSynth_selectSoundfonts.
  destruct (negb _ && negb _); [reflexivity|].
  destruct (negb calloc_ok); [reflexivity|].
  destruct (resolve_sfonts _ _ _ _ _); reflexivity.
Qed.

End selection.

Lemma selectSoundfonts_failure_witness :
  let '(err, (refs', self')) :=
    MidiSynth_selectSoundfonts true refs_fonts synth_fonts context_fonts 2 [3; 9] in
  err = AL_INVALID_VALUE /\ refs' = refs_fonts /\ self' = synth_fonts.
Proof.
  destruct (MidiSynth_selectSoundfonts true refs_fonts synth_fonts context_fonts 2 [3; 9])
    as [err [refs' self']] eqn:Hsel.
  destruct (selectSoundfonts_failure synth_fonts self' true refs_fonts refs'
              context_fonts 2 [3; 9] err Hsel) as (_ & Hval & _ & Hsame).
  assert (err = AL_INVALID_VALUE) as ->.
  { apply Hval; [right; reflexivity | reflexivity |].
    exists 1, 9. repeat split; try reflexivity; try lia; discriminate. }
  split; [reflexivity|]. apply Hsame. discriminate.
Defined.

(** The scenario of the specification: a selection while the synth is
    playing is refused and changes nothing. *)
Example selectSoundfonts_while_playing :
  let playing :=
    @Build_MidiSynth binary64 InitEvtQueue (Some [0x1000; 0x2000]) 2 float_one
      AL_PLAYING 0 UINT64_MAX (double_of_Z 0) (double_of_Z 0) (double_of_Z 0) in
  MidiSynth_selectSoundfonts true refs_fonts playing context_fonts 1 [3]
  = (AL_INVALID_OPERATION, (refs_fonts, playing)).
Proof. reflexivity. Qed.

(** A successful selection: the new set holds one more reference on each
    of its soundfonts, the old set one less. *)
Example selectSoundfonts_commit :
  let '(err, (refs', self')) :=
    MidiSynth_selectSoundfonts true refs_fonts synth_fonts context_fonts 2 [3; 0] in
  err = AL_NO_ERROR /\
  Soundfonts self' = Some [0x3000; 0x500] /\ NumSoundfonts self' = 2 /\
  refs' = <[0x500 := 2]> (<[0x1000 := 1]> (<[0x2000 := 1]> (<[0x3000 := 2]> ∅))).
Proof. vm_compute. repeat split; reflexivity. Qed.

(** C8 fails on the code.  The commit exchanges the pointer and the count
    by two separate atomic operations.  Selecting the single soundfont 3
    on a synth that holds two soundfonts, another thread can see, after
    the first exchange and before the second, the new array of one
    soundfont together with the old count 2. *)
Theorem selectSoundfonts_exchange_not_atomic :
  let visible := selectSoundfonts_visible true synth_fonts context_fonts 1 [3] in
  consistent_set synth_fonts /\
  fst (MidiSynth_selectSoundfonts true refs_fonts synth_fonts context_fonts 1 [3])
    = AL_NO_ERROR /\
  exists between,
    visible !! 1%nat = Some between /\
    Soundfonts between = Some [0x3000] /\
    NumSoundfonts between = 2 /\
    ~ consistent_set between.
Proof.
  split; [reflexivity|]. split; [reflexivity|].
  eexists. split; [reflexivity|]. split; [reflexivity|]. split; [reflexivity|].
  unfold consistent_set. cbn. discriminate.
Qed.

(** ** Construction *)

(** C9.  After [MidiSynth_Construct] the gain is 1, the state is
    [AL_INITIAL], [LastEvtTime] is 0, [NextEvtTime] is [UINT64_MAX],
    [SamplesSinceLast] and [SamplesToNext] are 0 and [SamplesPerTick] is
    the frequency of the device divided by 1000000: in IEEE arithmetic,
    where the gain is the binary32 number of value 1 and the division is
    rounded to binary64, and in exact arithmetic. *)
Theorem MidiSynth_Construct_initial (device : ALCdevice) :
  (forall self : @MidiSynth binary64,
     let s := MidiSynth_Construct self device in
     Gain s = S754_finite false 8388608 (-23) /\
     binary_value (Gain s) = Some 1%Q /\
     State s = AL_INITIAL /\
     LastEvtTime s = 0 /\
     NextEvtTime s = UINT64_MAX /\
     SamplesSinceLast s = S754_zero false /\
     SamplesToNext s = S754_zero false /\
     SamplesPerTick s =
       SFdiv 53 1024 (binary_normalize 53 1024 (Frequency device) 0 false)
         (binary_normalize 53 1024 1000000 0 false)) /\
  (forall self : @MidiSynth exact,
     let s := MidiSynth_Construct self device in
     Gain s = 1%Q /\
     State s = AL_INITIAL /\
     LastEvtTime s = 0 /\
     NextEvtTime s = UINT64_MAX /\
     SamplesSinceLast s = 0%Q /\
     SamplesToNext s = 0%Q /\
     SamplesPerTick s = (inject_Z (Frequency device) / inject_Z 1000000)%Q).
Proof. split; intros self; repeat split; reflexivity. Qed.

(** The scenario of the specification: at 48000 Hz there are 0.048
    samples per tick, in IEEE arithmetic the binary64 number nearest to
    it. *)
Example SamplesPerTick_48k :
  (forall self : @MidiSynth exact,
     (SamplesPerTick (MidiSynth_Construct self device_48k) == 48 # 1000)%Q) /\
  SamplesPerTick synth_48k = S754_finite false 6917529027641082 (-57).
Proof. split; [intros self|]; reflexivity. Qed.

(** In IEEE arithmetic a change of the sample rate can move the result of
    [MidiSynth_getTime]: 78 samples at 48000 Hz are 1625 ticks, and after
    the change to 44100 Hz the rounded quotient is just below 1625. *)
Example setSampleRate_binary64_rounds :
  let self :=
    @Build_MidiSynth binary64 InitEvtQueue None 0 float_one AL_PLAYING
      0 UINT64_MAX (double_of_Z 78) (double_of_Z 0) (SamplesPerTick synth_48k) in
  MidiSynth_getTime self = Some 1625 /\
  MidiSynth_getTime (MidiSynth_setSampleRate self (double_of_Z 44100)) = Some 1624.
Proof. split; reflexivity. Qed.

(** ** Capacities *)

Lemma place_event_maxsize queue evt :
  maxsize (place_event queue evt) = maxsize queue.
Proof. unfold place_event. destruct (0 <? size queue); reflexivity. Qed.

Lemma place_event_size queue evt :
  size (place_event queue evt) = size queue + 1.
Proof. unfold place_event. destruct (0 <? size queue); reflexivity. Qed.

Lemma place_event_pos queue evt :
  pos (place_event queue evt) = pos queue.
Proof. unfold place_event. destruct (0 <? size queue); reflexivity. Qed.

Lemma ALsizei_wrap_double m :
  0 < m -> (m < 2 ^ 30 -> ALsizei_wrap (Z.shiftl m 1) = 2 * m) /\
           (2 ^ 30 <= m <= ALsizei_MAX -> ALsizei_wrap (Z.shiftl m 1) < 0).
Proof.
  intros Hm. rewrite Z.shiftl_mul_pow2 by lia. change (2 ^ 1) with 2.
  unfold ALsizei_wrap, ALsizei_MAX. split; intros Hr.
  - rewrite Z.mod_small by lia. lia.
  - replace (m * 2 + 2 ^ 31) with (m * 2 - 2 ^ 31 + 1 * 2 ^ 32) by lia.
    rewrite Z.mod_add by lia. rewrite Z.mod_small by lia. lia.
Qed.

Lemma capacity_ok_bounds m : capacity_ok m -> 0 <= m <= 2 ^ 30.
Proof.
  intros [->|(k & Hk & ->)]; [lia|].
  assert (0 < 2 ^ k) by (apply Z.pow_pos_nonneg; lia).
  assert (2 ^ k <= 2 ^ 26) by (apply Z.pow_le_mono_r; lia).
  lia.
Qed.

Lemma capacity_ok_double m :
  capacity_ok m -> m <> 0 -> m < 2 ^ 30 -> capacity_ok (2 * m).
Proof.
  intros [->|(k & Hk & ->)] Hnz Hlt; [lia|].
  right. exists (k + 1). split.
  - assert (k <> 26) by (intros ->; lia). lia.
  - rewrite Z.pow_add_r by lia. lia.
Qed.

(** The capacity after an insertion: the old one, or the one the queue
    grew to. *)
Lemma InsertEvtQueue_maxsize realloc_ok h queue evt :
  let queue' := snd (snd (InsertEvtQueue realloc_ok h queue evt)) in
  let newsize := if maxsize queue =? 0 then 16
                 else ALsizei_wrap (Z.shiftl (maxsize queue) 1) in
  maxsize queue' = maxsize queue \/
  (maxsize queue < newsize /\ maxsize queue' = newsize).
Proof.
  cbn zeta. unfold InsertEvtQueue. rewrite make_room_cases. cbn zeta.
  destruct (maxsize queue =? size queue).
  - destruct (0 <? pos queue).
    + left. cbn [snd]. rewrite place_event_maxsize. reflexivity.
    + destruct (Z.ltb_spec (maxsize queue) (if maxsize queue =? 0 then 16
                  else ALsizei_wrap (Z.shiftl (maxsize queue) 1))) as [Hg|Hg];
        [destruct realloc_ok|]; cbn [andb snd]; auto.
      right. split; [exact Hg|]. rewrite place_event_maxsize. reflexivity.
  - left. cbn [snd]. apply place_event_maxsize.
Qed.

Lemma reachable_capacity queue : reachable queue -> capacity_ok (maxsize queue).
Proof.
  induction 1 as [|ok h queue evt err h' queue' _ IH Hins|queue n _ IH Hn|h queue _ IH].
  - left. reflexivity.
  - pose proof (InsertEvtQueue_maxsize ok h queue evt) as Hm.
    rewrite Hins in Hm. cbn [snd] in Hm. cbn zeta in Hm.
    destruct Hm as [->|[Hgrow ->]]; [exact IH|].
    destruct (Z.eqb_spec (maxsize queue) 0) as [Hz|Hnz].
    + right. exists 0. split; [lia|reflexivity].
    + pose proof (capacity_ok_bounds _ IH) as Hb.
      destruct (ALsizei_wrap_double (maxsize queue) ltac:(lia)) as [Hsmall Hbig].
      destruct (Z_lt_dec (maxsize queue) (2 ^ 30)) as [Hlt|Hge].
      * rewrite Hsmall in * by lia. apply capacity_ok_double; auto.
      * unfold ALsizei_MAX in Hbig. lia.
  - exact IH.
  - unfold ResetEvtQueue. destruct (free_payloads _ _ _ _). left. reflexivity.
Qed.

(** The bounds of a queue produced from the empty queue. *)
Lemma reachable_bounds queue :
  reachable queue ->
  capacity_ok (maxsize queue) /\
  Z.of_nat (length (events queue)) = maxsize queue /\
  0 <= pos queue <= size queue /\ size queue <= maxsize queue <= 2 ^ 30.
Proof.
  intros Hr. pose proof (reachable_capacity _ Hr) as Hc.
  destruct (reachable_invariant _ Hr) as [[Hpos Hsz Hal Hmx] _].
  pose proof (capacity_ok_bounds _ Hc). repeat split; auto; lia.
Qed.

(** X1.  A queue that insertions, consumption and resets produce from
    the empty queue has capacity 0 or 16 * 2^k with k <= 26, so it never
    holds more than 2^30 entries. *)
Theorem reachable_capacity_bound queue :
  reachable queue ->
  capacity_ok (maxsize queue) /\
  Z.of_nat (length (events queue)) = maxsize queue /\
  0 <= pos queue <= size queue /\ size queue <= maxsize queue <= 2 ^ 30.
Proof. apply reachable_bounds. Qed.

Lemma reachable_capacity_bound_witness :
  let queue := insert_all InitEvtQueue (map (fun t => note_at t 0) (seqZ 1 40)) in
  maxsize queue = 64 /\
  capacity_ok (maxsize queue) /\
  Z.of_nat (length (events queue)) = maxsize queue /\
  0 <= pos queue <= size queue /\ size queue <= maxsize queue <= 2 ^ 30.
Proof.
  intros queue. split; [reflexivity|].
  apply (reachable_capacity_bound queue).
  apply reachable_insert_all, reach_init.
Defined.

(** The outcomes of [InsertEvtQueue] on a queue produced from the empty
    queue. *)
Lemma InsertEvtQueue_error_iff realloc_ok h queue evt :
  reachable queue ->
  let err := fst (InsertEvtQueue realloc_ok h queue evt) in
  (err = AL_NO_ERROR \/ err = AL_OUT_OF_MEMORY) /\
  (err = AL_OUT_OF_MEMORY <->
   size queue = maxsize queue /\ pos queue = 0 /\
   (realloc_ok = false \/ maxsize queue = 2 ^ 30)).
Proof.
  intros Hr. destruct (reachable_bounds _ Hr) as (Hc & _ & Hpos & Hsz).
  cbn zeta. unfold InsertEvtQueue. rewrite make_room_cases. cbn zeta.
  destruct (Z.eqb_spec (maxsize queue) (size queue)) as [Hfull|Hnf].
  2: { cbn [fst]. split; [auto|]. split; [discriminate|]. intros (? & _); lia. }
  destruct (Z.ltb_spec 0 (pos queue)) as [Hstale|Hnone].
  { cbn [fst]. split; [auto|]. split; [discriminate|]. intros (_ & ? & _); lia. }
  assert (Hnew : (maxsize queue <? (if maxsize queue =? 0 then 16
                    else ALsizei_wrap (Z.shiftl (maxsize queue) 1))) = true
                 <-> maxsize queue <> 2 ^ 30).
  { rewrite Z.ltb_lt. destruct (Z.eqb_spec (maxsize queue) 0) as [Hz|Hnz]; [lia|].
    destruct (ALsizei_wrap_double (maxsize queue) ltac:(lia)) as [Hsmall Hbig].
    unfold ALsizei_MAX in Hbig.
    destruct (Z_lt_dec (maxsize queue) (2 ^ 30)); [rewrite Hsmall by lia|]; lia. }
  destruct (maxsize queue <? _) eqn:Hlt.
  - assert (maxsize queue <> 2 ^ 30) by (apply Hnew; reflexivity).
    destruct realloc_ok; cbn [andb fst]; (split; [auto|]); split;
      try discriminate; try (intros (_ & _ & [?|?]); congruence).
    intros _. repeat split; auto; lia.
  - assert (maxsize queue = 2 ^ 30).
    { destruct (Z.eq_dec (maxsize queue) (2 ^ 30)); [assumption|].
      apply Hnew in n. discriminate. }
    cbn [andb fst]. split; [auto|]. split; [|reflexivity].
    intros _. repeat split; auto; lia.
Qed.


(** X2.  On a queue produced from the empty queue, [InsertEvtQueue]
    returns [AL_NO_ERROR] or [AL_OUT_OF_MEMORY], and it fails exactly
    when the queue is full, has no stale entry, and either the
    reallocation fails or the capacity is already 2^30. *)
Theorem InsertEvtQueue_fails_iff realloc_ok h queue evt :
  reachable queue ->
  let err := fst (InsertEvtQueue realloc_ok h queue evt) in
  (err = AL_NO_ERROR \/ err = AL_OUT_OF_MEMORY) /\
  (err = AL_OUT_OF_MEMORY <->
   size queue = maxsize queue /\ pos queue = 0 /\
   (realloc_ok = false \/ maxsize queue = 2 ^ 30)).
Proof. apply InsertEvtQueue_error_iff. Qed.

Lemma InsertEvtQueue_fails_iff_witness :
  let queue := insert_all InitEvtQueue (map (fun t => note_at t 0) (seqZ 1 16)) in
  let err := fst (InsertEvtQueue false ∅ queue (note_at 3 1)) in
  (err = AL_NO_ERROR \/ err = AL_OUT_OF_MEMORY) /\
  (err = AL_OUT_OF_MEMORY <->
   size queue = maxsize queue /\ pos queue = 0 /\
   (false = false \/ maxsize queue = 2 ^ 30)).
Proof.
  intros queue.
  apply (InsertEvtQueue_fails_iff false ∅ queue (note_at 3 1)).
  apply reachable_insert_all, reach_init.
Defined.

(** ** The stored entries across an insertion *)

Lemma stored_split queue :
  0 <= pos queue <= size queue ->
  stored queue = take (Z.to_nat (pos queue)) (events queue) ++ live queue.
Proof.
  intros Hp. unfold stored, live. rewrite take_take_drop. f_equal. lia.
Qed.

(** The array after [place_event]: the event sits at the insertion
    point, the entries before it are in place, the entries after it are
    one slot further. *)
Lemma place_event_events queue evt :
  wf_queue queue -> size queue < maxsize queue ->
  sorted_by_time (live queue) ->
  let p := insertion_point queue evt in
  pos queue <= p <= size queue /\
  events (place_event queue evt) =
    take (Z.to_nat p) (events queue)
    ++ evt :: take (Z.to_nat (size queue - p)) (drop (Z.to_nat p) (events queue))
    ++ drop (Z.to_nat (size queue + 1)) (events queue).
Proof.
  intros Hwf Hfree Hs. pose proof Hwf as [Hpos Hsz Hal Hmx].
  destruct (insertion_point_spec queue evt Hwf Hs) as (Hp & _ & _).
  cbn zeta. split; [exact Hp|].
  rewrite place_event_unfold by lia. cbn zeta. cbn [events].
  set (p := insertion_point queue evt) in *.
  set (evs := events queue) in *.
  set (P := take (Z.to_nat p) evs).
  set (C := take (Z.to_nat (size queue - p)) (drop (Z.to_nat p) evs)).
  assert (HP : length P = Z.to_nat p) by (subst P; rewrite length_take; lia).
  assert (HC : length C = Z.to_nat (size queue - p))
    by (subst C; rewrite length_take, length_drop; lia).
  destruct (drop (Z.to_nat (size queue)) evs) as [|d D] eqn:HD.
  { apply (f_equal length) in HD. rewrite length_drop in HD. simpl in HD. lia. }
  assert (HD' : drop (Z.to_nat (size queue + 1)) evs = D).
  { replace (Z.to_nat (size queue + 1)) with (Z.to_nat (size queue) + 1)%nat by lia.
    rewrite <- drop_drop, HD. reflexivity. }
  assert (Hevs : evs = P ++ C ++ d :: D).
  { rewrite <- HD. subst P C.
    replace (Z.to_nat (size queue - p)) with (Z.to_nat (size queue) - Z.to_nat p)%nat by lia.
    apply split_at. lia. }
  pose proof (shift_store P C d D evt) as Hst. cbn zeta in Hst.
  rewrite <- Hevs in Hst.
  replace (Z.of_nat (length P)) with p in Hst by lia.
  replace (p + Z.of_nat (length C)) with (size queue) in Hst by lia.
  rewrite Hst, HD'. reflexivity.
Qed.

(** The stored entries after [place_event] are the old ones with the
    event put in, at or after the cursor. *)
Lemma place_event_stored queue evt :
  wf_queue queue -> size queue < maxsize queue ->
  sorted_by_time (live queue) ->
  exists s1 s2,
    stored queue = s1 ++ s2 /\
    stored (place_event queue evt) = s1 ++ evt :: s2 /\
    (Z.to_nat (pos queue) <= length s1)%nat.
Proof.
  intros Hwf Hfree Hs. pose proof Hwf as [Hpos Hsz Hal Hmx].
  destruct (place_event_events queue evt Hwf Hfree Hs) as (Hp & Hev).
  set (p := insertion_point queue evt) in *.
  exists (take (Z.to_nat p) (events queue)),
         (take (Z.to_nat (size queue - p)) (drop (Z.to_nat p) (events queue))).
  assert (Hl1 : length (take (Z.to_nat p) (events queue)) = Z.to_nat p)
    by (rewrite length_take; lia).
  assert (Hl2 : length (take (Z.to_nat (size queue - p))
                          (drop (Z.to_nat p) (events queue)))
                = Z.to_nat (size queue - p))
    by (rewrite length_take, length_drop; lia).
  split; [|split].
  - unfold stored. rewrite take_take_drop. f_equal. lia.
  - unfold stored. rewrite place_event_size, Hev.
    rewrite take_app_ge by lia. f_equal.
    rewrite Hl1.
    replace (Z.to_nat (size queue + 1) - Z.to_nat p)%nat
      with (S (Z.to_nat (size queue - p))) by lia.
    simpl. f_equal. rewrite take_app_length'; [reflexivity|lia].
  - lia.
Qed.

(** The queue after [make_room]: whether it compacted, and what it
    stores then. *)
Lemma make_room_stored realloc_ok h queue h1 queue1 :
  wf_queue queue ->
  make_room realloc_ok h queue = Some (h1, queue1) ->
  (maxsize queue = size queue /\ 0 < pos queue /\
   stored queue1 = live queue /\ pos queue1 = 0 /\
   size queue1 = size queue - pos queue /\
   h1 = foldl free h (payload_pointers (take (Z.to_nat (pos queue)) (events queue))))
  \/
  (~ (maxsize queue = size queue /\ 0 < pos queue) /\
   stored queue1 = stored queue /\ pos queue1 = pos queue /\
   size queue1 = size queue /\ h1 = h /\
   take (Z.to_nat (pos queue)) (events queue1)
     = take (Z.to_nat (pos queue)) (events queue)).
Proof.
  intros Hwf Hroom. pose proof Hwf as [Hpos Hsz Hal Hmx].
  destruct (make_room_spec _ _ _ _ _ Hwf Hroom) as (Hwf1 & Hfree1 & Hlive).
  revert Hroom. rewrite make_room_cases. cbn zeta.
  destruct (Z.eqb_spec (maxsize queue) (size queue)) as [Hfull|Hnf].
  - destruct (Z.ltb_spec 0 (pos queue)) as [Hstale|Hnone].
    + intros [= <- <-]. left. split; [exact Hfull|]. split; [exact Hstale|].
      cbn [pos size]. split; [|split; [reflexivity|split; [reflexivity|]]].
      * rewrite <- Hlive. unfold stored, live. cbn [events size pos].
        change (Z.to_nat 0) with 0%nat. rewrite drop_0, Z.sub_0_r. reflexivity.
      * rewrite free_payloads_heap by (simpl; lia). reflexivity.
    + destruct (_ <? _); [destruct realloc_ok|]; cbn [andb]; try discriminate.
      intros [= <- <-]. right. split; [lia|]. cbn [events pos size].
      split; [|split; [reflexivity|split; [reflexivity|split; [reflexivity|]]]].
      * unfold stored. cbn [events size]. apply take_app_le. lia.
      * apply take_app_le. lia.
  - intros [= <- <-]. right. split; [lia|]. auto 10.
Qed.

(** The stored entries and the heap after a successful insertion. *)
Lemma InsertEvtQueue_stored realloc_ok h queue evt h' queue' :
  wf_queue queue -> sorted_by_time (live queue) ->
  InsertEvtQueue realloc_ok h queue evt = (AL_NO_ERROR, (h', queue')) ->
  exists s1 s2,
    stored queue' = s1 ++ evt :: s2 /\
    ((maxsize queue = size queue /\ 0 < pos queue /\
      live queue = s1 ++ s2 /\ pos queue' = 0 /\
      size queue' = size queue - pos queue + 1 /\
      h' = foldl free h
             (payload_pointers (take (Z.to_nat (pos queue)) (events queue))))
     \/
     (~ (maxsize queue = size queue /\ 0 < pos queue) /\
      stored queue = s1 ++ s2 /\ pos queue' = pos queue /\
      size queue' = size queue + 1 /\ h' = h /\
      take (Z.to_nat (pos queue)) s1 = take (Z.to_nat (pos queue)) (events queue) /\
      (Z.to_nat (pos queue) <= length s1)%nat)).
Proof.
  intros Hwf Hs. unfold InsertEvtQueue.
  destruct (make_room _ _ _) as [[h1 q1]|] eqn:Hroom; [|discriminate].
  intros [= <- <-].
  destruct (make_room_spec _ _ _ _ _ Hwf Hroom) as (Hwf1 & Hfree1 & Hlive).
  rewrite <- Hlive in Hs.
  destruct (place_event_stored q1 evt Hwf1 Hfree1 Hs) as (s1 & s2 & Hst & Hst' & Hlen).
  exists s1, s2. split; [exact Hst'|].
  rewrite place_event_pos, place_event_size.
  destruct (make_room_stored _ _ _ _ _ Hwf Hroom)
    as [(Hf & Hp & Hsto & Hp1 & Hs1 & Hh)|(Hn & Hsto & Hp1 & Hs1 & Hh & Hpre)].
  - left. rewrite <- Hsto, Hst, Hp1, Hs1. auto 10.
  - right. rewrite <- Hsto, Hst, Hp1, Hs1. rewrite Hp1 in Hlen.
    split; [exact Hn|]. split; [reflexivity|]. split; [reflexivity|].
    split; [reflexivity|]. split; [exact Hh|]. split; [|exact Hlen].
    rewrite <- Hpre.
    pose proof Hwf1 as [Hpos1 _ _ _]. pose proof Hwf as [Hpos _ _ _].
    assert (Hq1 : take (Z.to_nat (pos queue)) (stored q1)
                  = take (Z.to_nat (pos queue)) (events q1)).
    { unfold stored. rewrite take_take. f_equal. lia. }
    rewrite <- Hq1, Hst. rewrite take_app_le by lia. reflexivity.
Qed.

(** X3.  An insertion into a queue that has a free slot cannot fail and
    does not touch the allocator: the heap, the capacity, the array
    length and the cursor are unchanged, the size grows by one, and the
    stale entries before the cursor are left as they are. *)
Theorem InsertEvtQueue_with_room realloc_ok h queue evt :
  wf_queue queue -> sorted_by_time (live queue) ->
  size queue < maxsize queue ->
  exists queue',
    InsertEvtQueue realloc_ok h queue evt = (AL_NO_ERROR, (h, queue')) /\
    maxsize queue' = maxsize queue /\
    length (events queue') = length (events queue) /\
    pos queue' = pos queue /\
    size queue' = size queue + 1 /\
    take (Z.to_nat (pos queue)) (events queue')
      = take (Z.to_nat (pos queue)) (events queue).
Proof.
  intros Hwf Hs Hroom. pose proof Hwf as [Hpos Hsz Hal Hmx].
  exists (place_event queue evt). split.
  - unfold InsertEvtQueue. rewrite make_room_cases. cbn zeta.
    replace (maxsize queue =? size queue) with false
      by (symmetry; apply Z.eqb_neq; lia).
    reflexivity.
  - destruct (place_event_live queue evt Hwf Hroom Hs) as [_ [_ _ Hal' _]].
    destruct (place_event_events queue evt Hwf Hroom Hs) as (Hp & Hev).
    rewrite place_event_maxsize in Hal'.
    rewrite place_event_maxsize, place_event_pos, place_event_size.
    split; [reflexivity|]. split; [lia|]. split; [reflexivity|].
    split; [reflexivity|].
    rewrite Hev. rewrite take_app_le by (rewrite length_take; lia).
    rewrite take_take. f_equal. lia.
Qed.

Lemma InsertEvtQueue_with_room_witness :
  let queue :=
    advance_cursor
      (insert_all InitEvtQueue (map (fun t => note_at t 0) (seqZ 1 10))) 4 in
  exists queue',
    InsertEvtQueue false ∅ queue (note_at 7 1) = (AL_NO_ERROR, (∅, queue')) /\
    maxsize queue' = maxsize queue /\
    length (events queue') = length (events queue) /\
    pos queue' = pos queue /\
    size queue' = size queue + 1 /\
    take (Z.to_nat (pos queue)) (events queue')
      = take (Z.to_nat (pos queue)) (events queue).
Proof.
  intros queue.
  assert (Hreach : reachable queue).
  { apply reach_consume; [apply reachable_insert_all, reach_init|].
    vm_compute. split; discriminate. }
  destruct (reachable_invariant _ Hreach) as [Hwf Hs].
  apply (InsertEvtQueue_with_room false ∅ queue (note_at 7 1) Hwf Hs).
  reflexivity.
Defined.

(** ** Insertions in a row sort stably *)

Lemma filter_time_none (t : Z) (l : list MidiEvent) :
  Forall (fun e => time e <> t) l -> filter (fun e => time e = t) l = [].
Proof.
  induction 1 as [|e l He _ IH]; [reflexivity|].
  rewrite filter_cons_False by exact He. exact IH.
Qed.

Lemma inserted_after_equals_filter evt before after t :
  inserted_after_equals evt before after ->
  filter (fun e => time e = t) after = filter (fun e => time e = t) (before ++ [evt]).
Proof.
  intros (l1 & l2 & -> & -> & _ & H2).
  rewrite !filter_app. rewrite <- app_assoc. f_equal.
  destruct (Z.eq_dec (time evt) t) as [He|He].
  - rewrite filter_cons_True by exact He.
    rewrite (filter_time_none t l2).
    + rewrite filter_cons_True by exact He. reflexivity.
    + eapply Forall_impl; [exact H2|]. simpl. intros; lia.
  - rewrite filter_cons_False by exact He.
    rewrite (filter_cons_False _ evt []) by exact He.
    rewrite filter_nil, app_nil_r. reflexivity.
Qed.

Lemma inserted_after_equals_Permutation evt before after :
  inserted_after_equals evt before after -> after ≡ₚ before ++ [evt].
Proof.
  intros (l1 & l2 & -> & -> & _ & _).
  rewrite <- Permutation_middle. rewrite <- Permutation_cons_append. reflexivity.
Qed.

Lemma insert_all_stable l : forall queue,
  reachable queue -> pos queue = 0 ->
  size queue + Z.of_nat (length l) <= 2 ^ 30 ->
  let queue' := insert_all queue l in
  pos queue' = 0 /\ size queue' = size queue + Z.of_nat (length l) /\
  live queue' ≡ₚ live queue ++ l /\
  forall t, filter (fun e => time e = t) (live queue')
            = filter (fun e => time e = t) (live queue ++ l).
Proof.
  induction l as [|e l IH]; intros queue Hr Hp Hlen; cbn zeta.
  - simpl. rewrite app_nil_r. repeat split; auto; lia.
  - change (insert_all queue (e :: l))
      with (insert_all (snd (snd (InsertEvtQueue true ∅ queue e))) l).
    simpl length in Hlen. simpl length.
    destruct (InsertEvtQueue true ∅ queue e) as [err [h1 q1]] eqn:Hins.
    cbn [snd].
    destruct (reachable_invariant _ Hr) as [Hwf Hs].
    pose proof (InsertEvtQueue_error_iff true ∅ queue e Hr) as Herr.
    rewrite Hins in Herr. cbn zeta in Herr. cbn [fst] in Herr.
    destruct Herr as [[ -> | -> ] Hiff].
    2: { destruct Hiff as [Hiff _]. destruct (Hiff eq_refl) as (? & _ & [?|?]);
           [discriminate|lia]. }
    destruct (InsertEvtQueue_success _ _ _ _ _ _ Hwf Hs Hins) as [Hwf1 Hafter].
    destruct (InsertEvtQueue_stored _ _ _ _ _ _ Hwf Hs Hins)
      as (s1 & s2 & _ & [(_ & ? & _)|(_ & _ & Hp1 & Hs1 & _)]); [lia|].
    assert (Hr1 : reachable q1) by (eapply reach_insert; eauto).
    destruct (IH q1 Hr1 ltac:(lia) ltac:(lia)) as (Hp' & Hs' & Hperm & Hfil).
    split; [exact Hp'|]. split; [lia|]. split.
    + rewrite Hperm. rewrite (inserted_after_equals_Permutation _ _ _ Hafter).
      rewrite <- app_assoc. reflexivity.
    + intros t. rewrite Hfil. rewrite !filter_app.
      rewrite (inserted_after_equals_filter _ _ _ t Hafter).
      rewrite !filter_app, <- app_assoc.
      f_equal. destruct (Z.eq_dec (time e) t) as [He|He].
      * rewrite !filter_cons_True by exact He. reflexivity.
      * rewrite !filter_cons_False by exact He. reflexivity.
Qed.

(** X4.  Up to 2^30 events inserted one by one into an empty queue, the
    allocations succeeding, are all stored, sorted by time, with the
    events of each time in the order of their insertion. *)
Theorem insert_all_sorts_stably (l : list MidiEvent) :
  Z.of_nat (length l) <= 2 ^ 30 ->
  let queue := insert_all InitEvtQueue l in
  pos queue = 0 /\ size queue = Z.of_nat (length l) /\
  sorted_by_time (live queue) /\
  live queue ≡ₚ l /\
  forall t, filter (fun e => time e = t) (live queue)
            = filter (fun e => time e = t) l.
Proof.
  intros Hlen. cbn zeta.
  destruct (insert_all_stable l InitEvtQueue reach_init eq_refl)
    as (Hp & Hs & Hperm & Hfil); [simpl; lia|].
  split; [exact Hp|]. split; [exact Hs|]. split; [|split; assumption].
  apply reachable_invariant, reachable_insert_all, reach_init.
Qed.

Lemma insert_all_sorts_stably_witness :
  let l := [note_at 100 1; note_at 50 2; note_at 50 3; note_at 200 4] in
  let queue := insert_all InitEvtQueue l in
  pos queue = 0 /\ size queue = Z.of_nat (length l) /\
  sorted_by_time (live queue) /\
  live queue ≡ₚ l /\
  forall t, filter (fun e => time e = t) (live queue)
            = filter (fun e => time e = t) l.
Proof.
  intros l queue. apply (insert_all_sorts_stably l). simpl. lia.
Defined.

(** ** The ownership of payloads *)

Lemma foldl_free_lookup (l : list Z) : forall (h : gmap Z (list Z)) a,
  foldl free h l !! a = if decide (a ∈ l) then None else h !! a.
Proof.
  induction l as [|x l IH]; intros h a; cbn [foldl].
  - case_decide as Hin; [|reflexivity].
    apply elem_of_nil in Hin. contradiction.
  - rewrite IH. unfold free.
    destruct (decide (a ∈ l)) as [Hin|Hnin].
    + case_decide as Hc; [reflexivity|].
      exfalso. apply Hc, elem_of_cons. auto.
    + destruct (decide (a = x)) as [->|Hne].
      * case_decide as Hc; [apply lookup_delete_eq|].
        exfalso. apply Hc, elem_of_cons. auto.
      * case_decide as Hc.
        { apply elem_of_cons in Hc. tauto. }
        apply lookup_delete_ne. congruence.
Qed.

Lemma payload_pointers_app l1 l2 :
  payload_pointers (l1 ++ l2) = payload_pointers l1 ++ payload_pointers l2.
Proof. unfold payload_pointers. rewrite filter_app, map_app. reflexivity. Qed.

Lemma payload_pointers_Permutation l1 l2 :
  l1 ≡ₚ l2 -> payload_pointers l1 ≡ₚ payload_pointers l2.
Proof.
  intros Hp. unfold payload_pointers. apply Permutation_map.
  rewrite Hp. reflexivity.
Qed.

Lemma owns_payloads_Permutation h l1 l2 :
  l1 ≡ₚ l2 -> owns_payloads h l1 -> owns_payloads h l2.
Proof.
  intros Hp [Hnd Hdom]. apply payload_pointers_Permutation in Hp.
  split.
  - rewrite <- Hp. exact Hnd.
  - intros a. rewrite <- Hp. apply Hdom.
Qed.

(** Freeing the payloads of a part of the entries leaves the heap with
    the payloads of the rest. *)
Lemma owns_payloads_free h l1 l2 :
  owns_payloads h (l1 ++ l2) ->
  owns_payloads (foldl free h (payload_pointers l1)) l2.
Proof.
  intros [Hnd Hdom]. rewrite payload_pointers_app in Hnd, Hdom.
  apply NoDup_app in Hnd as (Hnd1 & Hdisj & Hnd2).
  split; [exact Hnd2|].
  intros a. rewrite foldl_free_lookup.
  destruct (decide (a ∈ payload_pointers l1)) as [Hin|Hnin].
  - split; [intros [? ?]; discriminate|].
    intros Hin2. exfalso. exact (Hdisj a Hin Hin2).
  - rewrite Hdom, elem_of_app. tauto.
Qed.

(** The step of the ownership invariant: the heap holds the payloads of
    the stored entries and of the event, and after the insertion it holds
    those of the new stored entries. *)
Lemma InsertEvtQueue_owns realloc_ok h queue evt h' queue' :
  wf_queue queue -> sorted_by_time (live queue) ->
  owns_payloads h (stored queue ++ [evt]) ->
  InsertEvtQueue realloc_ok h queue evt = (AL_NO_ERROR, (h', queue')) ->
  owns_payloads h' (stored queue').
Proof.
  intros Hwf Hs Hown Hins. pose proof Hwf as [Hpos _ _ _].
  destruct (InsertEvtQueue_stored _ _ _ _ _ _ Hwf Hs Hins)
    as (s1 & s2 & -> & [(_ & _ & Hlive & _ & _ & ->)|(_ & Hsto & _ & _ & -> & _)]).
  - rewrite (stored_split queue Hpos), <- app_assoc in Hown.
    apply owns_payloads_free in Hown. rewrite Hlive in Hown.
    eapply owns_payloads_Permutation; [|exact Hown].
    rewrite <- app_assoc. apply Permutation_app_head.
    symmetry. apply Permutation_cons_append.
  - rewrite Hsto in Hown.
    eapply owns_payloads_Permutation; [|exact Hown].
    rewrite <- app_assoc. apply Permutation_app_head.
    symmetry. apply Permutation_cons_append.
Qed.

(** X5.  [InsertEvtQueue] keeps the ownership of payloads.  If the heap
    holds exactly one block for each system-exclusive entry stored in
    [events[0..size)] and for the event, then after a successful
    insertion it holds exactly one block for each system-exclusive entry
    stored then; the blocks the compaction frees were all allocated, and
    no block is freed twice. *)
Theorem InsertEvtQueue_keeps_ownership realloc_ok h queue evt h' queue' :
  wf_queue queue -> sorted_by_time (live queue) ->
  owns_payloads h (stored queue ++ [evt]) ->
  InsertEvtQueue realloc_ok h queue evt = (AL_NO_ERROR, (h', queue')) ->
  owns_payloads h' (stored queue') /\
  exists freed,
    h' = foldl free h freed /\ NoDup freed /\
    (forall a, a ∈ freed -> is_Some (h !! a)) /\
    (forall a, a ∈ freed -> a ∉ payload_pointers (stored queue')).
Proof.
  intros Hwf Hs Hown Hins. pose proof Hwf as [Hpos _ _ _].
  pose proof (InsertEvtQueue_owns _ _ _ _ _ _ Hwf Hs Hown Hins) as Hown'.
  split; [exact Hown'|].
  destruct (InsertEvtQueue_stored _ _ _ _ _ _ Hwf Hs Hins)
    as (s1 & s2 & Hsto' & [(_ & _ & Hlive & _ & _ & Hh)|(_ & _ & _ & _ & Hh & _)]).
  - exists (payload_pointers (take (Z.to_nat (pos queue)) (events queue))).
    split; [exact Hh|].
    destruct Hown as [Hnd Hdom].
    rewrite (stored_split queue Hpos), <- app_assoc, payload_pointers_app in Hnd, Hdom.
    apply NoDup_app in Hnd as (Hnd1 & Hdisj & _).
    split; [exact Hnd1|]. split.
    + intros a Ha. apply Hdom, elem_of_app. auto.
    + intros a Ha Hin. destruct Hown' as [_ Hdom'].
      apply Hdom' in Hin. rewrite Hh, foldl_free_lookup in Hin.
      rewrite decide_True in Hin by exact Ha. destruct Hin; discriminate.
  - exists []. split; [exact Hh|]. split; [constructor|].
    split; intros a Ha; apply elem_of_nil in Ha; contradiction.
Qed.

Lemma owns_payloads_nil : owns_payloads ∅ [].
Proof.
  split; [constructor|]. intros a. rewrite lookup_empty. split.
  - intros [? ?]. discriminate.
  - intros Hin. apply elem_of_nil in Hin. contradiction.
Qed.

Lemma owns_payloads_control h l e :
  is_sysex e = false -> owns_payloads h l -> owns_payloads h (l ++ [e]).
Proof.
  intros He Hown. unfold owns_payloads in *.
  rewrite payload_pointers_app, (payload_pointers_cons e []), He.
  change (payload_pointers []) with (@nil Z). rewrite app_nil_r. exact Hown.
Qed.

Lemma owns_payloads_sysex (h : gmap Z (list Z)) l m block e :
  is_sysex e = true -> sysex_data (param e) = m -> h !! m = None ->
  owns_payloads h l -> owns_payloads (<[m := block]> h) (l ++ [e]).
Proof.
  intros He Hm Hfresh [Hnd Hdom]. unfold owns_payloads.
  rewrite payload_pointers_app, (payload_pointers_cons e []), He, Hm.
  change (payload_pointers []) with (@nil Z).
  split.
  - apply NoDup_app. split; [exact Hnd|]. split; [|apply NoDup_singleton].
    intros a Ha Hin. apply list_elem_of_singleton in Hin. subst a.
    apply Hdom in Ha. rewrite Hfresh in Ha. destruct Ha; discriminate.
  - intros a. rewrite elem_of_app, list_elem_of_singleton, <- Hdom.
    destruct (decide (a = m)) as [->|Hne].
    + rewrite lookup_insert_eq. split; eauto.
    + rewrite lookup_insert_ne by congruence. tauto.
Qed.

(** The heap after a successful insertion is the old heap without the
    blocks that were freed. *)
Lemma InsertEvtQueue_heap realloc_ok h queue evt h' queue' :
  wf_queue queue -> sorted_by_time (live queue) ->
  InsertEvtQueue realloc_ok h queue evt = (AL_NO_ERROR, (h', queue')) ->
  exists freed, h' = foldl free h freed.
Proof.
  intros Hwf Hs Hins.
  destruct (InsertEvtQueue_stored _ _ _ _ _ _ Hwf Hs Hins)
    as (s1 & s2 & _ & [(_ & _ & _ & _ & _ & ->)|(_ & _ & _ & _ & -> & _)]).
  - eexists. reflexivity.
  - exists []. reflexivity.
Qed.

(** With ownership, a reset leaves no block in the heap. *)
Lemma ResetEvtQueue_owns h queue :
  wf_queue queue -> owns_payloads h (stored queue) ->
  ResetEvtQueue h queue = (∅, InitEvtQueue).
Proof.
  intros [Hpos Hsz Hal Hmx] [_ Hdom]. unfold ResetEvtQueue.
  pose proof (free_payloads_heap (Z.to_nat (size queue)) 0 h (events queue)) as Hh.
  destruct (free_payloads _ _ _ _) as [h' evs]. cbn [fst] in Hh.
  rewrite Hh by (simpl; lia). change (Z.to_nat 0) with 0%nat. rewrite drop_0.
  f_equal. apply map_eq. intros a. rewrite foldl_free_lookup, lookup_empty.
  case_decide as Hin; [reflexivity|].
  destruct (h !! a) eqn:Ha; [|reflexivity].
  exfalso. apply Hin. apply Hdom. eauto.
Qed.

Section ownership.
Context {A : ALarith}.

Lemma selectSoundfonts_EventQueue (self : MidiSynth) calloc_ok refs context count ids :
  EventQueue (snd (snd (MidiSynth_selectSoundfonts calloc_ok refs self context count ids)))
  = EventQueue self.
Proof.
  unfold MidiSynth_selectSoundfonts.
  destruct (negb _ && negb _); [reflexivity|].
  destruct (negb calloc_ok); [reflexivity|].
  destruct (resolve_sfonts _ _ _ _ _); reflexivity.
Qed.

Lemma insertEvent_owns (self self' : MidiSynth) realloc_ok h h' t ev param1 param2 err :
  synth_owns h self -> ev <> SYSEX_EVENT ->
  MidiSynth_insertEvent realloc_ok h self t ev param1 param2 = (err, (h', self')) ->
  synth_owns h' self'.
Proof.
  intros (Hwf & Hs & Hown) Hev. unfold MidiSynth_insertEvent.
  destruct (InsertEvtQueue _ _ _ _) as [e [h1 q1]] eqn:Hins.
  destruct (Z.eqb_spec e AL_NO_ERROR) as [->|Hne]; cbn [negb].
  - intros [= _ <- <-].
    destruct (InsertEvtQueue_success _ _ _ _ _ _ Hwf Hs Hins) as [Hwf1 Hafter].
    unfold synth_owns. rewrite schedule_EventQueue. cbn [set_EventQueue EventQueue].
    split; [exact Hwf1|]. split.
    + eapply inserted_after_equals_sorted; eauto.
    + eapply (InsertEvtQueue_owns _ _ _ _ _ _ Hwf Hs); [|exact Hins].
      apply owns_payloads_control; [|exact Hown].
      unfold is_sysex. cbn [event]. apply Z.eqb_neq. exact Hev.
  - intros [= _ <- <-].
    destruct (InsertEvtQueue_failure _ _ _ _ _ _ _ Hins Hne) as (_ & -> & ->).
    unfold synth_owns. cbn [set_EventQueue EventQueue]. auto.
Qed.

Lemma insertSysExEvent_owns (self self' : MidiSynth) malloc_result realloc_ok
    h h' t data len err :
  synth_owns h self ->
  malloc_result = NULL \/ h !! malloc_result = None ->
  MidiSynth_insertSysExEvent malloc_result realloc_ok h self t data len
    = (err, (h', self')) ->
  synth_owns h' self'.
Proof.
  intros (Hwf & Hs & Hown) Hfresh. unfold MidiSynth_insertSysExEvent.
  destruct (Z.eqb_spec malloc_result NULL) as [->|Hnn].
  { intros [= _ <- <-]. split; auto. }
  destruct Hfresh as [?|Hfresh]; [contradiction|].
  destruct (InsertEvtQueue _ _ _ _) as [e [h1 q1]] eqn:Hins.
  destruct (Z.eqb_spec e AL_NO_ERROR) as [->|Hne]; cbn [negb].
  - intros [= _ <- <-].
    destruct (InsertEvtQueue_success _ _ _ _ _ _ Hwf Hs Hins) as [Hwf1 Hafter].
    unfold synth_owns. rewrite schedule_EventQueue. cbn [set_EventQueue EventQueue].
    split; [exact Hwf1|]. split.
    + eapply inserted_after_equals_sorted; eauto.
    + eapply (InsertEvtQueue_owns _ _ _ _ _ _ Hwf Hs); [|exact Hins].
      apply owns_payloads_sysex; auto.
  - intros [= _ <- <-].
    destruct (InsertEvtQueue_failure _ _ _ _ _ _ _ Hins Hne) as (_ & -> & ->).
    unfold synth_owns. cbn [set_EventQueue EventQueue].
    split; [exact Hwf|]. split; [exact Hs|].
    unfold free. rewrite delete_insert_eq, delete_id by exact Hfresh. exact Hown.
Qed.

(** X6.  A successful [MidiSynth_insertSysExEvent] on a synth that owns
    its payloads stores a copy of the first [len] bytes of the data in
    the block that [malloc] returned, puts an entry with that block and
    that length in the live range of the queue, allocates nothing else,
    and the synth owns its payloads afterwards. *)
Theorem insertSysExEvent_stores_payload (self self' : MidiSynth)
    malloc_result realloc_ok h h' t data len :
  synth_owns h self -> malloc_result <> NULL -> h !! malloc_result = None ->
  MidiSynth_insertSysExEvent malloc_result realloc_ok h self t data len
    = (AL_NO_ERROR, (h', self')) ->
  h' !! malloc_result = Some (take (Z.to_nat len) data) /\
  {| time := t; event := SYSEX_EVENT; param := param_sysex malloc_result len |}
    ∈ live (EventQueue self') /\
  (forall a, is_Some (h' !! a) -> a = malloc_result \/ is_Some (h !! a)) /\
  synth_owns h' self'.
Proof.
  intros Hsown Hnn Hfresh Hcall.
  pose proof (insertSysExEvent_owns _ _ _ _ _ _ _ _ _ _ Hsown (or_intror Hfresh) Hcall)
    as Hsown'.
  destruct Hsown as (Hwf & Hs & Hown).
  revert Hcall. unfold MidiSynth_insertSysExEvent.
  replace (malloc_result =? NULL) with false by (symmetry; apply Z.eqb_neq; exact Hnn).
  destruct (InsertEvtQueue _ _ _ _) as [e [h1 q1]] eqn:Hins.
  destruct (Z.eqb_spec e AL_NO_ERROR) as [->|Hne]; cbn [negb].
  2: { intros [= -> _ _]. contradiction. }
  intros [= <- <-].
  destruct (InsertEvtQueue_success _ _ _ _ _ _ Hwf Hs Hins) as [Hwf1 Hafter].
  destruct (InsertEvtQueue_heap _ _ _ _ _ _ Hwf Hs Hins) as (freed & Hh).
  assert (Hin : {| time := t; event := SYSEX_EVENT;
                   param := param_sysex malloc_result len |} ∈ live q1).
  { destruct Hafter as (l1 & l2 & _ & -> & _). apply elem_of_app. right.
    apply elem_of_cons. auto. }
  split; [|split; [|split]].
  - destruct Hsown' as (_ & _ & [_ Hdom']).
    rewrite schedule_EventQueue in Hdom'. cbn [set_EventQueue EventQueue] in Hdom'.
    assert (Hsome : is_Some (h1 !! malloc_result)).
    { apply Hdom'. pose proof Hwf1 as [Hpos1 _ _ _].
      rewrite (stored_split q1 Hpos1), payload_pointers_app. apply elem_of_app. right.
      unfold payload_pointers.
      apply list_elem_of_In, in_map_iff.
      eexists. split; [|apply list_elem_of_In, list_elem_of_filter; split; [|exact Hin]];
        reflexivity. }
    rewrite Hh, foldl_free_lookup in Hsome |- *.
    case_decide; [destruct Hsome; discriminate|].
    apply lookup_insert_eq.
  - rewrite schedule_EventQueue. exact Hin.
  - intros a Ha. rewrite Hh, foldl_free_lookup in Ha.
    case_decide; [destruct Ha; discriminate|].
    destruct (decide (a = malloc_result)) as [->|Hne]; [auto|].
    rewrite lookup_insert_ne in Ha by congruence. auto.
  - exact Hsown'.
Qed.

Lemma synth_run_owns h (self : MidiSynth) : synth_run h self -> synth_owns h self.
Proof.
  induction 1 as [self device
                 |h self ok t ev p1 p2 err h' self' _ IH Hev Hcall
                 |h self m ok t data len err h' self' _ IH Hfresh Hcall
                 |h self n self' _ IH Hn Hq
                 |h self srate _ IH
                 |h self cok refs ctx count ids _ IH
                 |h self _ IH].
  - split; [apply wf_InitEvtQueue|]. split; [constructor|apply owns_payloads_nil].
  - eapply insertEvent_owns; eauto.
  - eapply insertSysExEvent_owns; eauto.
  - destruct IH as (Hwf & Hs & Hown). pose proof Hwf as [Hpos Hsz Hal Hmx].
    unfold synth_owns. rewrite Hq. split; [|split].
    + split; cbn [advance_cursor events size pos maxsize]; lia.
    + rewrite live_advance_cursor by lia. by apply sorted_by_time_drop.
    + exact Hown.
  - exact IH.
  - unfold synth_owns. rewrite selectSoundfonts_EventQueue. exact IH.
  - destruct IH as (Hwf & _ & Hown). unfold MidiSynth_stop.
    rewrite (ResetEvtQueue_owns _ _ Hwf Hown). cbn [fst snd].
    split; [apply wf_InitEvtQueue|]. split; [constructor|apply owns_payloads_nil].
Qed.

(** X7.  No payload leaks.  After any run of insertions of control
    events and system-exclusive events, rendering, changes of the sample
    rate, soundfont selections and stops on a constructed synth, the heap
    holds exactly the payloads of the entries stored in the queue, and
    [MidiSynth_stop] and [MidiSynth_Destruct] leave the heap empty and
    the queue empty with capacity 0. *)
Theorem synth_run_no_leak h (self : MidiSynth) :
  synth_run h self ->
  owns_payloads h (stored (EventQueue self)) /\
  fst (MidiSynth_stop h self) = ∅ /\
  EventQueue (snd (MidiSynth_stop h self)) = InitEvtQueue /\
  forall refs,
    fst (snd (MidiSynth_Destruct refs h self)) = ∅ /\
    EventQueue (snd (snd (MidiSynth_Destruct refs h self))) = InitEvtQueue.
Proof.
  intros Hrun. destruct (synth_run_owns _ _ Hrun) as (Hwf & _ & Hown).
  split; [exact Hown|].
  unfold MidiSynth_stop, MidiSynth_Destruct.
  rewrite (ResetEvtQueue_owns _ _ Hwf Hown). cbn [fst snd]. auto.
Qed.

End ownership.

Lemma synth_run_sysex : synth_run heap_sysex synth_sysex.
Proof.
  eapply (run_insertSysExEvent ∅ synth_48k 4096 true 10 [0x7E; 0x7F; 0x09] 3).
  - apply run_construct.
  - right. apply lookup_empty.
  - reflexivity.
Qed.

Lemma InsertEvtQueue_keeps_ownership_witness :
  let queue := EventQueue synth_sysex in
  let '(err, (h', queue')) := InsertEvtQueue true heap_sysex queue (note_at 5 0) in
  err = AL_NO_ERROR /\
  owns_payloads h' (stored queue') /\
  exists freed,
    h' = foldl free heap_sysex freed /\ NoDup freed /\
    (forall a, a ∈ freed -> is_Some (heap_sysex !! a)) /\
    (forall a, a ∈ freed -> a ∉ payload_pointers (stored queue')).
Proof.
  intros queue.
  destruct (InsertEvtQueue true heap_sysex queue (note_at 5 0))
    as [err [h' queue']] eqn:Hins.
  assert (Herr : fst (InsertEvtQueue true heap_sysex queue (note_at 5 0)) = AL_NO_ERROR)
    by reflexivity.
  rewrite Hins in Herr. cbn [fst] in Herr.
  subst err. split; [reflexivity|].
  destruct (synth_run_owns _ _ synth_run_sysex) as (Hwf & Hs & Hown).
  apply (InsertEvtQueue_keeps_ownership true heap_sysex queue (note_at 5 0) h' queue'
           Hwf Hs).
  - apply owns_payloads_control; [reflexivity|exact Hown].
  - exact Hins.
Defined.

Lemma insertSysExEvent_stores_payload_witness :
  heap_sysex !! 4096 = Some (take (Z.to_nat 3) [0x7E; 0x7F; 0x09]) /\
  {| time := 10; event := SYSEX_EVENT; param := param_sysex 4096 3 |}
    ∈ live (EventQueue synth_sysex) /\
  (forall a, is_Some (heap_sysex !! a) ->
             a = 4096 \/ is_Some ((∅ : gmap Z (list Z)) !! a)) /\
  synth_owns heap_sysex synth_sysex.
Proof.
  apply (insertSysExEvent_stores_payload synth_48k synth_sysex 4096 true ∅ heap_sysex
           10 [0x7E; 0x7F; 0x09] 3).
  - apply synth_run_owns, run_construct.
  - discriminate.
  - apply lookup_empty.
  - reflexivity.
Defined.

Lemma synth_run_no_leak_witness :
  owns_payloads heap_sysex (stored (EventQueue synth_sysex)) /\
  fst (MidiSynth_stop heap_sysex synth_sysex) = ∅ /\
  EventQueue (snd (MidiSynth_stop heap_sysex synth_sysex)) = InitEvtQueue /\
  forall refs,
    fst (snd (MidiSynth_Destruct refs heap_sysex synth_sysex)) = ∅ /\
    EventQueue (snd (snd (MidiSynth_Destruct refs heap_sysex synth_sysex)))
      = InitEvtQueue.
Proof.
  apply (synth_run_no_leak heap_sysex synth_sysex). exact synth_run_sysex.
Defined.

(** ** Successful soundfont selections *)

Lemma ref_loop_foldl op n : forall i sfonts refs,
  0 <= i -> (Z.to_nat i + n <= length sfonts)%nat ->
  ref_loop op n i sfonts refs = foldl op refs (take n (drop (Z.to_nat i) sfonts)).
Proof.
  induction n as [|n IH]; intros i sfonts refs Hi Hlen; [reflexivity|].
  cbn [ref_loop].
  destruct (drop (Z.to_nat i) sfonts) as [|x rest] eqn:Hd.
  { apply (f_equal length) in Hd. rewrite length_drop in Hd. simpl in Hd. lia. }
  assert (Hx : sfonts !!! Z.to_nat i = x).
  { apply list_lookup_total_correct.
    rewrite <- (Nat.add_0_r (Z.to_nat i)), <- lookup_drop, Hd. reflexivity. }
  assert (Hrest : drop (Z.to_nat (i + 1)) sfonts = rest).
  { replace (Z.to_nat (i + 1)) with (Z.to_nat i + 1)%nat by lia.
    rewrite <- drop_drop, Hd. reflexivity. }
  rewrite IH by lia. rewrite Hx, Hrest. reflexivity.
Qed.

Lemma slots_of_cons p x l :
  slots_of p (x :: l) = (if decide (x = p) then 1 else 0) + slots_of p l.
Proof.
  unfold slots_of. rewrite filter_cons.
  destruct (decide (x = p)); simpl length; lia.
Qed.

Lemma slots_of_nonneg p l : 0 <= slots_of p l.
Proof. unfold slots_of. lia. Qed.

Lemma foldl_IncrementRef_lookup l : forall (refs : gmap Z Z) p,
  foldl IncrementRef refs l !! p = (fun r => r + slots_of p l) <$> refs !! p.
Proof.
  induction l as [|x l IH]; intros refs p; cbn [foldl].
  - change (slots_of p []) with 0. destruct (refs !! p); simpl; [f_equal; lia|reflexivity].
  - rewrite IH, slots_of_cons. unfold IncrementRef. rewrite lookup_alter.
    destruct (decide (x = p)) as [->|Hne].
    + destruct (refs !! p); simpl; [f_equal; lia|reflexivity].
    + destruct (refs !! p); simpl; [f_equal; lia|reflexivity].
Qed.

Lemma foldl_DecrementRef_lookup l : forall (refs : gmap Z Z) p,
  foldl DecrementRef refs l !! p = (fun r => r - slots_of p l) <$> refs !! p.
Proof.
  induction l as [|x l IH]; intros refs p; cbn [foldl].
  - change (slots_of p []) with 0. destruct (refs !! p); simpl; [f_equal; lia|reflexivity].
  - rewrite IH, slots_of_cons. unfold DecrementRef. rewrite lookup_alter.
    destruct (decide (x = p)) as [->|Hne].
    + destruct (refs !! p); simpl; [f_equal; lia|reflexivity].
    + destruct (refs !! p); simpl; [f_equal; lia|reflexivity].
Qed.

(** The resolution loop, when it succeeds, has written the soundfonts
    of the ids into the slots it visited, and all those ids resolve. *)
Lemma resolve_sfonts_Some context ids n : forall i sfonts r,
  0 <= i -> (Z.to_nat i + n <= length ids)%nat ->
  (Z.to_nat i + n <= length sfonts)%nat ->
  resolve_sfonts context ids n i sfonts = Some r ->
  r = take (Z.to_nat i) sfonts
      ++ map (resolve_id context) (take n (drop (Z.to_nat i) ids))
      ++ drop (Z.to_nat i + n) sfonts /\
  Forall (resolvable context) (take n (drop (Z.to_nat i) ids)).
Proof.
  induction n as [|n IH]; intros i sfonts r Hi Hids Hsf; cbn [resolve_sfonts].
  { intros [= <-]. rewrite Nat.add_0_r. simpl. rewrite take_drop. auto. }
  destruct (drop (Z.to_nat i) ids) as [|id rest] eqn:Hd.
  { apply (f_equal length) in Hd. rewrite length_drop in Hd. simpl in Hd. lia. }
  assert (Hid : ids !!! Z.to_nat i = id).
  { apply list_lookup_total_correct.
    rewrite <- (Nat.add_0_r (Z.to_nat i)), <- lookup_drop, Hd. reflexivity. }
  assert (Hrest : drop (Z.to_nat (i + 1)) ids = rest).
  { replace (Z.to_nat (i + 1)) with (Z.to_nat i + 1)%nat by lia.
    rewrite <- drop_drop, Hd. reflexivity. }
  rewrite Hid.
  assert (Hstep : forall x r,
    resolve_sfonts context ids n (i + 1) (<[Z.to_nat i := x]> sfonts) = Some r ->
    r = take (Z.to_nat i) sfonts ++ x :: map (resolve_id context) (take n rest)
        ++ drop (Z.to_nat i + S n) sfonts /\
    Forall (resolvable context) (take n rest)).
  { intros x r' Hr. apply IH in Hr; [|lia|lia|rewrite length_insert; lia].
    rewrite Hrest in Hr. destruct Hr as [-> Hall]. split; [|exact Hall].
    replace (Z.to_nat (i + 1)) with (S (Z.to_nat i)) by lia.
    rewrite (take_S_r _ _ x) by (apply list_lookup_insert_eq; lia).
    rewrite take_insert_ge by lia. rewrite <- app_assoc. simpl.
    rewrite drop_insert_lt by lia.
    replace (Z.to_nat i + S n)%nat with (S (Z.to_nat i) + n)%nat by lia.
    reflexivity. }
  simpl take. simpl map. unfold resolve_id at 1.
  destruct (Z.eqb_spec id 0) as [Hz|Hnz].
  - intros Hr. apply Hstep in Hr as [-> Hall]. split; [reflexivity|].
    constructor; [left; exact Hz|exact Hall].
  - destruct (Z.eqb_spec (LookupSfont (Device context) id) NULL) as [Hnull|Hnn];
      [discriminate|].
    intros Hr. apply Hstep in Hr as [-> Hall]. split; [reflexivity|].
    constructor; [right; exact Hnn|exact Hall].
Qed.

(** The resolution loop succeeds when all the ids it visits resolve. *)
Lemma resolve_sfonts_resolvable context ids n : forall i sfonts,
  0 <= i -> (Z.to_nat i + n <= length ids)%nat ->
  Forall (resolvable context) (take n (drop (Z.to_nat i) ids)) ->
  is_Some (resolve_sfonts context ids n i sfonts).
Proof.
  induction n as [|n IH]; intros i sfonts Hi Hids Hall; cbn [resolve_sfonts].
  { eauto. }
  destruct (drop (Z.to_nat i) ids) as [|id rest] eqn:Hd.
  { apply (f_equal length) in Hd. rewrite length_drop in Hd. simpl in Hd. lia. }
  assert (Hid : ids !!! Z.to_nat i = id).
  { apply list_lookup_total_correct.
    rewrite <- (Nat.add_0_r (Z.to_nat i)), <- lookup_drop, Hd. reflexivity. }
  assert (Hrest : drop (Z.to_nat (i + 1)) ids = rest).
  { replace (Z.to_nat (i + 1)) with (Z.to_nat i + 1)%nat by lia.
    rewrite <- drop_drop, Hd. reflexivity. }
  simpl take in Hall. apply Forall_cons in Hall as [Hres Hall].
  rewrite Hid.
  destruct (Z.eqb_spec id 0) as [Hz|Hnz].
  - apply IH; [lia|lia|]. rewrite Hrest. exact Hall.
  - destruct Hres as [?|Hres]; [contradiction|].
    destruct (Z.eqb_spec (LookupSfont (Device context) id) NULL) as [Hnull|Hnn];
      [contradiction|].
    apply IH; [lia|lia|]. rewrite Hrest. exact Hall.
Qed.

Section selection_success.
Context {A : ALarith}.

(** What a successful selection has done. *)
Lemma selectSoundfonts_success_inv (self self' : MidiSynth) calloc_ok refs refs'
    context count ids :
  0 <= count -> (Z.to_nat count <= length ids)%nat ->
  MidiSynth_selectSoundfonts calloc_ok refs self context count ids
    = (AL_NO_ERROR, (refs', self')) ->
  let new := map (resolve_id context) (take (Z.to_nat count) ids) in
  (State self = AL_INITIAL \/ State self = AL_STOPPED) /\
  calloc_ok = true /\
  Forall (resolvable context) (take (Z.to_nat count) ids) /\
  self' = snd (Exchange_NumSoundfonts (snd (Exchange_Soundfonts self (Some new))) count) /\
  refs' = ref_loop DecrementRef (Z.to_nat (NumSoundfonts self)) 0
            (sfont_array (Soundfonts self)) (foldl IncrementRef refs new).
Proof.
  intros Hc Hids. cbn zeta. unfold MidiSynth_selectSoundfonts.
  destruct (Z.eqb_spec (State self) AL_INITIAL) as [Hi|Hi];
    destruct (Z.eqb_spec (State self) AL_STOPPED) as [Hs|Hs]; cbn [negb andb];
    try discriminate.
  all: destruct calloc_ok; cbn [negb]; try discriminate.
  all: destruct (resolve_sfonts _ _ _ _ _) as [sfonts|] eqn:Hres; try discriminate.
  all: apply resolve_sfonts_Some in Hres;
    [|lia|simpl; lia|rewrite length_replicate; simpl; lia].
  all: change (Z.to_nat 0) with 0%nat in Hres; rewrite drop_0, take_0 in Hres.
  all: rewrite Nat.add_0_l in Hres.
  all: rewrite drop_ge, app_nil_r in Hres by (rewrite length_replicate; lia).
  all: destruct Hres as [-> Hall]; simpl app.
  all: unfold commit_step2, commit_step3, commit_step4, commit_step1.
  all: cbn [Exchange_Soundfonts Exchange_NumSoundfonts fst snd NumSoundfonts Soundfonts].
  all: intros [= <- <-].
  all: rewrite (ref_loop_foldl IncrementRef)
         by (rewrite ?length_map, ?length_take; simpl; lia).
  all: change (Z.to_nat 0) with 0%nat; rewrite drop_0.
  all: rewrite (take_ge (map _ _)) by (rewrite length_map, length_take; lia).
  all: auto 10.
Qed.

Lemma selectSoundfonts_consistent (self self' : MidiSynth) calloc_ok refs refs'
    context count ids :
  0 <= count -> (Z.to_nat count <= length ids)%nat ->
  MidiSynth_selectSoundfonts calloc_ok refs self context count ids
    = (AL_NO_ERROR, (refs', self')) ->
  consistent_set self'.
Proof.
  intros Hc Hids Hsel.
  destruct (selectSoundfonts_success_inv _ _ _ _ _ _ _ _ Hc Hids Hsel)
    as (_ & _ & _ & -> & _).
  unfold consistent_set. cbn. rewrite length_map, length_take. lia.
Qed.

Lemma selectSoundfonts_refs (self self' : MidiSynth) calloc_ok refs refs'
    context count ids :
  0 <= count -> (Z.to_nat count <= length ids)%nat ->
  consistent_set self ->
  MidiSynth_selectSoundfonts calloc_ok refs self context count ids
    = (AL_NO_ERROR, (refs', self')) ->
  forall p, refs' !! p
            = (fun r => r + slots_of p (sfont_array (Soundfonts self'))
                        - slots_of p (sfont_array (Soundfonts self))) <$> refs !! p.
Proof.
  intros Hc Hids Hcons Hsel.
  destruct (selectSoundfonts_success_inv _ _ _ _ _ _ _ _ Hc Hids Hsel)
    as (_ & _ & _ & -> & ->).
  cbn [Exchange_Soundfonts Exchange_NumSoundfonts fst snd Soundfonts].
  unfold consistent_set in Hcons. unfold sfont_array in *. cbn [default].
  rewrite ref_loop_foldl by lia.
  change (Z.to_nat 0) with 0%nat.
  rewrite drop_0, (take_ge (default [] (Soundfonts self))) by lia.
  intros p. rewrite foldl_DecrementRef_lookup, foldl_IncrementRef_lookup.
  destruct (refs !! p); reflexivity.
Qed.

(** X8.  [MidiSynth_selectSoundfonts] succeeds exactly when the state is
    [AL_INITIAL] or [AL_STOPPED], the array is allocated and each of the
    first [count] ids is 0 or found in the registry.  The synth then
    holds the soundfonts of these ids in their order, the default
    soundfont for 0, with [NumSoundfonts = count]; the queue, the gain,
    the state and the clock are as they were. *)
Theorem selectSoundfonts_succeeds_iff (self : MidiSynth) calloc_ok refs
    context count ids :
  0 <= count -> (Z.to_nat count <= length ids)%nat ->
  let result := MidiSynth_selectSoundfonts calloc_ok refs self context count ids in
  let self' := snd (snd result) in
  (fst result = AL_NO_ERROR <->
   (State self = AL_INITIAL \/ State self = AL_STOPPED) /\ calloc_ok = true /\
   Forall (resolvable context) (take (Z.to_nat count) ids)) /\
  (fst result = AL_NO_ERROR ->
   Soundfonts self' = Some (map (resolve_id context) (take (Z.to_nat count) ids)) /\
   NumSoundfonts self' = count /\
   consistent_set self' /\
   EventQueue self' = EventQueue self /\ Gain self' = Gain self /\
   State self' = State self /\
   LastEvtTime self' = LastEvtTime self /\ NextEvtTime self' = NextEvtTime self /\
   SamplesSinceLast self' = SamplesSinceLast self /\
   SamplesToNext self' = SamplesToNext self /\
   SamplesPerTick self' = SamplesPerTick self).
Proof.
  intros Hc Hids. cbn zeta.
  destruct (MidiSynth_selectSoundfonts calloc_ok refs self context count ids)
    as [err [refs' self']] eqn:Hsel.
  cbn [fst snd]. split; [split|].
  - intros ->.
    destruct (selectSoundfonts_success_inv _ _ _ _ _ _ _ _ Hc Hids Hsel)
      as (? & ? & ? & _). auto.
  - intros (Hstate & -> & Hall). revert Hsel. unfold MidiSynth_selectSoundfonts.
    assert (negb (State self =? AL_INITIAL) && negb (State self =? AL_STOPPED) = false)
      as ->.
    { destruct Hstate as [-> | ->]; reflexivity. }
    cbn [negb].
    destruct (resolve_sfonts_resolvable context ids (Z.to_nat count) 0
                (replicate (Z.to_nat count) NULL)) as [r Hr];
      [lia|simpl; lia|exact Hall|].
    rewrite Hr. intros [= <- _ _]. reflexivity.
  - intros ->.
    destruct (selectSoundfonts_success_inv _ _ _ _ _ _ _ _ Hc Hids Hsel)
      as (_ & _ & _ & -> & _).
    cbn. unfold consistent_set. cbn.
    rewrite length_map, length_take. repeat split; auto; lia.
Qed.

(** X9.  The balance of reference counts.  A successful selection on a
    synth whose count matches its array adds to the count of every
    soundfont the number of slots it has in the new set and subtracts the
    number of slots it had in the old set; selecting a set with the same
    slots again changes no count. *)
Theorem selectSoundfonts_balances (self self' : MidiSynth) calloc_ok refs refs'
    context count ids :
  0 <= count -> (Z.to_nat count <= length ids)%nat ->
  consistent_set self ->
  MidiSynth_selectSoundfonts calloc_ok refs self context count ids
    = (AL_NO_ERROR, (refs', self')) ->
  let old := sfont_array (Soundfonts self) in
  let new := sfont_array (Soundfonts self') in
  (forall p, refs' !! p = (fun r => r + slots_of p new - slots_of p old) <$> refs !! p) /\
  ((forall p, slots_of p new = slots_of p old) -> refs' = refs).
Proof.
  intros Hc Hids Hcons Hsel. cbn zeta.
  pose proof (selectSoundfonts_refs _ _ _ _ _ _ _ _ Hc Hids Hcons Hsel) as Hlook.
  split; [exact Hlook|].
  intros Hsame. apply map_eq. intros p. rewrite Hlook, Hsame.
  destruct (refs !! p); simpl; [f_equal; lia|reflexivity].
Qed.

(** X10.  [MidiSynth_Destruct] on a synth whose count matches its array
    takes one reference from every slot of the set and leaves the synth
    without soundfonts; destroying the synth after a successful selection
    leaves the same counts as destroying it before the selection, and the
    counts as they were when the synth held no soundfont before. *)
Theorem Destruct_releases (self self' : MidiSynth) calloc_ok refs refs' h
    context count ids :
  0 <= count -> (Z.to_nat count <= length ids)%nat ->
  consistent_set self ->
  MidiSynth_selectSoundfonts calloc_ok refs self context count ids
    = (AL_NO_ERROR, (refs', self')) ->
  (forall p, fst (MidiSynth_Destruct refs h self) !! p
             = (fun r => r - slots_of p (sfont_array (Soundfonts self))) <$> refs !! p) /\
  Soundfonts (snd (snd (MidiSynth_Destruct refs' h self'))) = None /\
  NumSoundfonts (snd (snd (MidiSynth_Destruct refs' h self'))) = 0 /\
  fst (MidiSynth_Destruct refs' h self') = fst (MidiSynth_Destruct refs h self) /\
  (NumSoundfonts self = 0 -> fst (MidiSynth_Destruct refs' h self') = refs).
Proof.
  intros Hc Hids Hcons Hsel.
  pose proof (selectSoundfonts_refs _ _ _ _ _ _ _ _ Hc Hids Hcons Hsel) as Hbal.
  pose proof (selectSoundfonts_consistent _ _ _ _ _ _ _ _ Hc Hids Hsel) as Hcons'.
  assert (Hd : forall (s : MidiSynth) r, consistent_set s ->
            forall p, fst (MidiSynth_Destruct r h s) !! p
                      = (fun x => x - slots_of p (sfont_array (Soundfonts s))) <$> r !! p).
  { intros s r Hs p. unfold MidiSynth_Destruct.
    destruct (ResetEvtQueue h (EventQueue s)) as [h0 q0]. cbn [fst].
    unfold consistent_set in Hs.
    rewrite ref_loop_foldl by lia.
    change (Z.to_nat 0) with 0%nat. rewrite drop_0, take_ge by lia.
    apply foldl_DecrementRef_lookup. }
  assert (Heq : fst (MidiSynth_Destruct refs' h self') = fst (MidiSynth_Destruct refs h self)).
  { apply map_eq. intros p. rewrite (Hd self' refs' Hcons'), (Hd self refs Hcons), Hbal.
    destruct (refs !! p); simpl; [f_equal; lia|reflexivity]. }
  split; [exact (Hd self refs Hcons)|].
  split; [|split; [|split; [exact Heq|]]].
  - unfold MidiSynth_Destruct. destruct (ResetEvtQueue _ _). reflexivity.
  - unfold MidiSynth_Destruct. destruct (ResetEvtQueue _ _). reflexivity.
  - intros Hz. rewrite Heq. apply map_eq. intros p. rewrite (Hd self refs Hcons).
    unfold consistent_set in Hcons. rewrite Hz in Hcons.
    destruct (sfont_array (Soundfonts self)); [|simpl in Hcons; lia].
    change (slots_of p []) with 0.
    destruct (refs !! p); simpl; [f_equal; lia|reflexivity].
Qed.

End selection_success.

Lemma selectSoundfonts_succeeds_iff_witness :
  let result :=
    MidiSynth_selectSoundfonts true refs_fonts synth_fonts context_fonts 2 [3; 0] in
  let self' := snd (snd result) in
  (fst result = AL_NO_ERROR <->
   (State synth_fonts = AL_INITIAL \/ State synth_fonts = AL_STOPPED) /\ true = true /\
   Forall (resolvable context_fonts) (take (Z.to_nat 2) [3; 0])) /\
  (fst result = AL_NO_ERROR ->
   Soundfonts self'
     = Some (map (resolve_id context_fonts) (take (Z.to_nat 2) [3; 0])) /\
   NumSoundfonts self' = 2 /\
   consistent_set self' /\
   EventQueue self' = EventQueue synth_fonts /\ Gain self' = Gain synth_fonts /\
   State self' = State synth_fonts /\
   LastEvtTime self' = LastEvtTime synth_fonts /\
   NextEvtTime self' = NextEvtTime synth_fonts /\
   SamplesSinceLast self' = SamplesSinceLast synth_fonts /\
   SamplesToNext self' = SamplesToNext synth_fonts /\
   SamplesPerTick self' = SamplesPerTick synth_fonts).
Proof.
  apply (selectSoundfonts_succeeds_iff synth_fonts true refs_fonts context_fonts 2 [3; 0]).
  - lia.
  - simpl. lia.
Defined.

Lemma selectSoundfonts_balances_witness :
  let result :=
    MidiSynth_selectSoundfonts true refs_fonts synth_fonts context_fonts 2 [3; 0] in
  let refs' := fst (snd result) in
  let self' := snd (snd result) in
  let old := sfont_array (Soundfonts synth_fonts) in
  let new := sfont_array (Soundfonts self') in
  (forall p, refs' !! p
             = (fun r => r + slots_of p new - slots_of p old) <$> refs_fonts !! p) /\
  ((forall p, slots_of p new = slots_of p old) -> refs' = refs_fonts).
Proof.
  apply (selectSoundfonts_balances synth_fonts _ true refs_fonts _ context_fonts 2 [3; 0]).
  - lia.
  - simpl. lia.
  - reflexivity.
  - reflexivity.
Defined.

Lemma Destruct_releases_witness :
  let result :=
    MidiSynth_selectSoundfonts true refs_fonts synth_fonts context_fonts 2 [3; 0] in
  let refs' := fst (snd result) in
  let self' := snd (snd result) in
  (forall p, fst (MidiSynth_Destruct refs_fonts ∅ synth_fonts) !! p
             = (fun r => r - slots_of p (sfont_array (Soundfonts synth_fonts)))
                 <$> refs_fonts !! p) /\
  Soundfonts (snd (snd (MidiSynth_Destruct refs' ∅ self'))) = None /\
  NumSoundfonts (snd (snd (MidiSynth_Destruct refs' ∅ self'))) = 0 /\
  fst (MidiSynth_Destruct refs' ∅ self') = fst (MidiSynth_Destruct refs_fonts ∅ synth_fonts) /\
  (NumSoundfonts synth_fonts = 0 -> fst (MidiSynth_Destruct refs' ∅ self') = refs_fonts).
Proof.
  apply (Destruct_releases synth_fonts _ true refs_fonts _ ∅ context_fonts 2 [3; 0]).
  - lia.
  - simpl. lia.
  - reflexivity.
  - reflexivity.
Defined.

(** ** More about the clock *)

Section clock_more.
Context {A : ALarith}.

(** A successful insertion leaves the synth with the new queue and the
    clock scheduled for the event. *)
Lemma insert_success_schedule (self self' : MidiSynth) realloc_ok h h' t
    ev param1 param2 malloc_result data len :
  MidiSynth_insertEvent realloc_ok h self t ev param1 param2
    = (AL_NO_ERROR, (h', self')) \/
  MidiSynth_insertSysExEvent malloc_result realloc_ok h self t data len
    = (AL_NO_ERROR, (h', self')) ->
  exists queue, self' = schedule (set_EventQueue self queue) t.
Proof.
  intros [Hins|Hins]; revert Hins.
  - unfold MidiSynth_insertEvent.
    destruct (InsertEvtQueue _ _ _ _) as [err [h1 queue]].
    destruct (negb (err =? AL_NO_ERROR)) eqn:Herr.
    + intros [= -> _ _]. discriminate.
    + intros [= _ <-]. eauto.
  - unfold MidiSynth_insertSysExEvent.
    destruct (malloc_result =? NULL); [intros [= ?]; discriminate|].
    destruct (InsertEvtQueue _ _ _ _) as [err [h1 queue]].
    destruct (negb (err =? AL_NO_ERROR)) eqn:Herr.
    + intros [= -> _ _]. discriminate.
    + intros [= _ <-]. eauto.
Qed.

End clock_more.

Lemma schedule_clock_identity (self : @MidiSynth exact) queue t :
  0 <= LastEvtTime self <= t -> t <= UINT64_MAX ->
  t < NextEvtTime self \/ clock_identity self ->
  clock_identity (schedule (set_EventQueue self queue) t).
Proof.
  intros Hl Ht Hcase. unfold schedule. cbn [set_EventQueue NextEvtTime].
  destruct (Z.ltb_spec t (NextEvtTime self)) as [Hlt|Hge].
  - unfold clock_identity.
    cbn [SamplesToNext SamplesSinceLast SamplesPerTick NextEvtTime LastEvtTime
         double_sub double_mul double_of_Z exact set_EventQueue].
    unfold ALuint64_wrap. rewrite Z.mod_small by (unfold UINT64_MAX in Ht; lia).
    ring.
  - destruct Hcase as [?|Hid]; [lia|]. exact Hid.
Qed.

Lemma setSampleRate_clock_identity (self : @MidiSynth exact) (srate : Q) :
  ~ (SamplesPerTick self == 0)%Q ->
  clock_identity self ->
  clock_identity (MidiSynth_setSampleRate self srate).
Proof.
  intros Hp Hid. unfold clock_identity in *. unfold MidiSynth_setSampleRate.
  cbn [SamplesToNext SamplesSinceLast SamplesPerTick NextEvtTime LastEvtTime
       double_div double_mul double_of_Z exact].
  set (r := (srate / inject_Z TICKS_PER_SECOND)%Q).
  transitivity ((SamplesToNext self + SamplesSinceLast self) * r
                / SamplesPerTick self)%Q.
  { field. exact Hp. }
  rewrite Hid. field. exact Hp.
Qed.

(** X11.  The clock identity, in exact arithmetic.  After a successful
    insertion of an event at a time [t] between [LastEvtTime] and
    [UINT64_MAX] that is earlier than [NextEvtTime], or on a clock that
    had the identity, [SamplesToNext + SamplesSinceLast] is
    [(NextEvtTime - LastEvtTime) * SamplesPerTick]; changes of the sample
    rate to rates other than 0 keep it, if [SamplesPerTick] was not 0. *)
Theorem exact_clock_identity (self self' : @MidiSynth exact) realloc_ok h h' t
    ev param1 param2 malloc_result data len (rates : list Q) :
  MidiSynth_insertEvent realloc_ok h self t ev param1 param2
    = (AL_NO_ERROR, (h', self')) \/
  MidiSynth_insertSysExEvent malloc_result realloc_ok h self t data len
    = (AL_NO_ERROR, (h', self')) ->
  0 <= LastEvtTime self <= t -> t <= UINT64_MAX ->
  t < NextEvtTime self \/ clock_identity self ->
  ~ (SamplesPerTick self == 0)%Q ->
  Forall (fun srate => ~ (srate == 0)%Q) rates ->
  clock_identity self' /\
  clock_identity (foldl MidiSynth_setSampleRate self' rates).
Proof.
  intros Hins Hl Ht Hcase Hspt Hrates.
  destruct (insert_success_schedule _ _ _ _ _ _ _ _ _ _ _ _ Hins) as (queue & ->).
  pose proof (schedule_clock_identity self queue t Hl Ht Hcase) as Hid.
  split; [exact Hid|].
  assert (Hspt' : ~ (SamplesPerTick (schedule (set_EventQueue self queue) t) == 0)%Q).
  { unfold schedule. destruct (_ <? _); exact Hspt. }
  revert Hid Hspt'. generalize (schedule (set_EventQueue self queue) t).
  induction Hrates as [|srate rates Hr _ IH]; intros s Hid Hs; [exact Hid|].
  cbn [foldl]. apply IH.
  - apply setSampleRate_clock_identity; assumption.
  - unfold MidiSynth_setSampleRate.
    cbn [SamplesPerTick double_div double_of_Z exact].
    intros Hz. apply Hr.
    assert (Hq : (srate == srate / inject_Z TICKS_PER_SECOND * inject_Z TICKS_PER_SECOND)%Q)
      by (field; discriminate).
    rewrite Hq, Hz. ring.
Qed.

Lemma exact_clock_identity_witness :
  let self := MidiSynth_Construct synth_exact device_48k in
  let self' := snd (snd (MidiSynth_insertEvent true ∅ self 1000 0x90 60 100)) in
  clock_identity self' /\
  clock_identity (foldl MidiSynth_setSampleRate self' [inject_Z 44100; inject_Z 96000]).
Proof.
  intros self self'.
  apply (exact_clock_identity self self' true ∅ ∅ 1000 0x90 60 100 0 [] 0).
  - left. reflexivity.
  - cbn. lia.
  - unfold UINT64_MAX. lia.
  - left. cbn. unfold UINT64_MAX. lia.
  - discriminate.
  - repeat constructor; discriminate.
Defined.

Lemma getTime_clock_at_rest (self : @MidiSynth binary64) :
  clock_at_rest self ->
  MidiSynth_getTime self = time_at_rest (SamplesPerTick self).
Proof.
  intros (Hl & Hn & Hs). unfold MidiSynth_getTime. rewrite Hl, Hn, Hs.
  cbn [double_add double_div double_of_Z ALuint64_of_double binary64].
  destruct (SamplesPerTick self) as [s|s| |s m e]; try reflexivity;
    destruct s; reflexivity.
Qed.

(** X12.  The time of a clock at rest, in IEEE arithmetic.  After
    [MidiSynth_stop] and after [MidiSynth_Construct], [MidiSynth_getTime]
    returns 0, unless [SamplesPerTick] is zero or not a number: then
    [0.0 / SamplesPerTick] is not a number and its conversion to
    [ALuint64] is undefined.  A device of frequency 0 gives such a
    synth. *)
Theorem getTime_at_rest (self : @MidiSynth binary64) h device :
  MidiSynth_getTime (snd (MidiSynth_stop h self))
    = time_at_rest (SamplesPerTick self) /\
  MidiSynth_getTime (MidiSynth_Construct self device)
    = time_at_rest (SamplesPerTick (MidiSynth_Construct self device)) /\
  (Frequency device = 0 ->
   MidiSynth_getTime (MidiSynth_Construct self device) = None).
Proof.
  split; [|split].
  - unfold MidiSynth_stop. destruct (ResetEvtQueue _ _) as [h' q].
    cbn [snd]. rewrite getTime_clock_at_rest; [reflexivity|].
    repeat split.
  - apply getTime_clock_at_rest. repeat split.
  - intros Hz. rewrite getTime_clock_at_rest by (repeat split).
    unfold MidiSynth_Construct. cbn [SamplesPerTick]. rewrite Hz. reflexivity.
Qed.

Lemma getTime_at_rest_witness :
  let device := {| Frequency := 0; SfontMap := ∅; DefaultSfont := 0 |} in
  Frequency device = 0 /\
  MidiSynth_getTime (MidiSynth_Construct synth_48k device) = None.
Proof.
  intros device. split; [reflexivity|].
  apply (getTime_at_rest synth_48k ∅ device). reflexivity.
Defined.

(** ** The time never goes back, in exact arithmetic *)

Lemma Qtruncate_le (p q : Q) : (p <= q)%Q -> Qtruncate p <= Qtruncate q.
Proof.
  intros Hpq. unfold Qtruncate.
  destruct (Qle_bool 0 p) eqn:Hp; destruct (Qle_bool 0 q) eqn:Hq.
  - apply Qfloor_resp_le. exact Hpq.
  - apply Qle_bool_iff in Hp.
    assert (Hq' : (0 <= q)%Q) by (eapply Qle_trans; eauto).
    apply Qle_bool_iff in Hq'. congruence.
  - apply Qle_bool_iff in Hq.
    assert (Hp' : ~ (0 <= p)%Q) by (rewrite <- Qle_bool_iff; congruence).
    apply Qnot_le_lt in Hp'.
    assert (Qceiling p <= 0).
    { change 0 with (Qceiling 0). apply Qceiling_resp_le. apply Qlt_le_weak. exact Hp'. }
    assert (0 <= Qfloor q).
    { change 0 with (Qfloor 0). apply Qfloor_resp_le. exact Hq. }
    lia.
  - apply Qceiling_resp_le. exact Hpq.
Qed.

(** X13.  In exact arithmetic the time never goes back: of two clocks
    with the same event times and the same positive [SamplesPerTick],
    both with a defined time, the one with more samples since the last
    event has the later or the same time. *)
Theorem getTime_monotone (s1 s2 : @MidiSynth exact) t1 t2 :
  LastEvtTime s1 = LastEvtTime s2 -> NextEvtTime s1 = NextEvtTime s2 ->
  (SamplesPerTick s1 == SamplesPerTick s2)%Q -> (0 < SamplesPerTick s1)%Q ->
  (SamplesSinceLast s1 <= SamplesSinceLast s2)%Q ->
  MidiSynth_getTime s1 = Some t1 -> MidiSynth_getTime s2 = Some t2 ->
  t1 <= t2.
Proof.
  intros Hl Hn Hspt Hpos Hssl. unfold MidiSynth_getTime.
  cbn [ALuint64_of_double double_add double_div double_of_Z exact].
  unfold ALuint64_of_Q.
  set (e1 := (inject_Z (LastEvtTime s1) + SamplesSinceLast s1 / SamplesPerTick s1)%Q).
  set (e2 := (inject_Z (LastEvtTime s2) + SamplesSinceLast s2 / SamplesPerTick s2)%Q).
  assert (He : (e1 <= e2)%Q).
  { subst e1 e2. rewrite Hl. apply Qplus_le_r.
    rewrite <- Hspt. apply Qmult_le_compat_r; [exact Hssl|].
    apply Qlt_le_weak, Qinv_lt_0_compat. exact Hpos. }
  pose proof (Qtruncate_le e1 e2 He) as Htr.
  destruct (_ && _); [|discriminate]. destruct (_ && _); [|discriminate].
  intros [= <-] [= <-]. rewrite Hl, Hn. unfold clampu64. lia.
Qed.

Lemma getTime_monotone_witness :
  let later :=
    @Build_MidiSynth exact InitEvtQueue None 0 1%Q AL_PLAYING 7 1000000
      (48001 # 2)%Q (23999 # 2)%Q (48000 # 1000000)%Q in
  MidiSynth_getTime synth_exact = Some 250017 /\
  MidiSynth_getTime later = Some 500017 /\
  250017 <= 500017.
Proof.
  intros later. split; [reflexivity|]. split; [reflexivity|].
  apply (getTime_monotone synth_exact later 250017 500017); try reflexivity.
  cbn. unfold Qle. simpl. lia.
Defined.

(** ** The buffer ring of the OpenSL backend *)

Lemma opensl_callback_step NumUpdates data :
  ring_ok NumUpdates data ->
  let data' := snd (opensl_callback NumUpdates data) in
  ring_ok NumUpdates data' /\
  curBuffer data' = (curBuffer data + 1) mod NumUpdates /\
  buffer data' = buffer data /\ bufferSize data' = bufferSize data /\
  frameSize data' = frameSize data.
Proof.
  intros (Hb & Hn & Hs & Hfit & Hc). cbn zeta. unfold opensl_callback.
  replace (buffer data =? NULL) with false by (symmetry; apply Z.eqb_neq; exact Hb).
  cbn [negb snd]. unfold ring_ok. cbn [curBuffer buffer bufferSize frameSize].
  unfold ALuint_wrap. rewrite (Z.mod_small (curBuffer data + 1)) by lia.
  rewrite Z.rem_mod_nonneg by lia.
  pose proof (Z.mod_pos_bound (curBuffer data + 1) NumUpdates ltac:(lia)).
  repeat split; auto; lia.
Qed.

Lemma callbacks_curBuffer NumUpdates n : forall data,
  ring_ok NumUpdates data ->
  ring_ok NumUpdates (callbacks NumUpdates n data) /\
  curBuffer (callbacks NumUpdates n data)
    = (curBuffer data + Z.of_nat n) mod NumUpdates /\
  buffer (callbacks NumUpdates n data) = buffer data /\
  bufferSize (callbacks NumUpdates n data) = bufferSize data.
Proof.
  induction n as [|n IH]; intros data Hok.
  - simpl. pose proof Hok as (_ & Hn & _ & _ & Hc).
    rewrite Z.add_0_r, Z.mod_small by lia. auto.
  - destruct (IH data Hok) as (Hok' & Hcur & Hbuf & Hsz).
    change (callbacks NumUpdates (S n) data)
      with (snd (opensl_callback NumUpdates (callbacks NumUpdates n data))).
    destruct (opensl_callback_step NumUpdates _ Hok') as (Hok2 & Hc2 & Hb2 & Hs2 & _).
    cbn zeta in *. split; [exact Hok2|]. split; [|split; congruence].
    rewrite Hc2, Hcur. pose proof Hok as (_ & Hn & _).
    rewrite Z.add_mod_idemp_l by lia. f_equal. lia.
Qed.

(** X14.  The buffer ring of the OpenSL backend.  On a ring in order,
    with [NumUpdates] buffers of [bufferSize] bytes, every callback hands
    out the buffer of the current index, which lies inside the memory of
    the ring, and moves the index to the next buffer, the first one after
    the last; after [n] callbacks the index is the old one plus [n]
    modulo [NumUpdates], so [NumUpdates] callbacks return to the same
    state. *)
Theorem opensl_callback_ring NumUpdates data (n : nat) :
  ring_ok NumUpdates data ->
  let data_n := callbacks NumUpdates n data in
  let '(chunk, data') := opensl_callback NumUpdates data_n in
  curBuffer data_n = (curBuffer data + Z.of_nat n) mod NumUpdates /\
  (exists c, chunk = Some c /\
     buf c = buffer data + curBuffer data_n * bufferSize data /\
     bytes c = bufferSize data /\
     buffer data <= buf c /\
     buf c + bytes c <= buffer data + NumUpdates * bufferSize data) /\
  ring_ok NumUpdates data' /\
  curBuffer data' = (curBuffer data_n + 1) mod NumUpdates /\
  callbacks NumUpdates (Z.to_nat NumUpdates) data_n = data_n.
Proof.
  intros Hok. cbn zeta.
  destruct (callbacks_curBuffer NumUpdates n data Hok) as (Hokn & Hcur & Hbuf & Hsz).
  set (data_n := callbacks NumUpdates n data) in *.
  destruct (opensl_callback NumUpdates data_n) as [chunk data'] eqn:Hcb.
  pose proof (opensl_callback_step NumUpdates data_n Hokn) as Hstep.
  rewrite Hcb in Hstep. cbn zeta in Hstep. cbn [snd] in Hstep.
  destruct Hstep as (Hok' & Hc' & _).
  pose proof Hokn as (Hb & Hn & Hs & Hfit & Hc).
  split; [exact Hcur|]. split; [|split; [exact Hok'|split; [exact Hc'|]]].
  - revert Hcb. unfold opensl_callback.
    replace (buffer data_n =? NULL) with false by (symmetry; apply Z.eqb_neq; exact Hb).
    cbn [negb]. intros [= <- _]. eexists. split; [reflexivity|].
    cbn [buf bytes]. unfold ALuint_wrap.
    rewrite Z.mod_small by nia. rewrite Hbuf, Hsz in *. repeat split; nia.
  - destruct (callbacks_curBuffer NumUpdates (Z.to_nat NumUpdates) data_n Hokn)
      as (_ & Hcur2 & Hbuf2 & Hsz2).
    rewrite Z2Nat.id in Hcur2 by lia.
    rewrite <- Z.add_mod_idemp_r, Z.mod_same, Z.add_0_r, Z.mod_small in Hcur2 by lia.
    assert (Hrest : forall k d,
      engineObject (callbacks NumUpdates k d) = engineObject d /\
      engine (callbacks NumUpdates k d) = engine d /\
      outputMix (callbacks NumUpdates k d) = outputMix d /\
      bufferQueueObject (callbacks NumUpdates k d) = bufferQueueObject d /\
      frameSize (callbacks NumUpdates k d) = frameSize d).
    { induction k as [|k IHk]; intros d; [simpl; auto|].
      change (callbacks NumUpdates (S k) d)
        with (snd (opensl_callback NumUpdates (callbacks NumUpdates k d))).
      destruct (IHk d) as (E1 & E2 & E3 & E4 & E5).
      unfold opensl_callback. destruct (negb _); cbn [snd]; auto. }
    destruct (Hrest (Z.to_nat NumUpdates) data_n) as (E1 & E2 & E3 & E4 & E5).
    destruct (callbacks NumUpdates (Z.to_nat NumUpdates) data_n), data_n.
    cbn in *. congruence.
Qed.

Lemma opensl_callback_ring_witness :
  let data := {| engineObject := 1; engine := 2; outputMix := 3;
                 bufferQueueObject := 4; buffer := 0x10000;
                 bufferSize := 4096; curBuffer := 2; frameSize := 4 |} in
  let data_n := callbacks 4 3 data in
  let '(chunk, data') := opensl_callback 4 data_n in
  curBuffer data_n = (curBuffer data + Z.of_nat 3) mod 4 /\
  (exists c, chunk = Some c /\
     buf c = buffer data + curBuffer data_n * bufferSize data /\
     bytes c = bufferSize data /\
     buffer data <= buf c /\
     buf c + bytes c <= buffer data + 4 * bufferSize data) /\
  ring_ok 4 data' /\
  curBuffer data' = (curBuffer data_n + 1) mod 4 /\
  callbacks 4 (Z.to_nat 4) data_n = data_n.
Proof.
  intros data.
  apply (opensl_callback_ring 4 data 3).
  unfold ring_ok. cbn. repeat split; try lia. discriminate.
Defined.

(** ** The place of an event, by counting *)

(** The bisection ends at [high] when it starts at or below it. *)
Lemma bisect_lower_bound evs t : forall lo p high hi0,
  (forall i j, lo <= i -> i <= j -> j <= hi0 ->
     time (at_index evs i) <= time (at_index evs j)) ->
  lo <= p -> p <= high -> high <= hi0 ->
  (forall i, lo <= i < p -> time (at_index evs i) < t) ->
  (high = hi0 \/ t <= time (at_index evs high)) ->
  let r := bisect evs t p high in
  p <= r <= high /\
  (forall i, lo <= i < r -> time (at_index evs i) < t) /\
  (r = hi0 \/ t <= time (at_index evs r)).
Proof.
  intros lo p high. revert lo.
  funelim (bisect evs t p high); intros lo hi0 Hord Hlo Hph Hhi Hlt Hup; cbn zeta.
  - clear Heqcall.
    pose proof (Z.quot_div_nonneg (high - p) 2).
    pose proof (Z.div_lt_upper_bound (high - p) 2 (high - p)).
    pose proof (Z.div_pos (high - p) 2).
    set (mid := p + Z.quot (high - p) 2) in *.
    assert (p <= mid < high) by (subst mid; lia).
    destruct (Z.ltb_spec (time (at_index evs mid)) t) as [Hm|Hm].
    + destruct (H lo hi0) as (? & ? & ?); try lia; auto.
      { intros i Hi. destruct (Z_lt_dec i p); [apply Hlt; lia|].
        specialize (Hord i mid). lia. }
      repeat split; try lia; auto.
    + destruct (H0 lo hi0) as (? & ? & ?); try lia; auto.
      repeat split; try lia; auto.
  - assert (p = high) by lia. subst p. repeat split; try lia; auto.
Qed.

Lemma filter_time_all (t : Z) (l : list MidiEvent) :
  Forall (fun e => time e <= t) l -> filter (fun e => time e <= t) l = l.
Proof.
  induction 1 as [|e l He _ IH]; [reflexivity|].
  rewrite filter_cons_True by exact He. rewrite IH. reflexivity.
Qed.

Lemma filter_time_later (t : Z) (l : list MidiEvent) :
  Forall (fun e => t < time e) l -> filter (fun e => time e <= t) l = [].
Proof.
  induction 1 as [|e l He _ IH]; [reflexivity|].
  rewrite filter_cons_False by lia. exact IH.
Qed.

(** X15.  The search of [InsertEvtQueue] on a well-formed queue with a
    sorted live range.  The bisection returns the first index of the
    live range whose entry is not earlier than the event, or the last
    index when there is none; the scan goes on to the insertion point,
    which is the cursor plus the number of live entries that are not
    later than the event. *)
Theorem insertion_point_counts queue evt :
  wf_queue queue -> sorted_by_time (live queue) -> 0 < size queue - pos queue ->
  let b := bisect (events queue) (time evt) (pos queue) (size queue - 1) in
  pos queue <= b <= size queue - 1 /\
  (forall i, pos queue <= i < b -> time (at_index (events queue) i) < time evt) /\
  (b = size queue - 1 \/ time evt <= time (at_index (events queue) b)) /\
  insertion_point queue evt
    = pos queue
      + Z.of_nat (length (filter (fun e => time e <= time evt) (live queue))).
Proof.
  intros Hwf Hs Hne. pose proof Hwf as [Hpos Hsz Hal Hmx]. cbn zeta.
  assert (Hord : forall i j, pos queue <= i -> i <= j -> j <= size queue - 1 ->
            time (at_index (events queue) i) <= time (at_index (events queue) j)).
  { intros i j ? ? ?.
    eapply (sorted_by_time_lookup _ (Z.to_nat (i - pos queue)) (Z.to_nat (j - pos queue)));
      [exact Hs| apply live_lookup; auto; lia | apply live_lookup; auto; lia | lia]. }
  pose proof (bisect_lower_bound (events queue) (time evt) (pos queue) (pos queue)
                (size queue - 1) (size queue - 1) Hord) as Hb.
  cbn zeta in Hb. destruct Hb as (Hb1 & Hb2 & Hb3); try lia; auto.
  split; [exact Hb1|]. split; [exact Hb2|]. split; [exact Hb3|].
  destruct (insertion_point_spec queue evt Hwf Hs) as (Hp & Hle & Hgt).
  set (p := insertion_point queue evt) in *.
  assert (Hlen : length (live queue) = Z.to_nat (size queue - pos queue)).
  { unfold live. rewrite length_take, length_drop. lia. }
  rewrite <- (take_drop (Z.to_nat (p - pos queue)) (live queue)).
  rewrite filter_app, filter_time_all, filter_time_later.
  - rewrite app_nil_r, length_take. lia.
  - apply Forall_lookup. intros k x Hk. rewrite lookup_drop in Hk.
    pose proof (lookup_lt_Some _ _ _ Hk) as Hlt.
    assert (Hl := live_lookup queue (p + Z.of_nat k) Hwf ltac:(lia)).
    replace (Z.to_nat (p + Z.of_nat k - pos queue))
      with (Z.to_nat (p - pos queue) + k)%nat in Hl by lia.
    rewrite Hl in Hk. injection Hk as <-. apply Hgt. lia.
  - apply Forall_lookup. intros k x Hk.
    pose proof (lookup_lt_Some _ _ _ Hk) as Hlt. rewrite length_take in Hlt.
    rewrite lookup_take_lt in Hk by lia.
    assert (Hl := live_lookup queue (pos queue + Z.of_nat k) Hwf ltac:(lia)).
    replace (Z.to_nat (pos queue + Z.of_nat k - pos queue)) with k in Hl by lia.
    rewrite Hl in Hk. injection Hk as <-. apply Hle. lia.
Qed.

Lemma insertion_point_counts_witness :
  let queue :=
    advance_cursor
      (insert_all InitEvtQueue (map (fun t => note_at t 0) [1; 3; 3; 5; 5; 5; 7; 9])) 2 in
  let evt := note_at 5 1 in
  let b := bisect (events queue) (time evt) (pos queue) (size queue - 1) in
  pos queue <= b <= size queue - 1 /\
  (forall i, pos queue <= i < b -> time (at_index (events queue) i) < time evt) /\
  (b = size queue - 1 \/ time evt <= time (at_index (events queue) b)) /\
  insertion_point queue evt
    = pos queue
      + Z.of_nat (length (filter (fun e => time e <= time evt) (live queue))).
Proof.
  intros queue evt.
  assert (Hreach : reachable queue).
  { apply reach_consume; [apply reachable_insert_all, reach_init|].
    vm_compute. split; discriminate. }
  destruct (reachable_invariant _ Hreach) as [Hwf Hs].
  apply (insertion_point_counts queue evt Hwf Hs).
  reflexivity.
Defined.

(** ** The reference counts during a commit *)

Lemma ref_loop_steps_fst op n : forall i sfonts (refs : gmap Z Z),
  fst (ref_loop_steps op n i sfonts refs) = ref_loop op n i sfonts refs.
Proof.
  induction n as [|n IH]; intros i sfonts refs; [reflexivity|].
  cbn [ref_loop_steps ref_loop]. rewrite <- IH.
  destruct (ref_loop_steps op n (i + 1) sfonts _). reflexivity.
Qed.

Lemma ref_loop_steps_elem op n : forall i sfonts (refs s : gmap Z Z),
  0 <= i -> (Z.to_nat i + n <= length sfonts)%nat ->
  s ∈ snd (ref_loop_steps op n i sfonts refs) ->
  exists k, (k <= n)%nat /\ s = foldl op refs (take k (drop (Z.to_nat i) sfonts)).
Proof.
  induction n as [|n IH]; intros i sfonts refs s Hi Hlen; cbn [ref_loop_steps].
  { intros Hin. apply elem_of_nil in Hin. contradiction. }
  destruct (drop (Z.to_nat i) sfonts) as [|x rest] eqn:Hd.
  { apply (f_equal length) in Hd. rewrite length_drop in Hd. simpl in Hd. lia. }
  assert (Hx : sfonts !!! Z.to_nat i = x).
  { apply list_lookup_total_correct.
    rewrite <- (Nat.add_0_r (Z.to_nat i)), <- lookup_drop, Hd. reflexivity. }
  assert (Hrest : drop (Z.to_nat (i + 1)) sfonts = rest).
  { replace (Z.to_nat (i + 1)) with (Z.to_nat i + 1)%nat by lia.
    rewrite <- drop_drop, Hd. reflexivity. }
  rewrite Hx. specialize (IH (i + 1) sfonts (op refs x) s).
  destruct (ref_loop_steps op n (i + 1) sfonts (op refs x)) as [r log].
  cbn [snd] in *. intros Hin. apply elem_of_cons in Hin as [-> | Hin].
  - exists 1%nat. split; [lia|reflexivity].
  - apply IH in Hin as (k & Hk & ->); [|lia|lia].
    exists (S k). split; [lia|]. rewrite Hrest. reflexivity.
Qed.

Lemma ref_loop_steps_last op n : forall i sfonts (refs : gmap Z Z),
  default refs (last (snd (ref_loop_steps op n i sfonts refs)))
  = fst (ref_loop_steps op n i sfonts refs).
Proof.
  induction n as [|n IH]; intros i sfonts refs; [reflexivity|].
  cbn [ref_loop_steps]. specialize (IH (i + 1) sfonts (op refs (sfonts !!! Z.to_nat i))).
  destruct (ref_loop_steps op n (i + 1) sfonts _) as [r log].
  cbn [fst snd] in *. destruct log as [|s l]; [exact IH|].
  rewrite last_cons_cons.
  destruct (last (s :: l)) eqn:E; [exact IH|].
  apply last_None in E. discriminate.
Qed.

Lemma slots_of_take p k l : 0 <= slots_of p (take k l) <= slots_of p l.
Proof.
  split; [apply slots_of_nonneg|].
  rewrite <- (take_drop k l) at 2. unfold slots_of.
  rewrite filter_app, length_app. lia.
Qed.

Lemma last_app_map {X Y : Type} (l : list Y) (a b : Y) (f : X -> Y)
    (log : list X) (x r : X) :
  f r = b -> default r (last log) = x ->
  last (l ++ a :: b :: map f log) = Some (f x).
Proof.
  intros Hb Hx. destruct log as [|s log _] using rev_ind.
  - simpl in *. subst.
    change (l ++ [a; f x]) with (l ++ [a] ++ [f x]).
    rewrite app_assoc. apply last_snoc.
  - rewrite last_snoc in Hx. simpl in Hx. subst s.
    rewrite map_app. simpl map.
    change (l ++ a :: b :: map f log ++ [f x])
      with (l ++ (a :: b :: map f log) ++ [f x]).
    rewrite app_assoc. apply last_snoc.
Qed.

Section commit_order.
Context {A : ALarith}.

(** The call with its writes recorded returns what the call returns. *)
Lemma selectSoundfonts_steps_result (self : MidiSynth) calloc_ok refs context count ids :
  fst (MidiSynth_selectSoundfonts_steps calloc_ok refs self context count ids)
  = MidiSynth_selectSoundfonts calloc_ok refs self context count ids.
Proof.
  unfold MidiSynth_selectSoundfonts_steps, MidiSynth_selectSoundfonts.
  destruct (negb (State self =? AL_INITIAL) && negb (State self =? AL_STOPPED));
    [reflexivity|].
  destruct (negb calloc_ok); [reflexivity|].
  destruct (resolve_sfonts _ _ _ _ _) as [sfonts|]; [|reflexivity].
  unfold commit_step1, commit_step2, commit_step3, commit_step4.
  cbn [Exchange_Soundfonts Exchange_NumSoundfonts NumSoundfonts].
  rewrite <- (ref_loop_steps_fst IncrementRef).
  destruct (ref_loop_steps IncrementRef _ _ _ _) as [refs1 log1]. cbn [fst].
  rewrite <- (ref_loop_steps_fst DecrementRef).
  destruct (ref_loop_steps DecrementRef _ _ _ _) as [refs4 log4]. reflexivity.
Qed.

(** X16.  The order of the writes of [MidiSynth_selectSoundfonts].  A
    call that fails writes nothing.  In a successful call on a synth
    whose count matches its array, after every single increment,
    exchange and decrement the count of a soundfont is at least the
    smaller of its counts before and after the call, and it covers the
    slots the soundfont has in the array the synth points to at that
    moment, beside the references that others held before the call; the
    state after the last write is the one the call returns. *)
Theorem selectSoundfonts_counts_never_dip (self : MidiSynth) calloc_ok refs
    context count ids :
  0 <= count -> (Z.to_nat count <= length ids)%nat ->
  consistent_set self ->
  let result := MidiSynth_selectSoundfonts_steps calloc_ok refs self context count ids in
  let err := fst (fst result) in
  let final := snd (fst result) in
  let log := snd result in
  MidiSynth_selectSoundfonts calloc_ok refs self context count ids = (err, final) /\
  (err <> AL_NO_ERROR -> log = []) /\
  (err = AL_NO_ERROR ->
   last log = Some final /\
   forall refs_k self_k p r,
     (refs_k, self_k) ∈ log -> refs !! p = Some r ->
     exists c r',
       refs_k !! p = Some c /\ fst final !! p = Some r' /\
       Z.min r r' <= c /\
       r - slots_of p (sfont_array (Soundfonts self))
         + slots_of p (sfont_array (Soundfonts self_k)) <= c).
Proof.
  intros Hc Hids Hcons. cbn zeta.
  pose proof (selectSoundfonts_steps_result self calloc_ok refs context count ids) as Hres.
  destruct (MidiSynth_selectSoundfonts_steps calloc_ok refs self context count ids)
    as [[err final] log] eqn:Hsteps.
  cbn [fst snd] in *. split; [symmetry; exact Hres|].
  revert Hsteps. unfold MidiSynth_selectSoundfonts_steps.
  destruct (negb (State self =? AL_INITIAL) && negb (State self =? AL_STOPPED)).
  { intros [= <- <- <-]. split; [reflexivity|discriminate]. }
  destruct (negb calloc_ok).
  { intros [= <- <- <-]. split; [reflexivity|discriminate]. }
  destruct (resolve_sfonts _ _ _ _ _) as [new|] eqn:Hnew.
  2:{ intros [= <- <- <-]. split; [reflexivity|discriminate]. }
  apply resolve_sfonts_Some in Hnew;
    [|lia|simpl; lia|rewrite length_replicate; simpl; lia].
  destruct Hnew as [Hnew _].
  assert (Hlnew : length new = Z.to_nat count).
  { rewrite Hnew. change (Z.to_nat 0) with 0%nat.
    rewrite take_0, drop_0, Nat.add_0_l.
    rewrite drop_ge by (rewrite length_replicate; lia).
    simpl. rewrite app_nil_r, length_map, length_take. lia. }
  clear Hnew.
  set (old := sfont_array (Soundfonts self)) in *.
  assert (Hlold : length old = Z.to_nat (NumSoundfonts self)).
  { unfold consistent_set in Hcons. fold old in Hcons. lia. }
  pose proof (ref_loop_steps_fst IncrementRef (Z.to_nat count) 0 new refs) as Hf1.
  pose proof (ref_loop_steps_last IncrementRef (Z.to_nat count) 0 new refs) as Hl1.
  pose proof (fun s => ref_loop_steps_elem IncrementRef (Z.to_nat count) 0 new refs s)
    as He1.
  destruct (ref_loop_steps IncrementRef (Z.to_nat count) 0 new refs) as [refs1 log1].
  cbn [fst snd] in *.
  rewrite ref_loop_foldl in Hf1 by (simpl; lia).
  change (Z.to_nat 0) with 0%nat in *.
  rewrite drop_0, take_ge in Hf1 by lia. rewrite drop_0 in He1.
  cbn [Exchange_Soundfonts Exchange_NumSoundfonts NumSoundfonts Soundfonts].
  fold old.
  pose proof (ref_loop_steps_fst DecrementRef (Z.to_nat (NumSoundfonts self)) 0 old refs1)
    as Hf4.
  pose proof (ref_loop_steps_last DecrementRef (Z.to_nat (NumSoundfonts self)) 0 old refs1)
    as Hl4.
  pose proof (fun s =>
    ref_loop_steps_elem DecrementRef (Z.to_nat (NumSoundfonts self)) 0 old refs1 s)
    as He4.
  destruct (ref_loop_steps DecrementRef (Z.to_nat (NumSoundfonts self)) 0 old refs1)
    as [refs4 log4].
  cbn [fst snd] in *.
  rewrite ref_loop_foldl in Hf4 by (simpl; lia).
  change (Z.to_nat 0) with 0%nat in *.
  rewrite drop_0, take_ge in Hf4 by lia. rewrite drop_0 in He4.
  intros [= <- <- <-].
  split; [intros E; contradiction E; reflexivity|]. intros _.
  split.
  - apply (last_app_map _ _ _ (fun r => (r, _)) log4 refs4 refs1); [reflexivity|].
    rewrite Hl4. reflexivity.
  - intros refs_k self_k p r Hin Hp. cbn [fst].
    exists (default 0 (refs_k !! p)),
      (r + slots_of p new - slots_of p old).
    assert (Hfinal : refs4 !! p = Some (r + slots_of p new - slots_of p old)).
    { rewrite Hf4, foldl_DecrementRef_lookup, Hf1, foldl_IncrementRef_lookup, Hp.
      reflexivity. }
    pose proof (slots_of_nonneg p new). pose proof (slots_of_nonneg p old).
    apply elem_of_app in Hin as [Hin|Hin];
      [|apply elem_of_cons in Hin as [Hin|Hin];
        [|apply elem_of_cons in Hin as [Hin|Hin]]].
    + apply list_elem_of_fmap in Hin as (s & [= -> ->] & Hin).
      apply He1 in Hin as (k & Hk & ->); [|lia|simpl; lia].
      rewrite foldl_IncrementRef_lookup, Hp. simpl. fold old.
      pose proof (slots_of_take p k new).
      split; [reflexivity|]. split; [exact Hfinal|]. lia.
    + injection Hin as -> ->.
      rewrite Hf1, foldl_IncrementRef_lookup, Hp. simpl.
      split; [reflexivity|]. split; [exact Hfinal|]. lia.
    + injection Hin as -> ->.
      rewrite Hf1, foldl_IncrementRef_lookup, Hp. simpl.
      split; [reflexivity|]. split; [exact Hfinal|]. lia.
    + apply list_elem_of_fmap in Hin as (s & [= -> ->] & Hin).
      apply He4 in Hin as (k & Hk & ->); [|lia|simpl; lia].
      rewrite foldl_DecrementRef_lookup, Hf1, foldl_IncrementRef_lookup, Hp. simpl.
      pose proof (slots_of_take p k old).
      split; [reflexivity|]. split; [exact Hfinal|]. lia.
Qed.

End commit_order.

Lemma selectSoundfonts_counts_never_dip_witness :
  let result :=
    MidiSynth_selectSoundfonts_steps true refs_fonts synth_fonts context_fonts 2 [3; 0] in
  let err := fst (fst result) in
  let final := snd (fst result) in
  let log := snd result in
  length log = 6%nat /\
  MidiSynth_selectSoundfonts true refs_fonts synth_fonts context_fonts 2 [3; 0]
    = (err, final) /\
  (err <> AL_NO_ERROR -> log = []) /\
  (err = AL_NO_ERROR ->
   last log = Some final /\
   forall refs_k self_k p r,
     (refs_k, self_k) ∈ log -> refs_fonts !! p = Some r ->
     exists c r',
       refs_k !! p = Some c /\ fst final !! p = Some r' /\
       Z.min r r' <= c /\
       r - slots_of p (sfont_array (Soundfonts synth_fonts))
         + slots_of p (sfont_array (Soundfonts self_k)) <= c).
Proof.
  split; [reflexivity|].
  apply (selectSoundfonts_counts_never_dip synth_fonts true refs_fonts
           context_fonts 2 [3; 0]).
  - lia.
  - simpl. lia.
  - reflexivity.
Defined.
